(** * LeWitt grid hatch renderer: a shallow embedding

    The development follows the JavaScript sources of the renderer
    (helpers.js, lewitt.js, config.js) and of the merge tool.

    The renderer as a whole is written over exact rationals [Q]: every
    finite double is a rational, and the operations ([+], [-], [*],
    [/], comparisons, [Math.max], [Math.min], [Math.round],
    [Math.floor], [Math.ceil]) are taken with their exact meaning.
    NaN and the infinities are not represented there, and a division
    by zero is [0].  This serves the statements about the sequence of
    calls, about orders and selections, and about ranges that rounding
    does not move.

    A JavaScript number is a binary64 value, and the result of an
    operation is rounded.  The functions whose statements turn on that
    ([calculateSeverity], [clipLineToRect], [drawLineWithRectHole],
    the positions of uniform sampling and the counter of the loop of
    [drawHatchLines]) are written a second time in module [Binary64],
    over the binary64 numbers of the kernel, operation by operation as
    the source has them.

    Integer quantities (counts, indices, 32-bit words, timestamps,
    character counts) are [Z], [N] or [nat]; strings are [string], a
    character standing for its code.

    The file has three parts: the embedding of the sources, the
    vocabulary of the statements, and the lemmas and theorems. *)

From Stdlib Require Import Reals.
From Stdlib Require Import ZArith QArith Qround Qminmax Qabs.
From Stdlib Require Import List String Ascii Bool Lia Lra Psatz.
From Stdlib Require Import Sorted Permutation.
Import ListNotations.

Local Open Scope string_scope.
Local Open Scope list_scope.
Local Open Scope Q_scope.

(** ** JavaScript number helpers *)

Definition Qltb (x y : Q) : bool := negb (Qle_bool y x).
Definition Qleb (x y : Q) : bool := Qle_bool x y.
Definition Qeqb (x y : Q) : bool := Qeq_bool x y.

(** [Math.round]: nearest integer, ties towards plus infinity. *)
Definition Math_round (x : Q) : Z := Qfloor (x + (1 # 2)).
Definition Math_floor (x : Q) : Z := Qfloor x.
Definition Math_ceil (x : Q) : Z := Qceiling x.
Definition Math_max (a b : Q) : Q := Qmax a b.
Definition Math_min (a b : Q) : Q := Qmin a b.

(** [Math.round(Math.sqrt(k))] for a count [k].  The square root of an
    integer is never half-way between two integers, so the rounded root
    is determined by integer arithmetic: it is [r] or [r + 1] for
    [r = floor (sqrt k)], and it is [r + 1] exactly when [k > r*r + r]. *)
Definition Math_round_sqrt (k : N) : Z :=
  let r := Z.sqrt (Z.of_N k) in
  if (r * r + r <? Z.of_N k)%Z then (r + 1)%Z else r.

(** ** helpers.js *)

(** [clamp(value, min, max) = Math.max(min, Math.min(max, value))] *)
Definition clamp (value min max : Q) : Q := Math_max min (Math_min max value).

(** The same function at integer arguments (grid sizes, point counts). *)
Definition clampZ (value min max : Z) : Z := Z.max min (Z.min max value).

(** [lerp(a, b, t) = a + (b - a) * t] *)
Definition lerp (a b t : Q) : Q := a + (b - a) * t.

(** ** 32-bit integer operations of JavaScript *)

Definition two32 : Z := 4294967296.
Definition ToUint32 (z : Z) : Z := (z mod two32)%Z.
Definition ToInt32 (z : Z) : Z := ((z + 2147483648) mod two32 - 2147483648)%Z.
(** [a ^ b], [a | b], [a & b], [a << n], [a >>> n], [Math.imul(a, b)] *)
Definition js_xor (a b : Z) : Z := Z.lxor (ToInt32 a) (ToInt32 b).
Definition js_or (a b : Z) : Z := Z.lor (ToInt32 a) (ToInt32 b).
Definition js_and (a b : Z) : Z := Z.land (ToInt32 a) (ToInt32 b).
Definition js_shl (a n : Z) : Z := ToInt32 (Z.shiftl (ToInt32 a) n).
Definition js_ushr (a n : Z) : Z := Z.shiftr (ToUint32 a) n.
Definition Math_imul (a b : Z) : Z := ToInt32 (ToInt32 a * ToInt32 b).

(** [hashString]: [hash = ((hash << 5) - hash) + char; hash = hash & hash],
    then [Math.abs].  Characters are taken by their code. *)
Definition hashStep (hash : Z) (c : ascii) : Z :=
  let h := (js_shl hash 5 - hash + Z.of_nat (nat_of_ascii c))%Z in
  js_and h h.

Definition hashString (str : string) : Z :=
  Z.abs (fold_left hashStep (list_ascii_of_string str) 0%Z).

(** ** config.js: the LeWitt preset *)

Record Angles := {
  edit_human : Q;
  edit_ai : Q;
  snapshot_angle : Q;
  mode_change_angle : Q;
  policy_violation_angles : list Q;
  default_angles : list Q
}.

Record Hatching := {
  angles : Angles;
  spacingMin : Q;
  spacingMax : Q;
  spacingClampMin : Q;
  spacingClampMax : Q;
  weightMin : Q;
  weightMax : Q;
  policyViolationWeightBonus : Q;
  alphaMin : Q;
  alphaMax : Q;
  cellBorderWeight : Q;
  cellBorderAlpha : Q
}.

Record Motifs := {
  radialLinesMaxCount : Z;
  radialLinesMinLength : Q;
  radialLinesMaxLength : Q;
  undoLineAlpha : Q;
  pasteLineWeightMultiplier : Q
}.

Record Config := {
  marginRatio : Q;
  maxEvents : N;
  sampling : string;
  order : string;
  minGridSize : Z;
  maxGridSize : Z;
  hatching : Hatching;
  motifs : Motifs;
  seed : Z
}.

Definition LEWITT_CONFIG : Config := {|
  marginRatio := 5 # 100;
  maxEvents := 530;
  sampling := "uniform";
  order := "time";
  minGridSize := 5;
  maxGridSize := 27;
  hatching := {|
    angles := {|
      edit_human := 45;
      edit_ai := 135;
      snapshot_angle := 0;
      mode_change_angle := 90;
      policy_violation_angles := [45; 135];
      default_angles := [0; 45; 90; 135]
    |};
    spacingMin := 4;
    spacingMax := 18;
    spacingClampMin := 3;
    spacingClampMax := 24;
    weightMin := 6 # 10;
    weightMax := 3;
    policyViolationWeightBonus := 1;
    alphaMin := 40;
    alphaMax := 200;
    cellBorderWeight := 5 # 10;
    cellBorderAlpha := 25
  |};
  motifs := {|
    radialLinesMaxCount := 12;
    radialLinesMinLength := 5 # 100;
    radialLinesMaxLength := 35 # 100;
    undoLineAlpha := 80;
    pasteLineWeightMultiplier := 25 # 10
  |};
  seed := 0
|}.

(** ** lewitt.js: grid size and hatch parameters *)

(** [calculateGridSize(eventCount, config)] *)
Definition calculateGridSize (eventCount : N) (config : Config) : Z :=
  let k := N.min eventCount (maxEvents config) in
  let n := Math_round_sqrt k in
  clampZ n (minGridSize config) (maxGridSize config).

Record HatchParams := {
  spacing : Q;
  weight : Q;
  alpha : Z
}.

(** [getHatchParams(severity)]: reads the module-level [LEWITT_CONFIG]. *)
Definition getHatchParams (severity : Q) : HatchParams :=
  let h := hatching LEWITT_CONFIG in
  {| spacing := clamp (lerp (spacingMax h) (spacingMin h) severity)
                      (spacingClampMin h) (spacingClampMax h);
     weight := lerp (weightMin h) (weightMax h) severity;
     alpha := Math_round (lerp (alphaMin h) (alphaMax h) severity) |}.

(** The stroke weight [drawPolicyViolationCell] hands to the hatcher:
    [params.weight + policyViolationWeightBonus]. *)
Definition policyViolationWeight (severity : Q) : Q :=
  weight (getHatchParams severity)
  + policyViolationWeightBonus (hatching LEWITT_CONFIG).

(** ** lewitt.js: Liang-Barsky clipping *)

(** One turn of the loop over the four half-planes: [p = p[i]],
    [q = q[i]], the interval [(t0, t1)] so far; [None] is [return null]. *)
Definition clipStep (t01 : Q * Q) (pq : Q * Q) : option (Q * Q) :=
  let '(t0, t1) := t01 in
  let '(p, q) := pq in
  if Qeqb p 0 then
    if Qltb q 0 then None else Some (t0, t1)
  else
    let t := q / p in
    if Qltb p 0 then
      if Qltb t1 t then None
      else Some (if Qltb t0 t then t else t0, t1)
    else
      if Qltb t t0 then None
      else Some (t0, if Qltb t t1 then t else t1).

Fixpoint clipLoop (t01 : Q * Q) (pqs : list (Q * Q)) : option (Q * Q) :=
  match pqs with
  | [] => Some t01
  | pq :: rest =>
      match clipStep t01 pq with
      | None => None
      | Some t01' => clipLoop t01' rest
      end
  end.

Definition Segment : Type := Q * Q * Q * Q.

(** [clipLineToRect(x1, y1, x2, y2, rx, ry, rw, rh)] *)
Definition clipLineToRect (x1 y1 x2 y2 rx ry rw rh : Q) : option Segment :=
  let dx := x2 - x1 in
  let dy := y2 - y1 in
  let p := [- dx; dx; - dy; dy] in
  let q := [x1 - rx; rx + rw - x1; y1 - ry; ry + rh - y1] in
  match clipLoop (0, 1) (combine p q) with
  | None => None
  | Some (t0, t1) =>
      Some (x1 + t0 * dx, y1 + t0 * dy, x1 + t1 * dx, y1 + t1 * dy)
  end.

(** ** lewitt.js: a line with a rectangular hole *)

Record Rect := { rect_x : Q; rect_y : Q; rect_w : Q; rect_h : Q }.

(** An entry of the [intersections] array: [{ t, x, y }]. *)
Record Hit := { hit_t : Q; hit_x : Q; hit_y : Q }.

(** [x >= rx && x <= rx2 && y >= ry && y <= ry2] *)
Definition insideRect (x y rx ry rx2 ry2 : Q) : bool :=
  Qleb rx x && Qleb x rx2 && Qleb ry y && Qleb y ry2.

(** The test against a vertical edge [x = ex], guarded by [dx !== 0]. *)
Definition hitVertical (x1 y1 dx dy ry ry2 ex : Q) : list Hit :=
  if negb (Qeqb dx 0) then
    let t := (ex - x1) / dx in
    if Qleb 0 t && Qleb t 1 then
      let y := y1 + t * dy in
      if Qleb ry y && Qleb y ry2 then [{| hit_t := t; hit_x := ex; hit_y := y |}]
      else []
    else []
  else [].

(** The test against a horizontal edge [y = ey], guarded by [dy !== 0]. *)
Definition hitHorizontal (x1 y1 dx dy rx rx2 ey : Q) : list Hit :=
  if negb (Qeqb dy 0) then
    let tFixed := (ey - y1) / dy in
    if Qleb 0 tFixed && Qleb tFixed 1 then
      let x := x1 + tFixed * dx in
      if Qleb rx x && Qleb x rx2 then [{| hit_t := tFixed; hit_x := x; hit_y := ey |}]
      else []
    else []
  else [].

(** [Array.prototype.sort] with a numeric comparator [cmp(a, b)]: the
    sort is stable, so it is the insertion of each element before the
    first element it does not exceed. *)
Section StableSort.
Context {A : Type} (cmp : A -> A -> Q).

Fixpoint sortInsert (a : A) (l : list A) : list A :=
  match l with
  | [] => [a]
  | b :: rest =>
      if Qleb (cmp a b) 0 then a :: b :: rest else b :: sortInsert a rest
  end.

Definition js_sort (l : list A) : list A := fold_right sortInsert [] l.
End StableSort.

(** The loop that removes near-duplicate parameters: [sorted[0]] opens
    [unique], and a later entry is pushed when its parameter is more than
    [0.0001] away from that of [lastKept = unique[unique.length - 1]]. *)
Fixpoint dedupFrom (lastKept : Hit) (rest : list Hit) : list Hit :=
  match rest with
  | [] => []
  | h :: rest' =>
      if Qltb (1 # 10000) (Qabs (hit_t h - hit_t lastKept))
      then h :: dedupFrom h rest'
      else dedupFrom lastKept rest'
  end.

Definition dedupHits (sorted : list Hit) : list Hit :=
  match sorted with
  | [] => []
  | h :: rest => h :: dedupFrom h rest
  end.

(** The intersections found by the four edge tests, in push order. *)
Definition holeIntersections (x1 y1 x2 y2 : Q) (rect : Rect) : list Hit :=
  let rx := rect_x rect in
  let ry := rect_y rect in
  let rx2 := rx + rect_w rect in
  let ry2 := ry + rect_h rect in
  let dx := x2 - x1 in
  let dy := y2 - y1 in
  hitVertical x1 y1 dx dy ry ry2 rx
  ++ hitVertical x1 y1 dx dy ry ry2 rx2
  ++ hitHorizontal x1 y1 dx dy rx rx2 ry
  ++ hitHorizontal x1 y1 dx dy rx rx2 ry2.

Definition holeUnique (x1 y1 x2 y2 : Q) (rect : Rect) : list Hit :=
  dedupHits (js_sort (fun a b => hit_t a - hit_t b)
                     (holeIntersections x1 y1 x2 y2 rect)).

(** [p1Inside] and [p2Inside]: an endpoint against the closed hole. *)
Definition endpointInside (x1 y1 : Q) (rect : Rect) : bool :=
  insideRect x1 y1 (rect_x rect) (rect_y rect)
             (rect_x rect + rect_w rect) (rect_y rect + rect_h rect).

(** [drawLineWithRectHole(g, x1, y1, x2, y2, rect)]: the function only
    issues [g.line] calls; the result is the list of their arguments, in
    the order of the calls. *)
Definition drawLineWithRectHole (x1 y1 x2 y2 : Q) (rect : Rect) : list Segment :=
  let p1In := endpointInside x1 y1 rect in
  let p2In := endpointInside x2 y2 rect in
  if p1In && p2In then []
  else
    match holeIntersections x1 y1 x2 y2 rect with
    | [] => [(x1, y1, x2, y2)]
    | _ :: _ =>
        match holeUnique x1 y1 x2 y2 rect with
        | [] => []
        | [touch] =>
            if p1In then [(hit_x touch, hit_y touch, x2, y2)]
            else [(x1, y1, hit_x touch, hit_y touch)]
        | enter :: second :: more =>
            let exit := last more second in
            (if negb p1In && Qltb (1 # 1000) (hit_t enter)
             then [(x1, y1, hit_x enter, hit_y enter)] else [])
            ++
            (if negb p2In && Qltb (hit_t exit) (999 # 1000)
             then [(hit_x exit, hit_y exit, x2, y2)] else [])
        end
    end.

(** ** The host's transcendental functions

    [Math.sqrt], [Math.log1p], [Math.cos], [Math.sin] and [Math.PI] are
    supplied by the JavaScript engine; the renderer is parametric in
    them. *)
Class MathLib := {
  Math_sqrt : Q -> Q;
  Math_log1p : Q -> Q;
  Math_cos : Q -> Q;
  Math_sin : Q -> Q;
  Math_PI : Q
}.

(** ** Events *)

(** A record of the log, as [JSON.parse] returns it; a missing field is
    [None]. *)
Record RawFile := { raw_path : option string; raw_lang : option string }.

Record RawDelta := {
  raw_added_chars : option Z;
  raw_deleted_chars : option Z;
  raw_added_lines : option Z;
  raw_deleted_lines : option Z
}.

Record RawFlags := {
  raw_is_paste_like : option bool;
  raw_is_undo_like : option bool;
  raw_is_redo_like : option bool
}.

Record RawEvent := {
  raw_ts : option Z;
  raw_elapsed_ms : option Z;
  raw_event : string;
  raw_origin_mode : option string;
  raw_kind : option string;
  raw_file : option RawFile;
  raw_delta : option RawDelta;
  raw_flags : option RawFlags;
  raw_detail : option string;
  raw_session_id : option string;
  raw_workspace_id : option string;
  raw_prompt : option string;
  raw_to : option string
}.

Record Delta := {
  added_chars : Z;
  deleted_chars : Z;
  added_lines : Z;
  deleted_lines : Z
}.

Record Flags := {
  is_paste_like : bool;
  is_undo_like : bool;
  is_redo_like : bool
}.

(** An event object as the preparer and the renderer read it.  The first
    block of fields is what [normalizeEvent] writes, [severity] is added
    by [parseJsonl]; [prompt] and [to_] are the own properties [prompt]
    and [to] that [prepareEvents] reads; [hasSnapshotAfter] and
    [aiPromptLength] are the annotations [prepareEvents] writes
    ([false] and [None] stand for an absent property). *)
Record Event := {
  ts : option Z;
  elapsed_ms : option Z;
  event : string;
  origin_mode : option string;
  kind : option string;
  file_path : option string;
  lang : option string;
  delta : option Delta;
  flags : option Flags;
  detail : option string;
  session_id : option string;
  workspace_id : option string;
  raw : option RawEvent;
  severity : Q;
  prompt : option string;
  to_ : option string;
  hasSnapshotAfter : bool;
  aiPromptLength : option Z
}.

(** [x || 0], [x || false], [s === 'lit'] on a possibly missing field *)
Definition orZero (x : option Z) : Z := match x with Some z => z | None => 0%Z end.
Definition orFalse (x : option bool) : bool := match x with Some b => b | None => false end.
Definition isStr (x : option string) (lit : string) : bool :=
  match x with Some s => String.eqb s lit | None => false end.

(** [event.flags || {}] followed by a flag test *)
Definition flagSet (get : Flags -> bool) (e : Event) : bool :=
  match flags e with Some f => get f | None => false end.

(** [(delta.added_chars || 0) + (delta.deleted_chars || 0)] with
    [delta = event.delta || {}] *)
Definition changedChars (e : Event) : Z :=
  match delta e with
  | Some d => (added_chars d + deleted_chars d)%Z
  | None => 0%Z
  end.

Section Severity.
Context {M : MathLib}.

(** [calculateSeverity(event)] *)
Definition calculateSeverity (e : Event) : Q :=
  if String.eqb (event e) "policy_violation" then 1
  else if String.eqb (event e) "edit" then
    if flagSet is_undo_like e then 15 # 100
    else if flagSet is_redo_like e then 25 # 100
    else if flagSet is_paste_like e then 85 # 100
    else
      let chars := changedChars e in
      let REF := 30000 in
      let normalized := Math_log1p (inject_Z chars) / Math_log1p REF in
      let severity := clamp (Math_sqrt normalized) 0 1 in
      Math_max (1 # 10) severity
  else if String.eqb (event e) "snapshot" then 2 # 10
  else if String.eqb (event e) "session_start" then 4 # 10
  else if String.eqb (event e) "session_pause" then 3 # 10
  else if String.eqb (event e) "session_resume" then 35 # 100
  else if String.eqb (event e) "mode_change" then 3 # 10
  else 5 # 10.

(** [normalizeEvent(raw)]: the object literal it returns.  It has no
    [prompt], [to], [severity], [hasSnapshotAfter] or [aiPromptLength]
    property; [severity] is filled by [parseEvent] below. *)
Definition normalizeEvent (r : RawEvent) : Event := {|
  ts := raw_ts r;
  elapsed_ms := raw_elapsed_ms r;
  event := raw_event r;
  origin_mode := raw_origin_mode r;
  kind := raw_kind r;
  file_path := match raw_file r with Some f => raw_path f | None => None end;
  lang := match raw_file r with Some f => raw_lang f | None => None end;
  delta := match raw_delta r with
           | Some d => Some {| added_chars := orZero (raw_added_chars d);
                               deleted_chars := orZero (raw_deleted_chars d);
                               added_lines := orZero (raw_added_lines d);
                               deleted_lines := orZero (raw_deleted_lines d) |}
           | None => None
           end;
  flags := match raw_flags r with
           | Some f => Some {| is_paste_like := orFalse (raw_is_paste_like f);
                               is_undo_like := orFalse (raw_is_undo_like f);
                               is_redo_like := orFalse (raw_is_redo_like f) |}
           | None => None
           end;
  detail := raw_detail r;
  session_id := raw_session_id r;
  workspace_id := raw_workspace_id r;
  raw := Some r;
  severity := 0;
  prompt := None;
  to_ := None;
  hasSnapshotAfter := false;
  aiPromptLength := None
|}.

Definition setSeverity (e : Event) (s : Q) : Event := {|
  ts := ts e; elapsed_ms := elapsed_ms e; event := event e;
  origin_mode := origin_mode e; kind := kind e; file_path := file_path e;
  lang := lang e; delta := delta e; flags := flags e; detail := detail e;
  session_id := session_id e; workspace_id := workspace_id e; raw := raw e;
  severity := s;
  prompt := prompt e; to_ := to_ e;
  hasSnapshotAfter := hasSnapshotAfter e; aiPromptLength := aiPromptLength e
|}.

(** The body of the [parseJsonl] loop for one parsed record:
    [normalized = normalizeEvent(raw);
     normalized.severity = calculateSeverity(normalized)]. *)
Definition parseEvent (r : RawEvent) : Event :=
  let normalized := normalizeEvent r in
  setSeverity normalized (calculateSeverity normalized).
End Severity.

(** ** The heap of event objects

    Event objects are shared: the arrays the preparer builds hold
    references to the objects of the caller's array.  A store is the list
    of the allocated objects, a reference is an index into it, and an
    array of events is a list of references. *)
Definition Ref : Type := nat.
Definition Store : Type := list Event.

Definition noEvent : Event := {|
  ts := None; elapsed_ms := None; event := ""; origin_mode := None;
  kind := None; file_path := None; lang := None; delta := None;
  flags := None; detail := None; session_id := None; workspace_id := None;
  raw := None; severity := 0; prompt := None; to_ := None;
  hasSnapshotAfter := false; aiPromptLength := None
|}.

Definition getE (s : Store) (r : Ref) : Event := nth r s noEvent.

Fixpoint updateE (s : Store) (r : Ref) (f : Event -> Event) : Store :=
  match s, r with
  | [], _ => []
  | e :: rest, O => f e :: rest
  | e :: rest, S r' => e :: updateE rest r' f
  end.

(** [evt.hasSnapshotAfter = true] *)
Definition markSnapshot (e : Event) : Event := {|
  ts := ts e; elapsed_ms := elapsed_ms e; event := event e;
  origin_mode := origin_mode e; kind := kind e; file_path := file_path e;
  lang := lang e; delta := delta e; flags := flags e; detail := detail e;
  session_id := session_id e; workspace_id := workspace_id e; raw := raw e;
  severity := severity e; prompt := prompt e; to_ := to_ e;
  hasSnapshotAfter := true; aiPromptLength := aiPromptLength e
|}.

(** [evt.aiPromptLength = n] *)
Definition markPrompt (n : Z) (e : Event) : Event := {|
  ts := ts e; elapsed_ms := elapsed_ms e; event := event e;
  origin_mode := origin_mode e; kind := kind e; file_path := file_path e;
  lang := lang e; delta := delta e; flags := flags e; detail := detail e;
  session_id := session_id e; workspace_id := workspace_id e; raw := raw e;
  severity := severity e; prompt := prompt e; to_ := to_ e;
  hasSnapshotAfter := hasSnapshotAfter e; aiPromptLength := Some n
|}.

(** The objects [parseJsonl] allocates for a list of parsed records, and
    the [events] array that refers to them. *)
Definition parseStore {M : MathLib} (raws : list RawEvent) : Store :=
  map parseEvent raws.
Definition parseRefs (raws : list RawEvent) : list Ref :=
  seq 0 (List.length raws).

(** ** lewitt.js: the event preparer *)

(** [(a.ts || 0)] for the object behind a reference *)
Definition tsOrZero (s : Store) (r : Ref) : Q := inject_Z (orZero (ts (getE s r))).

(** The comparator [(a, b) => (a.ts || 0) - (b.ts || 0)] *)
Definition byTime (s : Store) (a b : Ref) : Q := tsOrZero s a - tsOrZero s b.

(** The comparator [(a, b) => (b.severity || 0) - (a.severity || 0)] *)
Definition bySeverityDesc (s : Store) (a b : Ref) : Q :=
  severity (getE s b) - severity (getE s a).

Definition typeOrder : list string :=
  ["edit"; "snapshot"; "mode_change"; "policy_violation";
   "session_start"; "session_pause"; "session_resume"].

(** [array.indexOf(x)]: the first index, or [-1] *)
Fixpoint indexOf (l : list string) (x : string) : Z :=
  match l with
  | [] => (-1)%Z
  | y :: rest =>
      if String.eqb y x then 0%Z
      else let i := indexOf rest x in
           if (i <? 0)%Z then (-1)%Z else (i + 1)%Z
  end.

(** The comparator of the [type_blocks] order *)
Definition byTypeBlocks (s : Store) (a b : Ref) : Q :=
  let aIdx := indexOf typeOrder (event (getE s a)) in
  let bIdx := indexOf typeOrder (event (getE s b)) in
  if negb (aIdx =? bIdx)%Z then inject_Z (aIdx - bIdx)
  else byTime s a b.

(** The first marking loop: [sorted[i].hasSnapshotAfter = true] for an
    edit whose successor is a snapshot. *)
Fixpoint markSnapshots (s : Store) (sorted : list Ref) : Store :=
  match sorted with
  | [] => s
  | a :: rest =>
      match rest with
      | [] => s
      | b :: _ =>
          let s' :=
            if String.eqb (event (getE s a)) "edit"
               && String.eqb (event (getE s b)) "snapshot"
            then updateE s a markSnapshot
            else s in
          markSnapshots s' rest
      end
  end.

(** A string property is truthy when it is present and not empty. *)
Definition truthyStr (x : option string) : bool :=
  match x with Some p => negb (String.eqb p "") | None => false end.

(** [evt.prompt.length || 0] *)
Definition strLength (x : option string) : Z :=
  match x with Some p => Z.of_nat (String.length p) | None => 0%Z end.

(** The second marking loop, with the running [currentAiPromptLength]. *)
Fixpoint markAiPrompts (s : Store) (currentAiPromptLength : Z)
         (sorted : list Ref) : Store :=
  match sorted with
  | [] => s
  | r :: rest =>
      let evt := getE s r in
      if String.eqb (event evt) "ai_prompt" && truthyStr (prompt evt) then
        markAiPrompts s (strLength (prompt evt)) rest
      else if String.eqb (event evt) "mode_change" && isStr (to_ evt) "human" then
        markAiPrompts s 0%Z rest
      else if String.eqb (event evt) "edit" && isStr (origin_mode evt) "ai"
              && (0 <? currentAiPromptLength)%Z then
        markAiPrompts (updateE s r (markPrompt currentAiPromptLength))
                      currentAiPromptLength rest
      else
        markAiPrompts s currentAiPromptLength rest
  end.

(** [for (i = 0; i < maxEvents; i++) sampled.push(filtered[floor(i * step)])];
    the index is below [filtered.length] whenever the loop runs. *)
Definition sampleUniform (filtered : list Ref) (maxEv : N) : list Ref :=
  let step := inject_Z (Z.of_nat (List.length filtered)) / inject_Z (Z.of_N maxEv) in
  map (fun i : nat =>
         nth (Z.to_nat (Math_floor (inject_Z (Z.of_nat i) * step))) filtered 0%nat)
      (seq 0 (N.to_nat maxEv)).

(** [prepareEvents(events, config)]: the store after the two marking
    loops, and the array returned. *)
Definition prepareEvents (s : Store) (events : list Ref) (config : Config)
  : Store * list Ref :=
  let sorted := js_sort (byTime s) events in
  let s1 := markSnapshots s sorted in
  let s2 := markAiPrompts s1 0%Z sorted in
  let edits := filter (fun r => String.eqb (event (getE s2 r)) "edit") sorted in
  let filtered := match edits with [] => sorted | _ :: _ => edits end in
  let filtered :=
    if (maxEvents config <? N.of_nat (List.length filtered))%N then
      if String.eqb (sampling config) "uniform"
      then sampleUniform filtered (maxEvents config)
      else filtered
    else filtered in
  let filtered :=
    if String.eqb (order config) "time" then js_sort (byTime s2) filtered
    else if String.eqb (order config) "severity" then js_sort (bySeverityDesc s2) filtered
    else if String.eqb (order config) "type_blocks" then js_sort (byTypeBlocks s2) filtered
    else filtered in
  (s2, filtered).

(** ** The drawing surface and the render state

    The renderer never reads the surface back: a surface is the list of
    the calls made on it, in order.  The only other state of a render
    pass is the [seed] field of the generator object. *)
Inductive DrawCall : Type :=
| g_strokeCap_SQUARE
| g_noFill
| g_noStroke
| g_stroke (gray a : Q)
| g_strokeWeight (w : Q)
| g_fill (gray a : Q)
| g_fill_rgba (r g b a : Q)
| g_rect (x y w h : Q)
| g_line (x1 y1 x2 y2 : Q)
| g_ellipse (x y w h : Q).

Record RenderState := { calls : list DrawCall; rngSeed : Z }.

(** A computation either returns a value or throws; both leave a state
    behind (the calls made so far stay made). *)
Inductive Outcome (A : Type) : Type :=
| Returned (a : A) (st : RenderState)
| Thrown (st : RenderState).
Arguments Returned {A} a st.
Arguments Thrown {A} st.

Definition Draw (A : Type) : Type := RenderState -> Outcome A.

Definition ret {A} (a : A) : Draw A := fun st => Returned a st.

Definition bind {A B} (c : Draw A) (k : A -> Draw B) : Draw B :=
  fun st =>
    match c st with
    | Returned a st' => k a st'
    | Thrown st' => Thrown st'
    end.

Declare Scope draw_scope.
Delimit Scope draw_scope with draw.
Notation "x <- c ;; k" := (bind c (fun x => k))
  (at level 61, c at next level, right associativity) : draw_scope.
Notation "c ;; k" := (bind c (fun _ => k))
  (at level 61, right associativity) : draw_scope.
Local Open Scope draw_scope.

(** A call on the surface [g]. *)
Definition g_call (c : DrawCall) : Draw unit :=
  fun st => Returned tt {| calls := calls st ++ [c]; rngSeed := rngSeed st |}.

(** A [TypeError] that nothing catches. *)
Definition throwTypeError {A} : Draw A := fun st => Thrown st.

Fixpoint forEach {A} (l : list A) (body : A -> Draw unit) : Draw unit :=
  match l with
  | [] => ret tt
  | a :: rest => body a ;; forEach rest body
  end.

(** A loop that carries local variables [acc] from turn to turn. *)
Fixpoint loopWith {A S} (l : list A) (acc : S) (body : S -> A -> Draw S) : Draw S :=
  match l with
  | [] => ret acc
  | a :: rest => acc' <- body acc a ;; loopWith rest acc' body
  end.

(** [lo, lo + 1, ..., hi] *)
Definition zrange (lo hi : Z) : list Z :=
  map (fun k : nat => (lo + Z.of_nat k)%Z) (seq 0 (Z.to_nat (hi - lo + 1))).

(** ** lewitt.js: SeededRandom (Mulberry32) *)

(** [next()]: the new value of [this.seed] and the number returned. *)
Definition mulberry32 (seed0 : Z) : Z * Q :=
  let seed1 := (seed0 + 1831565813)%Z in (* 0x6D2B79F5 *)
  let t := seed1 in
  let t := Math_imul (js_xor t (js_ushr t 15)) (js_or t 1) in
  let t := js_xor t (t + Math_imul (js_xor t (js_ushr t 7)) (js_or t 61)) in
  (seed1, inject_Z (ToUint32 (js_xor t (js_ushr t 14))) / inject_Z two32).

Definition rng_next : Draw Q :=
  fun st =>
    let '(seed1, v) := mulberry32 (rngSeed st) in
    Returned v {| calls := calls st; rngSeed := seed1 |}.

(** [range(min, max)] *)
Definition rng_range (min max : Q) : Draw Q :=
  v <- rng_next ;; ret (min + v * (max - min)).

(** [int(min, max)] *)
Definition rng_int (min max : Q) : Draw Z :=
  v <- rng_range min (max + 1) ;; ret (Math_floor v).

Definition Point : Type := Q * Q.

(** The value of [getHatchAngle]: a number, the cross-hatch array, or
    [undefined] (an index outside the default array). *)
Inductive HatchAngle : Type :=
| AngleNumber (deg : Q)
| AngleArray (degs : list Q)
| AngleUndefined.

(** [getHatchAngle(event, rng)]: reads the module-level [LEWITT_CONFIG];
    the generator is not used. *)
Definition getHatchAngle (e : Event) : HatchAngle :=
  let a := angles (hatching LEWITT_CONFIG) in
  if String.eqb (event e) "edit" && isStr (origin_mode e) "human"
  then AngleNumber (edit_human a)
  else if String.eqb (event e) "edit" && isStr (origin_mode e) "ai"
  then AngleNumber (edit_ai a)
  else if String.eqb (event e) "snapshot" then AngleNumber (snapshot_angle a)
  else if String.eqb (event e) "mode_change" then AngleNumber (mode_change_angle a)
  else if String.eqb (event e) "policy_violation"
  then AngleArray (policy_violation_angles a)
  else
    let hash := hashString (event e) in
    match nth_error (default_angles a)
                    (Z.to_nat (Z.rem hash (Z.of_nat (List.length (default_angles a))))) with
    | Some d => AngleNumber d
    | None => AngleUndefined
    end.

Section Renderer.
Context {M : MathLib}.

(** [drawHatchLines(g, cellX, cellY, cellW, cellH, angleDeg, spacing,
    weight, alpha, scale, eraseRatio)] *)
Definition drawHatchLines (cellX cellY cellW cellH angleDeg spacing weight alpha
                           scale eraseRatio : Q) : Draw unit :=
  let angleRad := (angleDeg * Math_PI) / 180 in
  let cos := Math_cos angleRad in
  let sin := Math_sin angleRad in
  let scaledSpacing := spacing * scale in
  let scaledWeight := Math_max (1 # 2) (weight * scale) in
  g_call (g_stroke 0 alpha) ;;
  g_call (g_strokeWeight scaledWeight) ;;
  let diag := Math_sqrt (cellW * cellW + cellH * cellH) in
  let centerX := cellX + cellW / 2 in
  let centerY := cellY + cellH / 2 in
  let eraseW := cellW * eraseRatio in
  let eraseH := cellH * eraseRatio in
  let eraseRect :=
    if Qltb 0 eraseRatio
    then Some {| rect_x := centerX - eraseW / 2; rect_y := centerY - eraseH / 2;
                 rect_w := eraseW; rect_h := eraseH |}
    else None in
  let numLines := (Math_ceil (diag / scaledSpacing) + 2)%Z in
  forEach (zrange (- numLines) numLines) (fun i =>
    let offsetX := - sin * inject_Z i * scaledSpacing in
    let offsetY := cos * inject_Z i * scaledSpacing in
    let x1 := centerX + offsetX - cos * diag in
    let y1 := centerY + offsetY - sin * diag in
    let x2 := centerX + offsetX + cos * diag in
    let y2 := centerY + offsetY + sin * diag in
    match clipLineToRect x1 y1 x2 y2 cellX cellY cellW cellH with
    | Some (c0, c1, c2, c3) =>
        match eraseRect with
        | Some rect =>
            forEach (drawLineWithRectHole c0 c1 c2 c3 rect)
                    (fun '(a, b, c, d) => g_call (g_line a b c d))
        | None => g_call (g_line c0 c1 c2 c3)
        end
    | None => ret tt
    end).

(** [getRayBoundaryIntersection(centerX, centerY, angle, cellX, cellY,
    cellW, cellH)] *)
Definition getRayBoundaryIntersection (centerX centerY angle cellX cellY cellW cellH : Q)
  : option Point :=
  let cos := Math_cos angle in
  let sin := Math_sin angle in
  let maxDist := Math_sqrt (cellW * cellW + cellH * cellH) in
  let x2 := centerX + cos * maxDist in
  let y2 := centerY + sin * maxDist in
  match clipLineToRect centerX centerY x2 y2 cellX cellY cellW cellH with
  | Some (_, _, c2, c3) => Some (c2, c3)
  | None => None
  end.

(** [collectBoundaryPoints(cellX, cellY, cellW, cellH, count, rng)] *)
Definition collectBoundaryPoints (cellX cellY cellW cellH : Q) (count : Z)
  : Draw (list Point) :=
  let centerX := cellX + cellW / 2 in
  let centerY := cellY + cellH / 2 in
  loopWith (seq 0 (Z.to_nat count)) [] (fun points _ =>
    angle <- rng_range 0 (Math_PI * 2) ;;
    match getRayBoundaryIntersection centerX centerY angle cellX cellY cellW cellH with
    | Some intersection => ret (points ++ [intersection])
    | None => ret points
    end).

(** [drawPointSymmetricLines(g, cellX, cellY, cellW, cellH, count, rng, scale)] *)
Definition drawPointSymmetricLines (cellX cellY cellW cellH : Q) (count : Z) (scale : Q)
  : Draw unit :=
  let centerX := cellX + cellW / 2 in
  let centerY := cellY + cellH / 2 in
  points <- collectBoundaryPoints cellX cellY cellW cellH count ;;
  g_call (g_stroke 0 150) ;;
  g_call (g_strokeWeight (Math_max (1 # 2) ((12 # 10) * scale))) ;;
  forEach points (fun '(px, py) =>
    let symX := 2 * centerX - px in
    let symY := 2 * centerY - py in
    match clipLineToRect px py symX symY cellX cellY cellW cellH with
    | Some (c0, c1, c2, c3) => g_call (g_line c0 c1 c2 c3)
    | None => ret tt
    end) ;;
  g_call (g_fill 0 200) ;;
  g_call g_noStroke ;;
  let pointSize := Math_max 2 (4 * scale) in
  forEach points (fun '(px, py) => g_call (g_ellipse px py pointSize pointSize)).

(** [drawPolicyViolationCell(g, cellX, cellY, cellW, cellH, severity, scale)] *)
Definition drawPolicyViolationCell (cellX cellY cellW cellH severity scale : Q)
  : Draw unit :=
  let params := getHatchParams severity in
  let angles := policy_violation_angles (angles (hatching LEWITT_CONFIG)) in
  g_call g_noStroke ;;
  g_call (g_fill_rgba 255 0 0 20) ;;
  g_call (g_rect cellX cellY cellW cellH) ;;
  let weight := policyViolationWeight severity in
  forEach angles (fun angle =>
    drawHatchLines cellX cellY cellW cellH angle (spacing params) weight
                   (inject_Z (alpha params)) scale 0).
End Renderer.

(** Reading a property of [null] throws a [TypeError]; [console.log]
    does not touch the drawing surface. *)
Definition readProp {A} (obj : option Event) (get : Event -> A) : Draw A :=
  match obj with
  | None => throwTypeError
  | Some e => ret (get e)
  end.

Definition console_log {A} (_ : A) : Draw unit := ret tt.

(** What [drawLeWittGrid] returns. *)
Record RenderInfo := {
  info_seed : Z;
  info_gridSize : Z;
  info_eventCount : nat;
  info_cellWidth : Q;
  info_cellHeight : Q;
  info_boundaryPointCount : nat
}.

Section Grid.
Context {M : MathLib}.

(** The border weight and alpha of [drawCell], boosted when
    [event && event.aiPromptLength > 0]. *)
Definition cellBorder (ev : option Event) (scale : Q) : Q * Q :=
  let h := hatching LEWITT_CONFIG in
  let borderWeight := Math_max (1 # 2) (cellBorderWeight h * scale) in
  let borderAlpha := cellBorderAlpha h in
  match ev with
  | Some e =>
      match aiPromptLength e with
      | Some len =>
          if (0 <? len)%Z then
            let promptRatio :=
              clamp (Math_log1p (inject_Z len) / Math_log1p 1000) 0 1 in
            (Math_max 2 (lerp 3 10 promptRatio * scale),
             inject_Z (Math_round (lerp 150 255 promptRatio)))
          else (borderWeight, borderAlpha)
      | None => (borderWeight, borderAlpha)
      end
  | None => (borderWeight, borderAlpha)
  end.

(** The erase ratio of [drawCell], from [event.delta.deleted_chars]. *)
Definition cellEraseRatio (e : Event) : Q :=
  match delta e with
  | Some d =>
      if (0 <? deleted_chars d)%Z
      then clamp (Math_log1p (inject_Z (deleted_chars d)) / Math_log1p 3000) 0 1
           * (8 # 10)
      else 0
  | None => 0
  end.

(** [drawCell(g, event, cellX, cellY, cellW, cellH, rng, scale,
    collectPoints)]; [event] is [None] for [null]. *)
Definition drawCell (ev : option Event) (cellX cellY cellW cellH scale : Q)
           (collectPoints : bool) : Draw (list Point) :=
  let '(borderWeight, borderAlpha) := cellBorder ev scale in
  logged <- readProp ev aiPromptLength ;;
  console_log logged ;;
  g_call (g_stroke 0 borderAlpha) ;;
  g_call (g_strokeWeight borderWeight) ;;
  g_call g_noFill ;;
  g_call (g_rect cellX cellY cellW cellH) ;;
  match ev with
  | None => ret []
  | Some e =>
      if String.eqb (event e) "policy_violation" then
        drawPolicyViolationCell cellX cellY cellW cellH (severity e) scale ;;
        ret []
      else
        let angle := getHatchAngle e in
        let params := getHatchParams (severity e) in
        let eraseRatio := cellEraseRatio e in
        match angle with
        | AngleNumber a =>
            drawHatchLines cellX cellY cellW cellH a (spacing params)
                           (weight params) (inject_Z (alpha params)) scale eraseRatio
        | _ => ret tt
        end ;;
        if String.eqb (event e) "edit" then
          match delta e with
          | Some d =>
              let totalChange := (added_chars d + deleted_chars d)%Z in
              if (0 <? totalChange)%Z then
                let count :=
                  clampZ (Math_round (Math_log1p (inject_Z totalChange) / (16 # 10)))
                         0 (radialLinesMaxCount (motifs LEWITT_CONFIG)) in
                if (0 <? count)%Z then
                  if collectPoints
                  then collectBoundaryPoints cellX cellY cellW cellH count
                  else drawPointSymmetricLines cellX cellY cellW cellH count scale ;;
                       ret []
                else ret []
              else ret []
          | None => ret []
          end
        else ret []
  end.

(** [drawPoints(g, points, size, alpha, scale)] *)
Definition drawPoints (points : list Point) (size a scale : Q) : Draw unit :=
  g_call (g_fill 0 a) ;;
  g_call g_noStroke ;;
  let scaledSize := Math_max 2 (size * scale) in
  forEach points (fun '(px, py) => g_call (g_ellipse px py scaledSize scaledSize)).

(** The [distances] array of [connectNearestNeighbor] for point [i]:
    [{ index: j, dist }] for every [j] other than [i]. *)
Definition neighbourDistances (points : list Point) (i : nat) : list (nat * Q) :=
  let '(cx, cy) := nth i points (0, 0) in
  flat_map (fun j =>
              if Nat.eqb i j then []
              else let '(px, py) := nth j points (0, 0) in
                   [(j, Math_sqrt ((px - cx) * (px - cx) + (py - cy) * (py - cy)))])
           (seq 0 (List.length points)).

(** [connectNearestNeighbor(g, points, weight, alpha, scale)]; the set
    [drawn] holds the edges by their ordered index pair. *)
Definition connectNearestNeighbor (points : list Point) (weight a scale : Q)
  : Draw unit :=
  if (List.length points <? 2)%nat then ret tt
  else
    g_call (g_stroke 0 a) ;;
    g_call (g_strokeWeight (Math_max (1 # 2) (weight * scale))) ;;
    loopWith (seq 0 (List.length points)) [] (fun drawn i =>
      let '(cx, cy) := nth i points (0, 0) in
      let distances := js_sort (fun a b => snd a - snd b) (neighbourDistances points i) in
      let nearest := firstn 2 distances in
      loopWith nearest drawn (fun drawn neighbor =>
        let minIdx := Nat.min i (fst neighbor) in
        let maxIdx := Nat.max i (fst neighbor) in
        if existsb (fun k => Nat.eqb (fst k) minIdx && Nat.eqb (snd k) maxIdx) drawn
        then ret drawn
        else
          let '(nx, ny) := nth (fst neighbor) points (0, 0) in
          g_call (g_line cx cy nx ny) ;;
          ret ((minIdx, maxIdx) :: drawn))) ;;
    ret tt.

(** The column of the cell drawn at turn [colIdx] of row [row]:
    [isEvenRow ? colIdx : (gridSize - 1 - colIdx)]. *)
Definition cellColumn (gridSize : Z) (row colIdx : nat) : Z :=
  if Nat.even row then Z.of_nat colIdx else (gridSize - 1 - Z.of_nat colIdx)%Z.

(** [eventIdx < preparedEvents.length ? preparedEvents[eventIdx] : null],
    with the object read from the store. *)
Definition eventAt (s : Store) (preparedEvents : list Ref) (eventIdx : nat)
  : option Event :=
  match nth_error preparedEvents eventIdx with
  | Some r => Some (getE s r)
  | None => None
  end.

(** The body of the inner loop of [drawLeWittGrid] at row [row] and
    turn [colIdx]; the local variables carried from turn to turn are
    [eventIdx] and [allBoundaryPoints]. *)
Definition cellTurn (s : Store) (preparedEvents : list Ref) (gridSize : Z)
           (margin cellW cellH scale : Q) (row : nat)
           (acc : nat * list Point) (colIdx : nat) : Draw (nat * list Point) :=
  let '(eventIdx, allBoundaryPoints) := acc in
  let col := cellColumn gridSize row colIdx in
  let cellX := margin + inject_Z col * cellW in
  let cellY := margin + inject_Z (Z.of_nat row) * cellH in
  let ev := eventAt s preparedEvents eventIdx in
  cellPoints <- drawCell ev cellX cellY cellW cellH scale true ;;
  ret (S eventIdx,
       if (0 <? List.length cellPoints)%nat
       then allBoundaryPoints ++ cellPoints
       else allBoundaryPoints).

(** The two nested loops of [drawLeWittGrid]. *)
Definition drawCells (s : Store) (preparedEvents : list Ref) (gridSize : Z)
           (margin cellW cellH scale : Q) : Draw (nat * list Point) :=
  loopWith (seq 0 (Z.to_nat gridSize)) (0%nat, []) (fun acc row =>
    loopWith (seq 0 (Z.to_nat gridSize)) acc
             (cellTurn s preparedEvents gridSize margin cellW cellH scale row)).

(** The part of [drawLeWittGrid] after [prepareEvents]. *)
Definition drawPrepared (seed : Z) (s : Store) (preparedEvents : list Ref)
           (canvasWidth canvasHeight : Q) (config : Config) (scale : Q)
  : Draw RenderInfo :=
  let gridSize := calculateGridSize (N.of_nat (List.length preparedEvents)) config in
  let margin := canvasWidth * marginRatio config in
  let drawWidth := canvasWidth - 2 * margin in
  let drawHeight := canvasHeight - 2 * margin in
  let cellW := drawWidth / inject_Z gridSize in
  let cellH := drawHeight / inject_Z gridSize in
  g_call g_strokeCap_SQUARE ;;
  g_call g_noFill ;;
  acc <- drawCells s preparedEvents gridSize margin cellW cellH scale ;;
  let allBoundaryPoints := snd acc in
  (if (0 <? List.length allBoundaryPoints)%nat then
     drawPoints allBoundaryPoints 4 200 scale ;;
     connectNearestNeighbor allBoundaryPoints (12 # 10) 150 scale
   else ret tt) ;;
  ret {| info_seed := seed;
         info_gridSize := gridSize;
         info_eventCount := List.length preparedEvents;
         info_cellWidth := cellW;
         info_cellHeight := cellH;
         info_boundaryPointCount := List.length allBoundaryPoints |}.

(** The outcome of a render pass: the event store it leaves, the calls
    made on the surface, and the value returned ([None] when the pass
    threw). *)
Record RenderResult := {
  storeAfter : Store;
  surfaceCalls : list DrawCall;
  returned : option RenderInfo
}.

(** [drawLeWittGrid(g, events, canvasWidth, canvasHeight, config, scale,
    usePointConnectionMode)] on a fresh surface.  [now] is what
    [Date.now()] returns at the call; the last parameter is not read by
    the body. *)
Definition drawLeWittGrid (now : Z) (s : Store) (events : list Ref)
           (canvasWidth canvasHeight : Q) (config : Config) (scale : Q)
           (usePointConnectionMode : bool) : RenderResult :=
  let seed := if (seed config =? 0)%Z then now else seed config in
  let '(s', preparedEvents) := prepareEvents s events config in
  match drawPrepared seed s' preparedEvents canvasWidth canvasHeight config scale
                     {| calls := []; rngSeed := seed |} with
  | Returned info st =>
      {| storeAfter := s'; surfaceCalls := calls st; returned := Some info |}
  | Thrown st =>
      {| storeAfter := s'; surfaceCalls := calls st; returned := None |}
  end.
End Grid.

(** * Vocabulary of the statements *)

(** ** Geometry *)

(** The closed rectangle with corner [(rx, ry)], width [rw], height [rh]. *)
Definition inRect (rx ry rw rh : Q) (x y : Q) : Prop :=
  rx <= x /\ x <= rx + rw /\ ry <= y /\ y <= ry + rh.

(** The half-plane constraint [p * t <= q] of the clipping loop. *)
Definition feasible (pq : Q * Q) (t : Q) : Prop := fst pq * t <= snd pq.

(** A segment with its coordinates as reduced fractions. *)
Definition reduced (seg : Segment) : Segment :=
  let '(a, b, c, d) := seg in (Qred a, Qred b, Qred c, Qred d).

(** ** Event objects up to their annotations *)

(** An event with its two annotations removed. *)
Definition stripAnnotations (e : Event) : Event := {|
  ts := ts e; elapsed_ms := elapsed_ms e; event := event e;
  origin_mode := origin_mode e; kind := kind e; file_path := file_path e;
  lang := lang e; delta := delta e; flags := flags e; detail := detail e;
  session_id := session_id e; workspace_id := workspace_id e; raw := raw e;
  severity := severity e; prompt := prompt e; to_ := to_ e;
  hasSnapshotAfter := false; aiPromptLength := None
|}.

(** Two stores hold the same objects up to annotations. *)
Definition sameObjects (s t : Store) : Prop :=
  List.length s = List.length t
  /\ forall r, stripAnnotations (getE s r) = stripAnnotations (getE t r).

(** Whether the first marking loop marks the object [r]. *)
Fixpoint snapshotMarked (s : Store) (sorted : list Ref) (r : Ref) : bool :=
  match sorted with
  | [] => false
  | a :: rest =>
      match rest with
      | [] => false
      | b :: _ =>
          (Nat.eqb a r
           && String.eqb (event (getE s a)) "edit"
           && String.eqb (event (getE s b)) "snapshot")
          || snapshotMarked s rest r
      end
  end.

(** The last prompt length the second marking loop writes on the object
    [r], if it writes one. *)
Fixpoint promptMarked (s : Store) (current : Z) (sorted : list Ref) (r : Ref)
  : option Z :=
  match sorted with
  | [] => None
  | a :: rest =>
      let evt := getE s a in
      if String.eqb (event evt) "ai_prompt" && truthyStr (prompt evt) then
        promptMarked s (strLength (prompt evt)) rest r
      else if String.eqb (event evt) "mode_change" && isStr (to_ evt) "human" then
        promptMarked s 0%Z rest r
      else if String.eqb (event evt) "edit" && isStr (origin_mode evt) "ai"
              && (0 <? current)%Z then
        match promptMarked s current rest r with
        | Some n => Some n
        | None => if Nat.eqb a r then Some current else None
        end
      else promptMarked s current rest r
  end.

(** The two marking loops, one after the other. *)
Definition markPass (s : Store) (sorted : list Ref) : Store :=
  markAiPrompts (markSnapshots s sorted) 0%Z sorted.

(** The array [prepareEvents] returns, read off the marked store and the
    time-sorted array: filter, sample, order. *)
Definition preparedArray (s2 : Store) (sorted : list Ref) (config : Config)
  : list Ref :=
  let edits := filter (fun r => String.eqb (event (getE s2 r)) "edit") sorted in
  let filtered := match edits with [] => sorted | _ :: _ => edits end in
  let filtered :=
    if (maxEvents config <? N.of_nat (List.length filtered))%N then
      if String.eqb (sampling config) "uniform"
      then sampleUniform filtered (maxEvents config)
      else filtered
    else filtered in
  if String.eqb (order config) "time" then js_sort (byTime s2) filtered
  else if String.eqb (order config) "severity" then js_sort (bySeverityDesc s2) filtered
  else if String.eqb (order config) "type_blocks" then js_sort (byTypeBlocks s2) filtered
  else filtered.

(** ** The order of the cells *)

(** The cells in the order the two loops reach them: [(row, col)]. *)
Definition cellOrder (gridSize : Z) : list (nat * Z) :=
  flat_map (fun row =>
              map (fun colIdx => (row, cellColumn gridSize row colIdx))
                  (seq 0 (Z.to_nat gridSize)))
           (seq 0 (Z.to_nat gridSize)).

(** What is done at the cell [(row, col)] reached as the [k]-th:
    [drawCell] on the [k]-th prepared event. *)
Definition visitCell {M : MathLib} (s : Store) (preparedEvents : list Ref)
           (margin cellW cellH scale : Q) (allBoundaryPoints : list Point)
           (visit : (nat * Z) * nat) : Draw (list Point) :=
  let '((row, col), k) := visit in
  cellPoints <- drawCell (eventAt s preparedEvents k)
                         (margin + inject_Z col * cellW)
                         (margin + inject_Z (Z.of_nat row) * cellH)
                         cellW cellH scale true ;;
  ret (if (0 <? List.length cellPoints)%nat
       then allBoundaryPoints ++ cellPoints
       else allBoundaryPoints).

(** An outcome of the walk over the cells with the event counter put
    back. *)
Definition withCounter (j : nat) (o : Outcome (list Point))
  : Outcome (nat * list Point) :=
  match o with
  | Returned points st => Returned (j, points) st
  | Thrown st => Thrown st
  end.

(** A computation that returns from every state. *)
Definition returns {A} (c : Draw A) : Prop :=
  forall st, exists a st', c st = Returned a st'.

(** ** Concrete inputs *)

(** A rational stand-in for the host functions: truncated series and an
    integer square root on a fixed-point scale. *)
Definition rationalMath : MathLib := {|
  Math_sqrt := fun x => inject_Z (Z.sqrt (Qfloor (x * 1000000000000))) / 1000000;
  Math_log1p := fun x =>
    let z := x / (2 + x) in
    2 * (z + z * z * z / 3 + z * z * z * z * z / 5);
  Math_cos := fun x => 1 - x * x / 2 + x * x * x * x / 24;
  Math_sin := fun x => x - x * x * x / 6 + x * x * x * x * x / 120;
  Math_PI := 355 # 113
|}.

(** [{ ts, event: "edit", origin_mode, delta: { added_chars: 12 } }] *)
Definition rawEdit (t : Z) (mode : string) : RawEvent := {|
  raw_ts := Some t; raw_elapsed_ms := None; raw_event := "edit";
  raw_origin_mode := Some mode; raw_kind := None; raw_file := None;
  raw_delta := Some {| raw_added_chars := Some 12%Z; raw_deleted_chars := None;
                       raw_added_lines := None; raw_deleted_lines := None |};
  raw_flags := None; raw_detail := None; raw_session_id := None;
  raw_workspace_id := None; raw_prompt := None; raw_to := None
|}.

(** [{ ts, event, prompt }] *)
Definition rawOther (t : Z) (k : string) (p : option string) : RawEvent := {|
  raw_ts := Some t; raw_elapsed_ms := None; raw_event := k;
  raw_origin_mode := None; raw_kind := None; raw_file := None;
  raw_delta := None; raw_flags := None; raw_detail := None;
  raw_session_id := None; raw_workspace_id := None;
  raw_prompt := p; raw_to := None
|}.

(** [{ ts, event: "mode_change", to }] *)
Definition rawModeChange (t : Z) (target : string) : RawEvent := {|
  raw_ts := Some t; raw_elapsed_ms := None; raw_event := "mode_change";
  raw_origin_mode := None; raw_kind := None; raw_file := None;
  raw_delta := None; raw_flags := None; raw_detail := None;
  raw_session_id := None; raw_workspace_id := None;
  raw_prompt := None; raw_to := Some target
|}.

(** [{ event: "edit", flags, delta: { added_chars, deleted_chars } }] *)
Definition rawFlaggedEdit (f : option RawFlags) (added deleted : Z) : RawEvent := {|
  raw_ts := Some 1%Z; raw_elapsed_ms := None; raw_event := "edit";
  raw_origin_mode := Some "human"; raw_kind := None; raw_file := None;
  raw_delta := Some {| raw_added_chars := Some added;
                       raw_deleted_chars := Some deleted;
                       raw_added_lines := None; raw_deleted_lines := None |};
  raw_flags := f; raw_detail := None; raw_session_id := None;
  raw_workspace_id := None; raw_prompt := None; raw_to := None
|}.

(** A log: a prompt, two AI edits, a switch to human, one more AI edit. *)
Definition promptLog : list RawEvent :=
  [ rawOther 1 "ai_prompt" (Some "hello");
    rawEdit 2 "ai";
    rawEdit 3 "ai";
    rawModeChange 4 "human";
    rawEdit 5 "ai" ].

(** An event object that also carries the own properties [prompt] and
    [to] of its log record. *)
Definition withPromptAndTo (p t : option string) (e : Event) : Event := {|
  ts := ts e; elapsed_ms := elapsed_ms e; event := event e;
  origin_mode := origin_mode e; kind := kind e; file_path := file_path e;
  lang := lang e; delta := delta e; flags := flags e; detail := detail e;
  session_id := session_id e; workspace_id := workspace_id e; raw := raw e;
  severity := severity e; prompt := p; to_ := t;
  hasSnapshotAfter := hasSnapshotAfter e; aiPromptLength := aiPromptLength e
|}.

(** The preset with the seed and the smallest grid size set, as a caller
    that wants a reproducible drawing passes it. *)
Definition seededConfig (seedValue minGrid : Z) : Config := {|
  marginRatio := marginRatio LEWITT_CONFIG;
  maxEvents := maxEvents LEWITT_CONFIG;
  sampling := sampling LEWITT_CONFIG;
  order := order LEWITT_CONFIG;
  minGridSize := minGrid;
  maxGridSize := maxGridSize LEWITT_CONFIG;
  hatching := hatching LEWITT_CONFIG;
  motifs := motifs LEWITT_CONFIG;
  seed := seedValue
|}.

(** ** Vocabulary for the helpers, the generator and the preparation *)

(** The polynomial [s[0] * 31^(n-1) + ... + s[n-1]] in unbounded
    integers, from the accumulator [h]. *)
Definition polynomialHash (h : Z) (l : list ascii) : Z :=
  fold_left (fun acc c => (31 * acc + Z.of_nat (nat_of_ascii c))%Z) l h.

(** The position [Math.floor(i * step)] that [sampleUniform] reads at
    turn [i]. *)
Definition samplePosition (len : nat) (maxEv : N) (i : nat) : nat :=
  Z.to_nat (Math_floor (inject_Z (Z.of_nat i)
                        * (inject_Z (Z.of_nat len) / inject_Z (Z.of_N maxEv)))).

Definition isEditIn (s : Store) (r : Ref) : bool := String.eqb (event (getE s r)) "edit".

(** The orders of the three modes, read on the store [s]. *)
Definition timeOrdered (s : Store) (a b : Ref) : Prop := tsOrZero s a <= tsOrZero s b.
Definition severityOrdered (s : Store) (a b : Ref) : Prop :=
  severity (getE s b) <= severity (getE s a).
Definition typeBlockOrdered (s : Store) (a b : Ref) : Prop :=
  let aIdx := indexOf typeOrder (event (getE s a)) in
  let bIdx := indexOf typeOrder (event (getE s b)) in
  (aIdx < bIdx)%Z \/ (aIdx = bIdx /\ tsOrZero s a <= tsOrZero s b).

(** The array after filtering and sampling, before the last sort. *)
Definition selected (s2 : Store) (sorted : list Ref) (config : Config) : list Ref :=
  let edits := filter (isEditIn s2) sorted in
  let filtered := match edits with [] => sorted | _ :: _ => edits end in
  if (maxEvents config <? N.of_nat (List.length filtered))%N then
    if String.eqb (sampling config) "uniform"
    then sampleUniform filtered (maxEvents config)
    else filtered
  else filtered.

(** ** Vocabulary for the drawing of a cell *)

(** A line with both ends in the closed cell. *)
Definition isLineIn (cellX cellY cellW cellH : Q) (c : DrawCall) : Prop :=
  match c with
  | g_line a b c d => inRect cellX cellY cellW cellH a b /\ inRect cellX cellY cellW cellH c d
  | _ => False
  end.

(** The state after [steps] numbers were drawn from the generator and
    the calls [added] were made. *)
Definition advance (st : RenderState) (added : list DrawCall) (steps : nat) : RenderState :=
  {| calls := calls st ++ added;
     rngSeed := (rngSeed st + 1831565813 * Z.of_nat steps)%Z |}.

(** ** Vocabulary for the connection of points *)

(** The line [connectNearestNeighbor] draws for the edge from point
    [i] to point [j], and the key [min-max] under which it records it. *)
Definition edgeLine (points : list Point) (edge : nat * nat) : DrawCall :=
  let '(cx, cy) := nth (fst edge) points (0, 0) in
  let '(nx, ny) := nth (snd edge) points (0, 0) in
  g_line cx cy nx ny.

Definition edgeKey (edge : nat * nat) : nat * nat :=
  (Nat.min (fst edge) (snd edge), Nat.max (fst edge) (snd edge)).

(** The distance [connectNearestNeighbor] computes from point [i] to
    point [j]. *)
Definition pointDistance {M : MathLib} (points : list Point) (i j : nat) : Q :=
  let '(cx, cy) := nth i points (0, 0) in
  let '(px, py) := nth j points (0, 0) in
  Math_sqrt ((px - cx) * (px - cx) + (py - cy) * (py - cy)).

(** ** lewitt.js: the motif marks *)

Section Motifs.
Context {M : MathLib}.

(** [drawRadialLines(g, cellX, cellY, cellW, cellH, count, rng, scale)] *)
Definition drawRadialLines (cellX cellY cellW cellH : Q) (count : Z) (scale : Q)
  : Draw unit :=
  let m := motifs LEWITT_CONFIG in
  let centerX := cellX + cellW / 2 in
  let centerY := cellY + cellH / 2 in
  let cellSize := Math_min cellW cellH in
  g_call (g_stroke 0 120) ;;
  g_call (g_strokeWeight (Math_max (1 # 2) ((12 # 10) * scale))) ;;
  forEach (seq 0 (Z.to_nat count)) (fun _ =>
    angle <- rng_range 0 (Math_PI * 2) ;;
    lengthRatio <- rng_range (radialLinesMinLength m) (radialLinesMaxLength m) ;;
    let length := cellSize * lengthRatio in
    let x2 := centerX + Math_cos angle * length in
    let y2 := centerY + Math_sin angle * length in
    match clipLineToRect centerX centerY x2 y2 cellX cellY cellW cellH with
    | Some (c0, c1, c2, c3) => g_call (g_line c0 c1 c2 c3)
    | None => ret tt
    end).

(** [drawAiPromptMark(g, cellX, cellY, cellW, cellH, scale)] *)
Definition drawAiPromptMark (cellX cellY cellW cellH scale : Q) : Draw unit :=
  let centerY := cellY + cellH / 2 in
  g_call (g_stroke 0 200) ;;
  g_call (g_strokeWeight (Math_max 1 (2 * scale))) ;;
  g_call (g_line cellX centerY (cellX + cellW) centerY).

(** [drawUndoMark(g, cellX, cellY, cellW, cellH, hatchAngle, scale)],
    for a hatch angle that is a number. *)
Definition drawUndoMark (cellX cellY cellW cellH hatchAngle scale : Q) : Draw unit :=
  let m := motifs LEWITT_CONFIG in
  let perpAngle := hatchAngle + 90 in
  let centerX := cellX + cellW / 2 in
  let centerY := cellY + cellH / 2 in
  let length := Math_min cellW cellH * (6 # 10) in
  let angleRad := (perpAngle * Math_PI) / 180 in
  let dx := Math_cos angleRad * length / 2 in
  let dy := Math_sin angleRad * length / 2 in
  g_call (g_stroke 0 (undoLineAlpha m)) ;;
  g_call (g_strokeWeight (Math_max (1 # 2) ((15 # 10) * scale))) ;;
  match clipLineToRect (centerX - dx) (centerY - dy) (centerX + dx) (centerY + dy)
                       cellX cellY cellW cellH with
  | Some (c0, c1, c2, c3) => g_call (g_line c0 c1 c2 c3)
  | None => ret tt
  end.

(** [drawPasteMark(g, cellX, cellY, cellW, cellH, hatchAngle, weight,
    scale)], for a hatch angle that is a number. *)
Definition drawPasteMark (cellX cellY cellW cellH hatchAngle weight scale : Q)
  : Draw unit :=
  let m := motifs LEWITT_CONFIG in
  let centerX := cellX + cellW / 2 in
  let centerY := cellY + cellH / 2 in
  let length := Math_min cellW cellH * (7 # 10) in
  let angleRad := (hatchAngle * Math_PI) / 180 in
  let dx := Math_cos angleRad * length / 2 in
  let dy := Math_sin angleRad * length / 2 in
  g_call (g_stroke 0 180) ;;
  g_call (g_strokeWeight (Math_max 1 (weight * pasteLineWeightMultiplier m * scale))) ;;
  match clipLineToRect (centerX - dx) (centerY - dy) (centerX + dx) (centerY + dy)
                       cellX cellY cellW cellH with
  | Some (c0, c1, c2, c3) => g_call (g_line c0 c1 c2 c3)
  | None => ret tt
  end.
End Motifs.

From Stdlib Require Import DecimalString.

(** ** The merge tool

    A log entry as the merge tool reads it: the properties it looks at,
    and the others, which it carries along.  [ts] and [elapsed_ms] are
    integers (milliseconds). *)
Record LogEntry := {
  entry_ts : Z;
  entry_session_id : option string;
  entry_event : option string;
  entry_elapsed_ms : Z;
  entry_original_elapsed_ms : option Z;
  entry_merged_at : option string;
  entry_other : list (string * string)
}.

(** A string property in a template literal: [undefined] prints as
    itself. *)
Definition printed (x : option string) : string :=
  match x with Some v => v | None => "undefined" end.

(** [`${entry.ts}_${entry.session_id}_${entry.event}`] *)
Definition entryKey (entry : LogEntry) : string :=
  NilZero.string_of_int (Z.to_int (entry_ts entry))
  ++ "_" ++ printed (entry_session_id entry)
  ++ "_" ++ printed (entry_event entry).

(** A [Map] with string keys, in insertion order: [has] and [set]
    (which keeps the place of a key that is present). *)
Definition mapHas {V} (key : string) (m : list (string * V)) : bool :=
  existsb (fun kv => String.eqb (fst kv) key) m.

Fixpoint mapSet {V} (key : string) (v : V) (m : list (string * V)) : list (string * V) :=
  match m with
  | [] => [(key, v)]
  | (k, v0) :: rest =>
      if String.eqb k key then (k, v) :: rest else (k, v0) :: mapSet key v rest
  end.

(** The body of the loop of [deduplicateEntries]. *)
Definition dedupTurn (seen : list (string * LogEntry)) (entry : LogEntry)
  : list (string * LogEntry) :=
  let key := entryKey entry in
  if negb (mapHas key seen) || negb (truthyStr (entry_merged_at entry))
  then mapSet key entry seen
  else seen.

(** [deduplicateEntries(entries)] *)
Definition deduplicateEntries (entries : list LogEntry) : list LogEntry :=
  map snd (fold_left dedupTurn entries []).

(** The entry that stands for the key [key] among [entries]: the last
    entry with that key that has no [merged_at], and the first entry
    with that key when all have one. *)
Definition keyWinner (key : string) (entries : list LogEntry) : option LogEntry :=
  match filter (fun e => String.eqb (entryKey e) key) entries with
  | [] => None
  | first :: others =>
      Some (last (filter (fun e => negb (truthyStr (entry_merged_at e))) (first :: others))
                 first)
  end.

(** [(a, b) => a.ts - b.ts] and [sortByTimestamp(entries)] *)
Definition byTs (a b : LogEntry) : Q := inject_Z (entry_ts a) - inject_Z (entry_ts b).

Definition sortByTimestamp (entries : list LogEntry) : list LogEntry :=
  js_sort byTs entries.

(** [getOriginalElapsedMs(entry, sessionStartTs)] *)
Definition getOriginalElapsedMs (entry : LogEntry) (sessionStartTs : Z) : Z :=
  match entry_original_elapsed_ms entry with
  | Some original => original
  | None => (entry_ts entry - sessionStartTs)%Z
  end.

(** The [sessionMap] of [recalculateElapsedMs]: a [Map] from the
    session id to the entries of the session, keys in insertion order. *)
Definition sameId (a b : option string) : bool :=
  match a, b with
  | Some x, Some y => String.eqb x y
  | None, None => true
  | _, _ => false
  end.

Fixpoint groupPush (entry : LogEntry) (m : list (option string * list LogEntry))
  : list (option string * list LogEntry) :=
  match m with
  | [] => [(entry_session_id entry, [entry])]
  | (k, sessionEntries) :: rest =>
      if sameId k (entry_session_id entry)
      then (k, sessionEntries ++ [entry]) :: rest
      else (k, sessionEntries) :: groupPush entry rest
  end.

Record Session := {
  sessionId : option string;
  sessionEntries : list LogEntry;
  startTs : Z
}.

(** [sessionEntries[0]?.ts || 0] *)
Definition firstTs (sessionEntries : list LogEntry) : Z :=
  match sessionEntries with
  | [] => 0%Z
  | first :: _ => entry_ts first
  end.

(** The inner loop of [recalculateElapsedMs] over the entries of a
    session: the entries it pushes and the last [maxElapsedInSession].
    [pushed] is the length of [result] when the turn begins, and
    [clock k] is what [new Date().toISOString()] gives at the [k]-th
    push. *)
Fixpoint stampEntries (clock : nat -> string) (pushed : nat)
         (sessionStartElapsed sessionStartTs maxElapsedInSession : Z)
         (entries : list LogEntry) : list LogEntry * Z :=
  match entries with
  | [] => ([], maxElapsedInSession)
  | entry :: rest =>
      let origElapsed := getOriginalElapsedMs entry sessionStartTs in
      let newEntry := {|
        entry_ts := entry_ts entry;
        entry_session_id := entry_session_id entry;
        entry_event := entry_event entry;
        entry_elapsed_ms := (sessionStartElapsed + origElapsed)%Z;
        entry_original_elapsed_ms := Some origElapsed;
        entry_merged_at := Some (clock pushed);
        entry_other := entry_other entry
      |} in
      let '(more, maxElapsed) :=
        stampEntries clock (S pushed) sessionStartElapsed sessionStartTs
                     (Z.max maxElapsedInSession (entry_elapsed_ms entry)) rest in
      (newEntry :: more, maxElapsed)
  end.

(** The outer loop, over the sessions, with [cumulativeElapsedMs]. *)
Fixpoint stampSessions (clock : nat -> string) (pushed : nat) (cumulativeElapsedMs : Z)
         (sessions : list Session) : list LogEntry :=
  match sessions with
  | [] => []
  | session :: rest =>
      let sessionStartElapsed := cumulativeElapsedMs in
      let sessionStartTs := firstTs (sessionEntries session) in
      let '(stamped, maxElapsedInSession) :=
        stampEntries clock pushed sessionStartElapsed sessionStartTs 0
                     (sessionEntries session) in
      stamped ++ stampSessions clock (pushed + List.length stamped)
                               (sessionStartElapsed + maxElapsedInSession) rest
  end.

(** [recalculateElapsedMs(entries)] *)
Definition recalculateElapsedMs (clock : nat -> string) (entries : list LogEntry)
  : list LogEntry :=
  match entries with
  | [] => entries
  | _ :: _ =>
      let sessionMap := fold_left (fun m entry => groupPush entry m) entries [] in
      let sortedMap := map (fun kv => (fst kv, js_sort byTs (snd kv))) sessionMap in
      let sessions :=
        js_sort (fun a b => inject_Z (startTs a) - inject_Z (startTs b))
                (map (fun kv => {| sessionId := fst kv;
                                   sessionEntries := snd kv;
                                   startTs := firstTs (snd kv) |}) sortedMap) in
      stampSessions clock 0 0 sessions
  end.

(** What the merge leaves of an entry: every property but
    [elapsed_ms], [original_elapsed_ms] and [merged_at]. *)
Definition entryCore (entry : LogEntry)
  : Z * option string * option string * list (string * string) :=
  (entry_ts entry, entry_session_id entry, entry_event entry, entry_other entry).

(** The offset of the session of a merged entry. *)
Definition sessionOffset (entry : LogEntry) : Z :=
  match entry_original_elapsed_ms entry with
  | Some original => (entry_elapsed_ms entry - original)%Z
  | None => 0%Z
  end.

(** The groups have different ids, and a group holds entries of its
    id, at least one. *)
Definition groupsOk (m : list (option string * list LogEntry)) : Prop :=
  NoDup (map fst m)
  /\ Forall (fun kv => snd kv <> []
                       /\ Forall (fun e => entry_session_id e = fst kv) (snd kv)) m.

(** The sessions have different ids, and a session holds entries of
    its id, at least one. *)
Definition sessionsOk (sessions : list Session) : Prop :=
  NoDup (map sessionId sessions)
  /\ Forall (fun s => sessionEntries s <> []
                      /\ Forall (fun e => entry_session_id e = sessionId s)
                                (sessionEntries s)) sessions.

(** ** helpers.js: the numbers of [generateSummary]

    [generateSummary(events, sessionId)] fills one object in one loop.
    The counters kept under a name ([counts.by_event],
    [counts.by_origin_mode], [counts.by_lang], the file paths and
    [policy_violation.kinds]) are written by the loop and never read
    by it; the record below holds the other fields, which the loop
    computes from the events alone. *)
Record CharStats := {
  chars_total : Z;
  chars_mean : Z;
  chars_max : Z
}.

Record TimeSpan := {
  min_ts : option Z;
  max_ts : option Z;
  duration_ms : Z
}.

Record Summary := {
  summary_session_id : string;
  edits_added_chars : CharStats;
  edits_deleted_chars : CharStats;
  policy_violation_count : Z;
  time_span : TimeSpan;
  total_events : Z
}.

(** [e.event === 'edit' && e.delta] *)
Definition editDelta (e : Event) : option Delta :=
  if String.eqb (event e) "edit" then delta e else None.

(** [e.ts] where it is truthy *)
Definition truthyTs (e : Event) : option Z :=
  match ts e with
  | Some t => if (t =? 0)%Z then None else Some t
  | None => None
  end.

(** [stats.total += n; stats.max = Math.max(stats.max, n)] *)
Definition countEdit (get : Delta -> Z) (c : CharStats) (d : Delta) : CharStats :=
  {| chars_total := (chars_total c + get d)%Z;
     chars_mean := chars_mean c;
     chars_max := Z.max (chars_max c) (get d) |}.

(** The two tests on [summary.time_span] for a truthy [e.ts]. *)
Definition widen (span : TimeSpan) (t : Z) : TimeSpan :=
  {| min_ts := match min_ts span with
               | None => Some t
               | Some m => if (t <? m)%Z then Some t else Some m
               end;
     max_ts := match max_ts span with
               | None => Some t
               | Some m => if (t >? m)%Z then Some t else Some m
               end;
     duration_ms := duration_ms span |}.

(** One turn of [for (const e of events)] on the summary and [editCount]. *)
Definition summaryTurn (acc : Summary * Z) (e : Event) : Summary * Z :=
  let summary := fst acc in
  ({| summary_session_id := summary_session_id summary;
      edits_added_chars :=
        match editDelta e with
        | Some d => countEdit added_chars (edits_added_chars summary) d
        | None => edits_added_chars summary
        end;
      edits_deleted_chars :=
        match editDelta e with
        | Some d => countEdit deleted_chars (edits_deleted_chars summary) d
        | None => edits_deleted_chars summary
        end;
      policy_violation_count :=
        if String.eqb (event e) "policy_violation"
        then (policy_violation_count summary + 1)%Z
        else policy_violation_count summary;
      time_span :=
        match truthyTs e with
        | Some t => widen (time_span summary) t
        | None => time_span summary
        end;
      total_events := total_events summary |},
   match editDelta e with
   | Some _ => (snd acc + 1)%Z
   | None => snd acc
   end).

(** [if (editCount > 0) stats.mean = Math.round(stats.total / editCount)] *)
Definition withMean (editCount : Z) (c : CharStats) : CharStats :=
  {| chars_total := chars_total c;
     chars_mean := if (editCount >? 0)%Z
                   then Math_round (inject_Z (chars_total c) / inject_Z editCount)
                   else chars_mean c;
     chars_max := chars_max c |}.

(** [if (min_ts && max_ts) duration_ms = max_ts - min_ts] *)
Definition withDuration (span : TimeSpan) : TimeSpan :=
  {| min_ts := min_ts span;
     max_ts := max_ts span;
     duration_ms :=
       match min_ts span, max_ts span with
       | Some lo, Some hi =>
           if (negb (lo =? 0) && negb (hi =? 0))%Z then (hi - lo)%Z
           else duration_ms span
       | _, _ => duration_ms span
       end |}.

Definition generateSummary (events : list Event) (sessionId : string) : Summary :=
  let zero := {| chars_total := 0; chars_mean := 0; chars_max := 0 |} in
  let summary :=
    {| summary_session_id := sessionId;
       edits_added_chars := zero;
       edits_deleted_chars := zero;
       policy_violation_count := 0;
       time_span := {| min_ts := None; max_ts := None; duration_ms := 0 |};
       total_events := Z.of_nat (List.length events) |} in
  let done := fold_left summaryTurn events (summary, 0%Z) in
  {| summary_session_id := summary_session_id (fst done);
     edits_added_chars := withMean (snd done) (edits_added_chars (fst done));
     edits_deleted_chars := withMean (snd done) (edits_deleted_chars (fst done));
     policy_violation_count := policy_violation_count (fst done);
     time_span := withDuration (time_span (fst done));
     total_events := total_events (fst done) |}.

(** The deltas of the edits and the truthy timestamps, in the order of
    the events. *)
Definition editDeltas (events : list Event) : list Delta :=
  flat_map (fun e => match editDelta e with Some d => [d] | None => [] end) events.

Definition truthyStamps (events : list Event) : list Z :=
  flat_map (fun e => match truthyTs e with Some t => [t] | None => [] end) events.

(** What one of the two [edits] entries says about the numbers [ns] of
    the edits. *)
Definition statsOf (ns : list Z) (c : CharStats) : Prop :=
  chars_total c = fold_right Z.add 0%Z ns
  /\ (0 <= chars_max c)%Z
  /\ Forall (fun n => (n <= chars_max c)%Z) ns
  /\ (chars_max c = 0%Z \/ In (chars_max c) ns)
  /\ (chars_mean c <= chars_max c)%Z
  /\ (Forall (fun n => (0 <= n)%Z) ns -> (0 <= chars_mean c)%Z)
  /\ (ns = [] -> chars_mean c = 0%Z).

(** What [time_span] says about the truthy timestamps [stamps]. *)
Definition spanOf (stamps : list Z) (span : TimeSpan) : Prop :=
  match min_ts span, max_ts span with
  | None, None => stamps = [] /\ duration_ms span = 0%Z
  | Some lo, Some hi =>
      In lo stamps /\ In hi stamps
      /\ Forall (fun t => (lo <= t <= hi)%Z) stamps
      /\ duration_ms span = (hi - lo)%Z
  | _, _ => False
  end.

(** The loop on [time_span], seen from the timestamps met so far. *)
Definition spanSoFar (seen : list Z) (span : TimeSpan) : Prop :=
  match min_ts span, max_ts span with
  | None, None => seen = []
  | Some lo, Some hi =>
      In lo seen /\ In hi seen /\ Forall (fun t => (lo <= t <= hi)%Z) seen
  | _, _ => False
  end.

(** * The same functions in binary64

    A JavaScript number is an IEEE 754 binary64 value.  The functions
    above are written over exact rationals, which serves the
    statements about call sequences, orders and ranges.  Where a
    statement turns on the last bit of a result, or on a value that is
    not a number, the function is written again here over
    binary64, operation by operation as the source has it; a host
    function that ECMAScript leaves to the engine stays a parameter. *)
From Stdlib Require Floats.

Module Binary64.
Import PrimFloat.
#[local] Set Warnings "-inexact-float".
Local Open Scope float_scope.

(** [Math.max(a, b)] and [Math.min(a, b)]: NaN when an argument is NaN,
    and [+0] counts as larger than [-0]. *)
Definition Math_max (a b : float) : float :=
  if a <? b then b
  else if b <? a then a
  else if a =? b then (if PrimFloat.get_sign a then b else a)
  else PrimFloat.nan.

Definition Math_min (a b : float) : float :=
  if a <? b then a
  else if b <? a then b
  else if a =? b then (if PrimFloat.get_sign a then a else b)
  else PrimFloat.nan.

(** [clamp(value, min, max) = Math.max(min, Math.min(max, value))] *)
Definition clamp (value min max : float) : float :=
  Math_max min (Math_min max value).

(** The Number an integer literal of the log stands for: the integer
    rounded to the nearest binary64 value. *)
Definition numberOf (z : Z) : float :=
  FloatOps.SF2Prim (SpecFloat.binary_normalize FloatOps.prec FloatOps.emax z 0 false).

(** ** helpers.js: [calculateSeverity] *)

(** [(delta.added_chars || 0) + (delta.deleted_chars || 0)] with
    [delta = event.delta || {}] *)
Definition changedChars (e : Event) : float :=
  match delta e with
  | Some d => numberOf (added_chars d) + numberOf (deleted_chars d)
  | None => 0 + 0
  end.

Section Severity.
(** [Math.log1p], supplied by the engine. *)
Variable Math_log1p : float -> float.

Definition calculateSeverity (e : Event) : float :=
  if String.eqb (event e) "policy_violation" then 1
  else if String.eqb (event e) "edit" then
    if flagSet is_undo_like e then 0.15
    else if flagSet is_redo_like e then 0.25
    else if flagSet is_paste_like e then 0.85
    else
      let chars := changedChars e in
      let REF := 30000 in
      let normalized := Math_log1p chars / Math_log1p REF in
      let severity := clamp (PrimFloat.sqrt normalized) 0 1 in
      Math_max 0.1 severity
  else if String.eqb (event e) "snapshot" then 0.2
  else if String.eqb (event e) "session_start" then 0.4
  else if String.eqb (event e) "session_pause" then 0.3
  else if String.eqb (event e) "session_resume" then 0.35
  else if String.eqb (event e) "mode_change" then 0.3
  else 0.5.
End Severity.

(** ** lewitt.js: [clipLineToRect] *)

(** One turn of the loop over the four half-planes. *)
Definition clipStep (t01 : float * float) (pq : float * float)
  : option (float * float) :=
  let '(t0, t1) := t01 in
  let '(p, q) := pq in
  if p =? 0 then
    if q <? 0 then None else Some (t0, t1)
  else
    let t := q / p in
    if p <? 0 then
      if t1 <? t then None
      else Some (if t0 <? t then t else t0, t1)
    else
      if t <? t0 then None
      else Some (t0, if t <? t1 then t else t1).

Fixpoint clipLoop (t01 : float * float) (pqs : list (float * float))
  : option (float * float) :=
  match pqs with
  | [] => Some t01
  | pq :: rest =>
      match clipStep t01 pq with
      | None => None
      | Some t01' => clipLoop t01' rest
      end
  end.

Definition Segment : Type := float * float * float * float.

Definition clipLineToRect (x1 y1 x2 y2 rx ry rw rh : float) : option Segment :=
  let dx := x2 - x1 in
  let dy := y2 - y1 in
  let p := [- dx; dx; - dy; dy] in
  let q := [x1 - rx; rx + rw - x1; y1 - ry; ry + rh - y1] in
  match clipLoop (0, 1) (combine p q) with
  | None => None
  | Some (t0, t1) =>
      Some (x1 + t0 * dx, y1 + t0 * dy, x1 + t1 * dx, y1 + t1 * dy)
  end.

(** ** lewitt.js: [drawLineWithRectHole] *)

Record Rect := { rect_x : float; rect_y : float; rect_w : float; rect_h : float }.

Record Hit := { hit_t : float; hit_x : float; hit_y : float }.

Definition insideRect (x y rx ry rx2 ry2 : float) : bool :=
  (rx <=? x) && (x <=? rx2) && (ry <=? y) && (y <=? ry2).

Definition hitVertical (x1 y1 dx dy ry ry2 ex : float) : list Hit :=
  if negb (dx =? 0) then
    let t := (ex - x1) / dx in
    if (0 <=? t) && (t <=? 1) then
      let y := y1 + t * dy in
      if (ry <=? y) && (y <=? ry2) then [{| hit_t := t; hit_x := ex; hit_y := y |}]
      else []
    else []
  else [].

Definition hitHorizontal (x1 y1 dx dy rx rx2 ey : float) : list Hit :=
  if negb (dy =? 0) then
    let tFixed := (ey - y1) / dy in
    if (0 <=? tFixed) && (tFixed <=? 1) then
      let x := x1 + tFixed * dx in
      if (rx <=? x) && (x <=? rx2) then [{| hit_t := tFixed; hit_x := x; hit_y := ey |}]
      else []
    else []
  else [].

(** [intersections.sort((a, b) => a.t - b.t)]: stable; a comparator
    value that is NaN counts as [+0]. *)
Fixpoint sortInsert (a : Hit) (l : list Hit) : list Hit :=
  match l with
  | [] => [a]
  | b :: rest =>
      let v := hit_t a - hit_t b in
      if PrimFloat.is_nan v || (v <=? 0) then a :: b :: rest
      else b :: sortInsert a rest
  end.

Definition sortByParameter (l : list Hit) : list Hit := fold_right sortInsert [] l.

Fixpoint dedupFrom (lastKept : Hit) (rest : list Hit) : list Hit :=
  match rest with
  | [] => []
  | h :: rest' =>
      if 0.0001 <? PrimFloat.abs (hit_t h - hit_t lastKept)
      then h :: dedupFrom h rest'
      else dedupFrom lastKept rest'
  end.

Definition dedupHits (sorted : list Hit) : list Hit :=
  match sorted with
  | [] => []
  | h :: rest => h :: dedupFrom h rest
  end.

Definition holeIntersections (x1 y1 x2 y2 : float) (rect : Rect) : list Hit :=
  let rx := rect_x rect in
  let ry := rect_y rect in
  let rx2 := rx + rect_w rect in
  let ry2 := ry + rect_h rect in
  let dx := x2 - x1 in
  let dy := y2 - y1 in
  hitVertical x1 y1 dx dy ry ry2 rx
  ++ hitVertical x1 y1 dx dy ry ry2 rx2
  ++ hitHorizontal x1 y1 dx dy rx rx2 ry
  ++ hitHorizontal x1 y1 dx dy rx rx2 ry2.

Definition holeUnique (x1 y1 x2 y2 : float) (rect : Rect) : list Hit :=
  dedupHits (sortByParameter (holeIntersections x1 y1 x2 y2 rect)).

Definition endpointInside (x1 y1 : float) (rect : Rect) : bool :=
  insideRect x1 y1 (rect_x rect) (rect_y rect)
             (rect_x rect + rect_w rect) (rect_y rect + rect_h rect).

(** The arguments of the [g.line] calls, in the order of the calls. *)
Definition drawLineWithRectHole (x1 y1 x2 y2 : float) (rect : Rect) : list Segment :=
  let p1In := endpointInside x1 y1 rect in
  let p2In := endpointInside x2 y2 rect in
  if p1In && p2In then []
  else
    match holeIntersections x1 y1 x2 y2 rect with
    | [] => [(x1, y1, x2, y2)]
    | _ :: _ =>
        match holeUnique x1 y1 x2 y2 rect with
        | [] => []
        | [touch] =>
            if p1In then [(hit_x touch, hit_y touch, x2, y2)]
            else [(x1, y1, hit_x touch, hit_y touch)]
        | enter :: second :: more =>
            let exit := last more second in
            (if negb p1In && (0.001 <? hit_t enter)
             then [(x1, y1, hit_x enter, hit_y enter)] else [])
            ++
            (if negb p2In && (hit_t exit <? 0.999)
             then [(hit_x exit, hit_y exit, x2, y2)] else [])
        end
    end.

(** ** lewitt.js: uniform sampling in [prepareEvents] *)

(** [Math.floor(x)] as an array index; a value that is not finite is
    no index. *)
Definition floorIndex (x : float) : option Z :=
  match FloatOps.Prim2SF x with
  | SpecFloat.S754_zero _ => Some 0%Z
  | SpecFloat.S754_finite s m e => Some (Z.shiftl (if s then Zneg m else Zpos m) e)
  | _ => None
  end.

(** [Math.floor(i * step)] with [step = filtered.length / config.maxEvents] *)
Definition sampleIndex (len maxEv : N) (i : nat) : option Z :=
  let step := numberOf (Z.of_N len) / numberOf (Z.of_N maxEv) in
  floorIndex (numberOf (Z.of_nat i) * step).

(** [for (i = 0; i < maxEvents; i++) sampled.push(filtered[floor(i * step)])];
    [None] stands for [undefined]. *)
Definition sampleUniform (filtered : list Ref) (maxEv : N) : list (option Ref) :=
  map (fun i : nat =>
         match sampleIndex (N.of_nat (List.length filtered)) maxEv i with
         | Some k => if (k <? 0)%Z then None else nth_error filtered (Z.to_nat k)
         | None => None
         end)
      (seq 0 (N.to_nat maxEv)).

(** ** lewitt.js: the loop of [drawHatchLines] *)

(** [Math.ceil(x)] *)
Definition Math_ceil (x : float) : float :=
  match FloatOps.Prim2SF x with
  | SpecFloat.S754_finite s m e =>
      if (0 <=? e)%Z then x
      else
        let n := (- Z.shiftl (if s then Zpos m else Zneg m) e)%Z in
        if (n =? 0)%Z then (if s then -0 else 0) else numberOf n
  | _ => x
  end.

(** [numLines = Math.ceil(diag / scaledSpacing) + 2] *)
Definition numLines (cellW cellH spacing scale : float) : float :=
  let scaledSpacing := spacing * scale in
  let diag := PrimFloat.sqrt (cellW * cellW + cellH * cellH) in
  Math_ceil (diag / scaledSpacing) + 2.


End Binary64.

(** ** Vocabulary for binary64 *)

(** A number that is not NaN has a place in a lexicographic order of
    integer triples: class, exponent, mantissa. *)
Definition floatKey (f : SpecFloat.spec_float) : option (Z * Z * Z) :=
  match f with
  | SpecFloat.S754_nan => None
  | SpecFloat.S754_zero _ => Some (0, 0, 0)%Z
  | SpecFloat.S754_infinity false => Some (2, 0, 0)%Z
  | SpecFloat.S754_infinity true => Some (-2, 0, 0)%Z
  | SpecFloat.S754_finite false m e => Some (1, e, Zpos m)%Z
  | SpecFloat.S754_finite true m e => Some (-1, - e, Zneg m)%Z
  end.

Definition keyLt (a b : Z * Z * Z) : Prop :=
  let '(a1, a2, a3) := a in
  let '(b1, b2, b3) := b in
  (a1 < b1 \/ (a1 = b1 /\ (a2 < b2 \/ (a2 = b2 /\ a3 < b3))))%Z.

Definition numLt (x y : PrimFloat.float) : Prop :=
  exists a b, floatKey (FloatOps.Prim2SF x) = Some a /\ floatKey (FloatOps.Prim2SF y) = Some b /\ keyLt a b.

Definition numLe (x y : PrimFloat.float) : Prop :=
  exists a b, floatKey (FloatOps.Prim2SF x) = Some a /\ floatKey (FloatOps.Prim2SF y) = Some b
              /\ (keyLt a b \/ a = b).

Definition isNumber (x : PrimFloat.float) : Prop := floatKey (FloatOps.Prim2SF x) <> None.


(** ** The severity rules as the specification lists them

    A guard and a value per rule; the first rule whose guard holds
    decides, and [0.5] is the default.  The numbers are binary64;
    [log(1 + x)] is the host's [log1p], as the specification's own
    example has it. *)
Section SeverityRules.
Import PrimFloat.
#[local] Set Warnings "-inexact-float".
Local Open Scope float_scope.
Variable log1p : float -> float.

Definition isKind (k : string) (e : Event) : bool := String.eqb (event e) k.

(** [added_chars] and [deleted_chars] of an event, [0] without a delta. *)
Definition charsAdded (e : Event) : Z :=
  match delta e with Some d => added_chars d | None => 0%Z end.

Definition charsDeleted (e : Event) : Z :=
  match delta e with Some d => deleted_chars d | None => 0%Z end.

(** [clamp(x, lo, hi)]: [lo] below the range, [hi] above it, [x] in it. *)
Definition clampToRange (x lo hi : float) : float :=
  if x <? lo then lo else if hi <? x then hi else x.

(** [max(lo, x)]: [lo] when [x] is below it, [x] otherwise. *)
Definition maxOf (lo x : float) : float := if x <? lo then lo else x.

Definition editMagnitude (e : Event) : float :=
  let chars := Binary64.numberOf (charsAdded e) + Binary64.numberOf (charsDeleted e) in
  let normalized := log1p chars / log1p 30000 in
  maxOf 0.1 (clampToRange (sqrt normalized) 0 1).

Definition severityRules : list ((Event -> bool) * (Event -> float)) :=
  [ (isKind "policy_violation", fun _ => 1);
    (fun e => isKind "edit" e && flagSet is_undo_like e, fun _ => 0.15);
    (fun e => isKind "edit" e && flagSet is_redo_like e, fun _ => 0.25);
    (fun e => isKind "edit" e && flagSet is_paste_like e, fun _ => 0.85);
    (isKind "edit", editMagnitude);
    (isKind "snapshot", fun _ => 0.2);
    (isKind "session_start", fun _ => 0.4);
    (isKind "session_pause", fun _ => 0.3);
    (isKind "session_resume", fun _ => 0.35);
    (isKind "mode_change", fun _ => 0.3) ].

Fixpoint firstMatch (rules : list ((Event -> bool) * (Event -> float)))
         (default : float) (e : Event) : float :=
  match rules with
  | [] => default
  | (guard, value) :: rest =>
      if guard e then value e else firstMatch rest default e
  end.

Definition severitySpec (e : Event) : float := firstMatch severityRules 0.5 e.
End SeverityRules.

(** * Facts about the number helpers *)

Lemma Qltb_true x y : Qltb x y = true <-> x < y.
Proof.
  unfold Qltb. rewrite negb_true_iff. split; intro H.
  - apply Qnot_le_lt. intro Hc. apply Qle_bool_iff in Hc. congruence.
  - destruct (Qle_bool y x) eqn:E; auto. apply Qle_bool_iff in E.
    exfalso. apply (Qlt_not_le _ _ H E).
Qed.

Lemma Qltb_false x y : Qltb x y = false <-> y <= x.
Proof.
  unfold Qltb. rewrite negb_false_iff. apply Qle_bool_iff.
Qed.

Lemma Qleb_true x y : Qleb x y = true <-> x <= y.
Proof. apply Qle_bool_iff. Qed.

Lemma Qleb_false x y : Qleb x y = false <-> y < x.
Proof.
  unfold Qleb. split; intro H.
  - apply Qnot_le_lt. intro Hc. apply Qle_bool_iff in Hc. congruence.
  - destruct (Qle_bool x y) eqn:E; auto. apply Qle_bool_iff in E.
    exfalso. apply (Qlt_not_le _ _ H E).
Qed.

Lemma Qeqb_true x y : Qeqb x y = true <-> x == y.
Proof. apply Qeq_bool_iff. Qed.

Lemma Qeqb_false x y : Qeqb x y = false <-> ~ x == y.
Proof.
  unfold Qeqb. split; intro H.
  - intro Hc. apply Qeq_bool_iff in Hc. congruence.
  - destruct (Qeq_bool x y) eqn:E; auto. apply Qeq_bool_iff in E. contradiction.
Qed.

(** Case analysis on every rational test of the goal. *)
Ltac qtest :=
  repeat match goal with
  | |- context [Qltb ?a ?b] =>
      let E := fresh "E" in
      destruct (Qltb a b) eqn:E;
      [apply Qltb_true in E | apply Qltb_false in E]
  | |- context [Qleb ?a ?b] =>
      let E := fresh "E" in
      destruct (Qleb a b) eqn:E;
      [apply Qleb_true in E | apply Qleb_false in E]
  | |- context [Qeqb ?a ?b] =>
      let E := fresh "E" in
      destruct (Qeqb a b) eqn:E;
      [apply Qeqb_true in E | apply Qeqb_false in E]
  end.

Lemma Qdiv_times p q : ~ p == 0 -> p * (q / p) == q.
Proof. intro H. apply Qmult_div_r. exact H. Qed.

Lemma clamp_bounds v lo hi : lo <= hi -> lo <= clamp v lo hi /\ clamp v lo hi <= hi.
Proof.
  intro H. unfold clamp, Math_max, Math_min. split.
  - apply Q.le_max_l.
  - apply Q.max_lub; [exact H | apply Q.le_min_l].
Qed.

Lemma clamp_monotone v w lo hi : v <= w -> clamp v lo hi <= clamp w lo hi.
Proof.
  intro H. unfold clamp, Math_max, Math_min.
  apply Q.max_le_compat_l. apply Q.min_le_compat_l. exact H.
Qed.

Lemma clamp_inside v lo hi : lo <= v -> v <= hi -> clamp v lo hi == v.
Proof.
  intros H1 H2. unfold clamp, Math_max, Math_min.
  rewrite (Q.min_r hi v H2). apply Q.max_r. exact H1.
Qed.

Lemma clampZ_bounds v lo hi : (lo <= hi)%Z -> (lo <= clampZ v lo hi <= hi)%Z.
Proof. unfold clampZ. lia. Qed.

(** [clampZ] is [clamp] at integers. *)
Lemma clampZ_clamp v lo hi :
  inject_Z (clampZ v lo hi) == clamp (inject_Z v) (inject_Z lo) (inject_Z hi).
Proof.
  unfold clampZ, clamp, Math_max, Math_min.
  destruct (Z.min_spec hi v) as [[Hlt Hmin] | [Hle Hmin]]; rewrite Hmin.
  - rewrite (Q.min_l (inject_Z hi) (inject_Z v))
      by (rewrite <- Zle_Qle; lia).
    destruct (Z.max_spec lo hi) as [[H1 H2] | [H1 H2]]; rewrite H2.
    + rewrite Q.max_r by (rewrite <- Zle_Qle; lia). reflexivity.
    + rewrite Q.max_l by (rewrite <- Zle_Qle; lia). reflexivity.
  - rewrite (Q.min_r (inject_Z hi) (inject_Z v))
      by (rewrite <- Zle_Qle; lia).
    destruct (Z.max_spec lo v) as [[H1 H2] | [H1 H2]]; rewrite H2.
    + rewrite Q.max_r by (rewrite <- Zle_Qle; lia). reflexivity.
    + rewrite Q.max_l by (rewrite <- Zle_Qle; lia). reflexivity.
Qed.

Lemma Math_round_monotone x y : x <= y -> (Math_round x <= Math_round y)%Z.
Proof. intro H. unfold Math_round. apply Qfloor_resp_le. lra. Qed.

Lemma Math_round_bounds (lo hi : Z) x :
  inject_Z lo <= x -> x <= inject_Z hi -> (lo <= Math_round x <= hi)%Z.
Proof.
  intros H1 H2. unfold Math_round. split.
  - rewrite <- (Qfloor_Z lo). apply Qfloor_resp_le. lra.
  - assert (Hlt : x + (1 # 2) < inject_Z (hi + 1)).
    { rewrite inject_Z_plus. change (inject_Z 1) with 1. lra. }
    pose proof (Qfloor_le (x + (1 # 2))) as Hf.
    assert (inject_Z (Qfloor (x + (1 # 2))) < inject_Z (hi + 1)) by lra.
    rewrite <- Zlt_Qlt in H. lia.
Qed.

(** [Math_round_sqrt] by integer arithmetic alone. *)
Lemma Math_round_sqrt_bounds (k : N) :
  let n := Math_round_sqrt k in
  (0 <= n /\ 4 * Z.of_N k < (2 * n + 1) * (2 * n + 1)
   /\ (n = 0 \/ (2 * n - 1) * (2 * n - 1) <= 4 * Z.of_N k))%Z.
Proof.
  unfold Math_round_sqrt.
  assert (Hk : (0 <= Z.of_N k)%Z) by lia.
  pose proof (Z.sqrt_spec (Z.of_N k) Hk) as Hs. cbv zeta in Hs.
  pose proof (Z.sqrt_nonneg (Z.of_N k)) as Hr.
  set (r := Z.sqrt (Z.of_N k)) in *.
  destruct (Z.ltb_spec (r * r + r) (Z.of_N k)); cbv zeta; repeat split; try nia;
    destruct (Z.eq_dec r 0); first [left; lia | right; nia].
Qed.

(** [Math_round_sqrt k] is the real square root of [k] rounded to the
    nearest integer, halves up: what [Math.round(Math.sqrt(k))] is. *)
Lemma Math_round_sqrt_real (k : N) :
  (IZR (Math_round_sqrt k) - 1 / 2 <= sqrt (IZR (Z.of_N k))
   < IZR (Math_round_sqrt k) + 1 / 2)%R.
Proof.
  destruct (Math_round_sqrt_bounds k) as (Hn & Hup & Hlo).
  set (n := Math_round_sqrt k) in *.
  assert (Hk : (0 <= IZR (Z.of_N k))%R) by (apply IZR_le; lia).
  pose proof (sqrt_pos (IZR (Z.of_N k))) as Hsp.
  pose proof (sqrt_sqrt _ Hk) as Hss.
  apply IZR_lt in Hup. rewrite ?mult_IZR, ?plus_IZR, ?mult_IZR in Hup.
  split.
  - destruct Hlo as [H0 | Hlo].
    + rewrite H0. simpl. lra.
    + apply IZR_le in Hlo. rewrite ?mult_IZR, ?minus_IZR, ?mult_IZR in Hlo.
      assert (Hn1 : (1 <= IZR n)%R).
      { destruct (Z.eq_dec n 0) as [E | E].
        - rewrite E in Hlo. simpl in Hlo.
          apply Rnot_lt_le. intro Hc.
          assert (Hk0 : (IZR (Z.of_N k) = 0)%R).
          { rewrite E in Hup. simpl in Hup.
            assert (Hlt : (Z.of_N k < 1)%Z) by (apply lt_IZR; lra).
            assert (Hz : (Z.of_N k = 0)%Z) by lia. rewrite Hz. reflexivity. }
          lra.
        - apply IZR_le. lia. }
      apply Rnot_lt_le. intro Hc.
      assert (Hsq : (sqrt (IZR (Z.of_N k)) * sqrt (IZR (Z.of_N k))
                     < (IZR n - 1 / 2) * (IZR n - 1 / 2))%R) by nra.
      nra.
  - apply Rnot_le_lt. intro Hc.
    assert (Hn0 : (0 <= IZR n)%R) by (apply IZR_le; lia).
    assert (Hsq : ((IZR n + 1 / 2) * (IZR n + 1 / 2)
                   <= sqrt (IZR (Z.of_N k)) * sqrt (IZR (Z.of_N k)))%R) by nra.
    nra.
Qed.

(** * Grid size *)

Example calculateGridSize_samples :
  calculateGridSize 0 LEWITT_CONFIG = 5%Z
  /\ calculateGridSize 31 LEWITT_CONFIG = 6%Z
  /\ calculateGridSize 1000 LEWITT_CONFIG = 23%Z.
Proof. repeat split; reflexivity. Qed.

(** C7.  When [minGridSize <= maxGridSize], the grid size is the clamp
    to [minGridSize, maxGridSize] of the integer [n] that is the real
    square root of [min(eventCount, maxEvents)] rounded to the nearest
    integer: it is [minGridSize] when [n] is below the range,
    [maxGridSize] when [n] is above it, and [n] itself otherwise; so it
    lies in [minGridSize, maxGridSize]; and with the bounds 5 and 27
    and [maxEvents = 530], 25 events give a grid of size 5. *)
Theorem calculateGridSize_spec :
  forall (eventCount : N) (config : Config),
    (minGridSize config <= maxGridSize config)%Z ->
    (exists n : Z,
        (IZR n - 1 / 2
         <= sqrt (IZR (Z.of_N (N.min eventCount (maxEvents config))))
         < IZR n + 1 / 2)%R
        /\ ((n < minGridSize config)%Z ->
            calculateGridSize eventCount config = minGridSize config)
        /\ ((minGridSize config <= n <= maxGridSize config)%Z ->
            calculateGridSize eventCount config = n)
        /\ ((maxGridSize config < n)%Z ->
            calculateGridSize eventCount config = maxGridSize config))
    /\ (minGridSize config <= calculateGridSize eventCount config
        <= maxGridSize config)%Z
    /\ (minGridSize config = 5%Z -> maxGridSize config = 27%Z ->
        maxEvents config = 530%N -> eventCount = 25%N ->
        calculateGridSize eventCount config = 5%Z).
Proof.
  intros eventCount config Hmm. split; [| split].
  - exists (Math_round_sqrt (N.min eventCount (maxEvents config))).
    split; [apply Math_round_sqrt_real |].
    unfold calculateGridSize, clampZ. cbv zeta.
    repeat split; intro H; lia.
  - unfold calculateGridSize. apply clampZ_bounds. exact Hmm.
  - intros Hmin Hmax Hev Hc. unfold calculateGridSize.
    rewrite Hmin, Hmax, Hev, Hc. reflexivity.
Qed.

Lemma calculateGridSize_spec_witness :
  (minGridSize LEWITT_CONFIG <= maxGridSize LEWITT_CONFIG)%Z
  /\ (minGridSize LEWITT_CONFIG <= calculateGridSize 25 LEWITT_CONFIG
      <= maxGridSize LEWITT_CONFIG)%Z
  /\ calculateGridSize 25 LEWITT_CONFIG = 5%Z.
Proof.
  assert (H : (minGridSize LEWITT_CONFIG <= maxGridSize LEWITT_CONFIG)%Z)
    by (cbn; lia).
  destruct (calculateGridSize_spec 25 LEWITT_CONFIG H) as (_ & Hb & Hex).
  split; [exact H |]. split; [exact Hb |].
  apply Hex; reflexivity.
Defined.

(** * Hatch parameters *)

Example getHatchParams_ends :
  spacing (getHatchParams 0) == 18 /\ spacing (getHatchParams 1) == 4
  /\ alpha (getHatchParams 0) = 40%Z /\ alpha (getHatchParams 1) = 200%Z
  /\ alpha (getHatchParams (1 # 3)) = 93%Z.
Proof. repeat split; reflexivity. Qed.

(** C4.  For a severity [s] in [0, 1] the spacing lies in [3, 24], the
    weight in [0.6, 3.0], the weight of a policy-violation cell is the
    weight plus a bonus of at most 1.0, and the alpha lies in [40, 200];
    and for severities [s1 <= s2] in [0, 1] the spacing does not
    increase and the weight and the alpha do not decrease. *)
Theorem getHatchParams_range_monotone :
  (forall s : Q, 0 <= s -> s <= 1 ->
     3 <= spacing (getHatchParams s) /\ spacing (getHatchParams s) <= 24
     /\ 6 # 10 <= weight (getHatchParams s) /\ weight (getHatchParams s) <= 3
     /\ weight (getHatchParams s) <= policyViolationWeight s
     /\ policyViolationWeight s <= weight (getHatchParams s) + 1
     /\ (40 <= alpha (getHatchParams s) <= 200)%Z)
  /\ (forall s1 s2 : Q, 0 <= s1 -> s1 <= s2 -> s2 <= 1 ->
        spacing (getHatchParams s2) <= spacing (getHatchParams s1)
        /\ weight (getHatchParams s1) <= weight (getHatchParams s2)
        /\ (alpha (getHatchParams s1) <= alpha (getHatchParams s2))%Z).
Proof.
  split.
  - intros s H0 H1. unfold policyViolationWeight, getHatchParams.
    cbn -[clamp Math_round]. unfold lerp.
    destruct (clamp_bounds (18 + (4 - 18) * s) 3 24 ltac:(lra)) as [A B].
    repeat split; try assumption; try lra.
    + apply (Math_round_bounds 40 200); change (inject_Z 40) with 40;
        change (inject_Z 200) with 200; lra.
    + apply (Math_round_bounds 40 200); change (inject_Z 40) with 40;
        change (inject_Z 200) with 200; lra.
  - intros s1 s2 H0 H12 H1. unfold getHatchParams. cbn -[clamp Math_round].
    unfold lerp. repeat split.
    + apply clamp_monotone. lra.
    + lra.
    + apply Math_round_monotone. lra.
Qed.

(** * Clipping a segment to a rectangle *)

Example clipLineToRect_samples :
  option_map reduced (clipLineToRect (-5) 5 15 5 0 0 10 10) = Some (0, 5, 10, 5)
  /\ option_map reduced (clipLineToRect 2 3 7 8 0 0 10 10) = Some (2, 3, 7, 8)
  /\ option_map reduced (clipLineToRect 3 3 3 3 0 0 10 10) = Some (3, 3, 3, 3)
  /\ clipLineToRect 11 0 12 5 0 0 10 10 = None.
Proof. repeat split; reflexivity. Qed.

Lemma clipStep_Some t0 t1 pq a b :
  clipStep (t0, t1) pq = Some (a, b) ->
  t0 <= t1 ->
  t0 <= a /\ a <= b /\ b <= t1
  /\ (forall t, a <= t -> t <= b -> feasible pq t)
  /\ (forall t, t0 <= t -> t <= t1 -> feasible pq t -> a <= t /\ t <= b).
Proof.
  destruct pq as [p q]. unfold clipStep, feasible. simpl fst. simpl snd.
  intros H Hle. revert H. qtest; intro H; inversion H; subst; clear H;
    try (pose proof (Qdiv_times p q ltac:(assumption)) as Hd;
         set (tq := q / p) in *; clearbody tq);
    repeat split; intros; try lra; try nra.
Qed.

Lemma clipStep_None t0 t1 pq :
  clipStep (t0, t1) pq = None ->
  t0 <= t1 ->
  forall t, t0 <= t -> t <= t1 -> ~ feasible pq t.
Proof.
  destruct pq as [p q]. unfold clipStep, feasible. simpl fst. simpl snd.
  intros H Hle. revert H. qtest; intro H; try discriminate;
    try (pose proof (Qdiv_times p q ltac:(assumption)) as Hd;
         set (tq := q / p) in *; clearbody tq);
    intros t Ht0 Ht1 Hf; try lra; try nra.
Qed.

Lemma clipLoop_Some pqs : forall t0 t1 a b,
  clipLoop (t0, t1) pqs = Some (a, b) ->
  t0 <= t1 ->
  t0 <= a /\ a <= b /\ b <= t1
  /\ (forall t, a <= t -> t <= b -> Forall (fun pq => feasible pq t) pqs)
  /\ (forall t, t0 <= t -> t <= t1 -> Forall (fun pq => feasible pq t) pqs ->
                a <= t /\ t <= b).
Proof.
  induction pqs as [| pq rest IH]; intros t0 t1 a b H Hle; cbn [clipLoop] in H.
  - inversion H; subst. repeat split; auto; try lra.
  - destruct (clipStep (t0, t1) pq) as [[u0 u1] |] eqn:Hstep; [| discriminate].
    destruct (clipStep_Some _ _ _ _ _ Hstep Hle) as (H1 & H2 & H3 & Hin & Hout).
    destruct (IH _ _ _ _ H H2) as (I1 & I2 & I3 & Iin & Iout).
    split; [lra |]. split; [lra |]. split; [lra |]. split.
    + intros t Ha Hb. constructor.
      * apply Hin; lra.
      * apply Iin; assumption.
    + intros t Ht0 Ht1 Hall.
      inversion Hall as [| ? ? Hpq Hrest]; subst.
      destruct (Hout t Ht0 Ht1 Hpq) as [G1 G2].
      exact (Iout t G1 G2 Hrest).
Qed.

Lemma clipLoop_None pqs : forall t0 t1,
  clipLoop (t0, t1) pqs = None ->
  t0 <= t1 ->
  forall t, t0 <= t -> t <= t1 -> ~ Forall (fun pq => feasible pq t) pqs.
Proof.
  induction pqs as [| pq rest IH]; intros t0 t1 H Hle t Ht0 Ht1 Hall; cbn [clipLoop] in H.
  - discriminate.
  - inversion Hall as [| ? ? Hpq Hrest]; subst.
    destruct (clipStep (t0, t1) pq) as [[u0 u1] |] eqn:Hstep.
    + destruct (clipStep_Some _ _ _ _ _ Hstep Hle) as (H1 & H2 & H3 & Hin & Hout).
      destruct (Hout t Ht0 Ht1 Hpq) as [G1 G2].
      exact (IH _ _ H H2 t G1 G2 Hrest).
    + exact (clipStep_None _ _ _ Hstep Hle t Ht0 Ht1 Hpq).
Qed.

(** The four half-plane constraints at parameter [t] say that the point
    of the segment at [t] is in the rectangle. *)
Lemma feasible_inRect x1 y1 x2 y2 rx ry rw rh t :
  Forall (fun pq => feasible pq t)
         (combine [- (x2 - x1); x2 - x1; - (y2 - y1); y2 - y1]
                  [x1 - rx; rx + rw - x1; y1 - ry; ry + rh - y1])
  <-> inRect rx ry rw rh (x1 + t * (x2 - x1)) (y1 + t * (y2 - y1)).
Proof.
  unfold inRect, feasible. simpl. split.
  - intro H. inversion H as [| ? ? A H']; subst. inversion H' as [| ? ? B H'']; subst.
    inversion H'' as [| ? ? C H3]; subst. inversion H3 as [| ? ? D _]; subst.
    simpl in *. repeat split; lra.
  - intros (A & B & C & D). repeat constructor; simpl; lra.
Qed.

(** * A segment with a rectangular hole *)

(** A segment through the hole, one inside it, one beside it, and one
    that touches a corner of it. *)
Example drawLineWithRectHole_samples :
  let hole := {| rect_x := 4; rect_y := 4; rect_w := 2; rect_h := 2 |} in
  map reduced (drawLineWithRectHole 0 5 10 5 hole) = [(0, 5, 4, 5); (6, 5, 10, 5)]
  /\ drawLineWithRectHole (9 # 2) 5 (11 # 2) 5 hole = []
  /\ drawLineWithRectHole 0 1 10 1 hole = [(0, 1, 10, 1)]
  /\ map reduced (drawLineWithRectHole 0 8 8 0 hole) = [(0, 8, 4, 4)].
Proof. cbv zeta. repeat split; reflexivity. Qed.

(** ** The stable sort by a numeric key *)
Section SortByKey.
Context {A : Type} (key : A -> Q).

Let cmp (a b : A) : Q := key a - key b.
Let keyLe (a b : A) : Prop := key a <= key b.

Lemma sortInsert_hd a l b :
  HdRel keyLe b l -> keyLe b a -> HdRel keyLe b (sortInsert cmp a l).
Proof.
  intros Hl Hab. destruct l as [| c rest]; simpl.
  - constructor. exact Hab.
  - destruct (Qleb (cmp a c) 0).
    + constructor. exact Hab.
    + constructor. inversion Hl; assumption.
Qed.

Lemma sortInsert_sorted a l : Sorted keyLe l -> Sorted keyLe (sortInsert cmp a l).
Proof.
  induction 1 as [| b rest Hs IH Hhd]; simpl.
  - repeat constructor.
  - destruct (Qleb (cmp a b) 0) eqn:E.
    + apply Qleb_true in E. unfold cmp in E.
      constructor; [constructor; assumption |]. constructor. unfold keyLe. lra.
    + apply Qleb_false in E. unfold cmp in E.
      constructor; [exact IH |]. apply sortInsert_hd; [exact Hhd |].
      unfold keyLe. lra.
Qed.

Lemma js_sort_sorted l : Sorted keyLe (js_sort cmp l).
Proof.
  induction l as [| a rest IH]; simpl.
  - constructor.
  - apply sortInsert_sorted. exact IH.
Qed.
End SortByKey.

(** * The event store under preparation *)

Lemma strip_markSnapshot e : stripAnnotations (markSnapshot e) = stripAnnotations e.
Proof. reflexivity. Qed.

Lemma strip_markPrompt n e : stripAnnotations (markPrompt n e) = stripAnnotations e.
Proof. reflexivity. Qed.

Lemma sameObjects_refl s : sameObjects s s.
Proof. split; auto. Qed.

Lemma sameObjects_trans s t u : sameObjects s t -> sameObjects t u -> sameObjects s u.
Proof.
  intros [H1 H2] [H3 H4]. split; [congruence |]. intro r. rewrite H2. apply H4.
Qed.

(** What the preparer reads of an object is not an annotation. *)
Lemma sameObjects_event s t r : sameObjects s t -> event (getE s r) = event (getE t r).
Proof. intros [_ H]. exact (f_equal event (H r)). Qed.

Lemma sameObjects_ts s t r : sameObjects s t -> ts (getE s r) = ts (getE t r).
Proof. intros [_ H]. exact (f_equal ts (H r)). Qed.

Lemma sameObjects_prompt s t r : sameObjects s t -> prompt (getE s r) = prompt (getE t r).
Proof. intros [_ H]. exact (f_equal prompt (H r)). Qed.

Lemma sameObjects_to s t r : sameObjects s t -> to_ (getE s r) = to_ (getE t r).
Proof. intros [_ H]. exact (f_equal to_ (H r)). Qed.

Lemma sameObjects_origin s t r :
  sameObjects s t -> origin_mode (getE s r) = origin_mode (getE t r).
Proof. intros [_ H]. exact (f_equal origin_mode (H r)). Qed.

(** ** Reading a store after a write *)

Lemma updateE_length s r f : List.length (updateE s r f) = List.length s.
Proof.
  revert r. induction s as [| e rest IH]; intros [| r]; simpl; auto.
Qed.

Lemma getE_updateE s a f r :
  getE (updateE s a f) r =
  if Nat.eqb a r && Nat.ltb r (List.length s) then f (getE s r) else getE s r.
Proof.
  unfold getE. revert a r. induction s as [| e rest IH]; intros a r.
  - simpl. rewrite andb_false_r. destruct r; reflexivity.
  - destruct a as [| a], r as [| r]; simpl; try reflexivity.
    rewrite IH. reflexivity.
Qed.

Lemma Store_ext (s t : Store) :
  List.length s = List.length t -> (forall r, getE s r = getE t r) -> s = t.
Proof.
  intros Hlen H. apply (nth_ext s t noEvent noEvent Hlen).
  intros n _. apply H.
Qed.

Lemma updateE_sameObjects s a f :
  (forall e, stripAnnotations (f e) = stripAnnotations e) ->
  sameObjects (updateE s a f) s.
Proof.
  intro Hf. split; [apply updateE_length |].
  intro r. rewrite getE_updateE. destruct (_ && _); auto.
Qed.

(** ** What the two marking loops write *)

Lemma snapshotMarked_sameObjects s t l r :
  sameObjects s t -> snapshotMarked s l r = snapshotMarked t l r.
Proof.
  intro H. induction l as [| a rest IH]; [reflexivity |].
  cbn [snapshotMarked]. destruct rest as [| b rest']; [reflexivity |].
  rewrite IH. rewrite (sameObjects_event s t a H), (sameObjects_event s t b H).
  reflexivity.
Qed.

Lemma promptMarked_sameObjects s t l r :
  sameObjects s t -> forall c, promptMarked s c l r = promptMarked t c l r.
Proof.
  intro H. induction l as [| a rest IH]; intro c; [reflexivity |].
  cbn [promptMarked]. cbv zeta.
  rewrite (sameObjects_event s t a H), (sameObjects_prompt s t a H),
    (sameObjects_to s t a H), (sameObjects_origin s t a H).
  rewrite !IH. reflexivity.
Qed.

Lemma markSnapshots_sameObjects l : forall s, sameObjects (markSnapshots s l) s.
Proof.
  induction l as [| a rest IH]; intro s; [apply sameObjects_refl |].
  cbn [markSnapshots]. destruct rest as [| b rest']; [apply sameObjects_refl |].
  eapply sameObjects_trans; [apply IH |].
  destruct (_ && _); [| apply sameObjects_refl].
  apply updateE_sameObjects. apply strip_markSnapshot.
Qed.

Lemma markAiPrompts_sameObjects l : forall s c, sameObjects (markAiPrompts s c l) s.
Proof.
  induction l as [| a rest IH]; intros s c; [apply sameObjects_refl |].
  cbn [markAiPrompts]. cbv zeta.
  destruct (_ && _); [apply IH |].
  destruct (_ && _); [apply IH |].
  destruct (_ && _); [| apply IH].
  eapply sameObjects_trans; [apply IH |].
  apply updateE_sameObjects. apply strip_markPrompt.
Qed.

(** The store after the first loop, object by object. *)
Lemma markSnapshots_get l : forall s r,
  getE (markSnapshots s l) r =
  if snapshotMarked s l r && Nat.ltb r (List.length s)
  then markSnapshot (getE s r) else getE s r.
Proof.
  induction l as [| a rest IH]; intros s r; [reflexivity |].
  cbn [markSnapshots snapshotMarked].
  destruct rest as [| b rest']; [reflexivity |].
  set (cond := String.eqb (event (getE s a)) "edit"
               && String.eqb (event (getE s b)) "snapshot").
  set (s' := if cond then updateE s a markSnapshot else s).
  assert (Hs' : sameObjects s' s).
  { unfold s'. destruct cond; [| apply sameObjects_refl].
    apply updateE_sameObjects. apply strip_markSnapshot. }
  rewrite IH. rewrite (snapshotMarked_sameObjects s' s _ r Hs').
  destruct Hs' as [Hlen _]. rewrite Hlen.
  replace (Nat.eqb a r && String.eqb (event (getE s a)) "edit"
           && String.eqb (event (getE s b)) "snapshot")
    with (Nat.eqb a r && cond) by (unfold cond; rewrite andb_assoc; reflexivity).
  unfold s'. destruct cond.
  - rewrite getE_updateE. rewrite andb_true_r.
    destruct (Nat.eqb a r); cbn [andb orb];
      destruct (snapshotMarked s (b :: rest') r);
      destruct (Nat.ltb r (List.length s)); reflexivity.
  - rewrite andb_false_r. reflexivity.
Qed.

(** The store after the second loop, object by object. *)
Lemma markAiPrompts_get l : forall s c r,
  getE (markAiPrompts s c l) r =
  match promptMarked s c l r with
  | Some n => if Nat.ltb r (List.length s) then markPrompt n (getE s r) else getE s r
  | None => getE s r
  end.
Proof.
  induction l as [| a rest IH]; intros s c r; [reflexivity |].
  cbn [markAiPrompts promptMarked]. cbv zeta.
  destruct (_ && _); [apply IH |].
  destruct (_ && _); [apply IH |].
  destruct (_ && _); [| apply IH].
  rewrite IH.
  assert (Hs' : sameObjects (updateE s a (markPrompt c)) s).
  { apply updateE_sameObjects. apply strip_markPrompt. }
  rewrite (promptMarked_sameObjects _ _ rest r Hs' c).
  destruct Hs' as [Hlen _]. rewrite Hlen.
  rewrite getE_updateE.
  destruct (promptMarked s c rest r) as [n |].
  - destruct (Nat.eqb a r), (Nat.ltb r (List.length s)); reflexivity.
  - destruct (Nat.eqb a r), (Nat.ltb r (List.length s)); reflexivity.
Qed.

(** ** A second pass over the same sequence *)

Lemma js_sort_ext {A} (cmp1 cmp2 : A -> A -> Q) l :
  (forall a b, cmp1 a b = cmp2 a b) -> js_sort cmp1 l = js_sort cmp2 l.
Proof.
  intro H. induction l as [| a rest IH]; [reflexivity |].
  cbn [js_sort fold_right]. change (fold_right (sortInsert cmp1) [] rest)
    with (js_sort cmp1 rest).
  change (fold_right (sortInsert cmp2) [] rest) with (js_sort cmp2 rest).
  rewrite IH. generalize (js_sort cmp2 rest) as l'.
  induction l' as [| b l' IH']; [reflexivity |].
  cbn [sortInsert]. rewrite H, IH'. reflexivity.
Qed.

Lemma byTime_sameObjects s t : sameObjects s t -> forall a b, byTime s a b = byTime t a b.
Proof.
  intros H a b. unfold byTime, tsOrZero.
  rewrite (sameObjects_ts s t a H), (sameObjects_ts s t b H). reflexivity.
Qed.

Lemma markPass_sameObjects s l : sameObjects (markPass s l) s.
Proof.
  unfold markPass. eapply sameObjects_trans;
    [apply markAiPrompts_sameObjects | apply markSnapshots_sameObjects].
Qed.

Lemma markPass_get s l r :
  getE (markPass s l) r =
  let e := if snapshotMarked s l r && Nat.ltb r (List.length s)
           then markSnapshot (getE s r) else getE s r in
  match promptMarked s 0%Z l r with
  | Some n => if Nat.ltb r (List.length s) then markPrompt n e else e
  | None => e
  end.
Proof.
  unfold markPass. rewrite markAiPrompts_get.
  rewrite (promptMarked_sameObjects _ _ l r (markSnapshots_sameObjects l s)).
  destruct (markSnapshots_sameObjects l s) as [Hlen _]. rewrite Hlen.
  rewrite markSnapshots_get. reflexivity.
Qed.

Lemma markPass_idempotent s l : markPass (markPass s l) l = markPass s l.
Proof.
  pose proof (markPass_sameObjects s l) as Hsame.
  apply Store_ext.
  - destruct (markPass_sameObjects (markPass s l) l) as [H _]. exact H.
  - intro r. rewrite (markPass_get (markPass s l)).
    rewrite (snapshotMarked_sameObjects _ _ l r Hsame).
    rewrite (promptMarked_sameObjects _ _ l r Hsame).
    destruct Hsame as [Hlen _]. rewrite Hlen.
    rewrite markPass_get. cbv zeta.
    destruct (snapshotMarked s l r), (promptMarked s 0%Z l r) as [n |],
      (Nat.ltb r (List.length s)); reflexivity.
Qed.

Lemma prepareEvents_store s events config :
  fst (prepareEvents s events config) = markPass s (js_sort (byTime s) events).
Proof. reflexivity. Qed.

Lemma prepareEvents_sameObjects s events config :
  sameObjects (fst (prepareEvents s events config)) s.
Proof. rewrite prepareEvents_store. apply markPass_sameObjects. Qed.

Lemma prepareEvents_eq s events config :
  prepareEvents s events config =
  (markPass s (js_sort (byTime s) events),
   preparedArray (markPass s (js_sort (byTime s) events))
                 (js_sort (byTime s) events) config).
Proof. reflexivity. Qed.

(** A pass over the store an earlier pass over the same array left
    changes nothing and returns the same array. *)
Lemma prepareEvents_again s events config :
  prepareEvents (fst (prepareEvents s events config)) events config
  = prepareEvents s events config.
Proof.
  pose proof (prepareEvents_sameObjects s events config) as Hsame.
  rewrite !prepareEvents_eq in *. cbn [fst] in *.
  set (sorted := js_sort (byTime s) events) in *.
  rewrite (js_sort_ext _ _ events (byTime_sameObjects _ _ Hsame)).
  fold sorted. rewrite markPass_idempotent. reflexivity.
Qed.

(** C10, as amended.  A preparation pass keeps the number of event
    objects and every property of each object other than the two
    annotations; it never clears an annotation: an object that had
    [hasSnapshotAfter] or [aiPromptLength] before the pass has it after;
    and a second pass over the same array, on the objects as the first
    pass left them, changes no object and returns the same array. *)
Theorem prepareEvents_annotates_in_place :
  forall (s : Store) (events : list Ref) (config : Config),
    let s' := fst (prepareEvents s events config) in
    List.length s' = List.length s
    /\ (forall r, stripAnnotations (getE s' r) = stripAnnotations (getE s r))
    /\ (forall r, hasSnapshotAfter (getE s r) = true ->
                  hasSnapshotAfter (getE s' r) = true)
    /\ (forall r, aiPromptLength (getE s r) <> None ->
                  aiPromptLength (getE s' r) <> None)
    /\ prepareEvents s' events config = prepareEvents s events config.
Proof.
  intros s events config s'.
  destruct (prepareEvents_sameObjects s events config) as [Hlen Hstrip].
  split; [exact Hlen |]. split; [exact Hstrip |].
  assert (Hget : forall r, getE s' r = getE (markPass s (js_sort (byTime s) events)) r)
    by reflexivity.
  split; [| split].
  - intros r H. rewrite Hget, markPass_get. cbv zeta.
    destruct (snapshotMarked s (js_sort (byTime s) events) r),
      (promptMarked s 0%Z (js_sort (byTime s) events) r) as [n |],
      (Nat.ltb r (List.length s)); cbn; auto.
  - intros r H. rewrite Hget, markPass_get. cbv zeta.
    destruct (snapshotMarked s (js_sort (byTime s) events) r),
      (promptMarked s 0%Z (js_sort (byTime s) events) r) as [n |],
      (Nat.ltb r (List.length s)); cbn; auto; discriminate.
  - apply prepareEvents_again.
Qed.

(** C10: the events of the caller are changed, and the change stays.
    After a pass over an edit followed by a snapshot the edit object
    carries [hasSnapshotAfter]; a later pass over the edit alone, where
    no snapshot follows, still finds it. *)
Lemma prepareEvents_mutates_events :
  let s0 := @parseStore rationalMath [rawEdit 1 "human"; rawOther 2 "snapshot" None] in
  let s1 := fst (prepareEvents s0 [0%nat; 1%nat] LEWITT_CONFIG) in
  let s2 := fst (prepareEvents s1 [0%nat] LEWITT_CONFIG) in
  s1 <> s0
  /\ hasSnapshotAfter (getE s0 0%nat) = false
  /\ hasSnapshotAfter (getE s1 0%nat) = true
  /\ hasSnapshotAfter (getE s2 0%nat) = true.
Proof.
  cbv zeta. split; [| repeat split; vm_compute; reflexivity].
  intro H. apply (f_equal (fun s => hasSnapshotAfter (getE s 0%nat))) in H.
  vm_compute in H. discriminate.
Qed.

(** * The prompt length and the normalizer *)

Section PromptFacts.
Context {M : MathLib}.

Lemma parseStore_prompt raws r : prompt (getE (parseStore raws) r) = None.
Proof.
  unfold getE, parseStore.
  destruct (Nat.lt_ge_cases r (List.length raws)) as [L | G].
  - rewrite (nth_indep _ noEvent (parseEvent (rawOther 0 "" None)))
      by (rewrite length_map; exact L).
    rewrite map_nth. reflexivity.
  - rewrite nth_overflow by (rewrite length_map; exact G). reflexivity.
Qed.

Lemma parseStore_aiPromptLength raws r :
  aiPromptLength (getE (parseStore raws) r) = None.
Proof.
  unfold getE, parseStore.
  destruct (Nat.lt_ge_cases r (List.length raws)) as [L | G].
  - rewrite (nth_indep _ noEvent (parseEvent (rawOther 0 "" None)))
      by (rewrite length_map; exact L).
    rewrite map_nth. reflexivity.
  - rewrite nth_overflow by (rewrite length_map; exact G). reflexivity.
Qed.
End PromptFacts.

(** Without a [prompt] property on any object the running length never
    leaves [0], and the second loop writes nothing. *)
Lemma promptMarked_no_prompt s l r :
  (forall a, prompt (getE s a) = None) -> promptMarked s 0%Z l r = None.
Proof.
  intro H. induction l as [| a rest IH]; [reflexivity |].
  cbn [promptMarked]. cbv zeta. rewrite H. cbn [truthyStr].
  rewrite andb_false_r.
  destruct (_ && _); [exact IH |].
  change (0 <? 0)%Z with false. rewrite andb_false_r. exact IH.
Qed.

(** C9.  For event objects made by the normalizer no preparation pass
    ever writes [aiPromptLength]: the normalizer copies neither [prompt]
    nor [to], so the running prompt length stays 0.  On the log
    [promptLog] (a prompt of length 5, two AI edits, a switch to human,
    an AI edit) no object gets a length; on the same objects with
    [prompt] and [to] carried over, the two AI edits after the prompt
    both get 5 and the edit after the switch gets none. *)
Theorem normalized_events_get_no_aiPromptLength :
  forall M : MathLib,
    (forall (raws : list RawEvent) (events : list Ref) (config : Config) (r : Ref),
        aiPromptLength
          (getE (fst (prepareEvents (parseStore raws) events config)) r) = None)
    /\ (let s' := fst (prepareEvents (parseStore promptLog) (parseRefs promptLog)
                                     LEWITT_CONFIG) in
        map (fun r => aiPromptLength (getE s' r)) (parseRefs promptLog)
        = [None; None; None; None; None])
    /\ (let carried :=
          map (fun r => withPromptAndTo (raw_prompt r) (raw_to r) (parseEvent r))
              promptLog in
        let s' := fst (prepareEvents carried (parseRefs promptLog) LEWITT_CONFIG) in
        map (fun r => aiPromptLength (getE s' r)) (parseRefs promptLog)
        = [None; Some 5%Z; Some 5%Z; None; None]).
Proof.
  intro M. split; [| split].
  - intros raws events config r.
    rewrite prepareEvents_store, markPass_get. cbv zeta.
    rewrite (promptMarked_no_prompt _ _ _ (parseStore_prompt raws)).
    destruct (_ && _); cbn [markSnapshot aiPromptLength];
      apply parseStore_aiPromptLength.
  - vm_compute. reflexivity.
  - vm_compute. reflexivity.
Qed.

(** * Two renders of the same events *)

(** C2.  With a nonzero seed, a second render of the same events, with
    the same configuration, canvas and scale, makes the same calls on
    the surface in the same order with equal arguments and has the same
    result; this holds although the second render starts from the event
    objects as the first one left them and at another time of day. *)
Theorem drawLeWittGrid_deterministic :
  forall (M : MathLib) (now1 now2 : Z) (s : Store) (events : list Ref)
         (canvasWidth canvasHeight : Q) (config : Config) (scale : Q)
         (usePointConnectionMode : bool),
    seed config <> 0%Z ->
    let first := drawLeWittGrid now1 s events canvasWidth canvasHeight config
                                scale usePointConnectionMode in
    let second := drawLeWittGrid now2 (storeAfter first) events canvasWidth
                                 canvasHeight config scale usePointConnectionMode in
    surfaceCalls second = surfaceCalls first
    /\ returned second = returned first
    /\ storeAfter second = storeAfter first.
Proof.
  intros M now1 now2 s events W H config scale mode Hseed first second.
  assert (Hstore : storeAfter first = fst (prepareEvents s events config)).
  { unfold first, drawLeWittGrid.
    destruct (prepareEvents s events config) as [s' prepared].
    destruct (drawPrepared _ _ _ _ _ _ _ _); reflexivity. }
  assert (Heq : second = first).
  { unfold second. rewrite Hstore. unfold first, drawLeWittGrid.
    rewrite prepareEvents_again.
    apply Z.eqb_neq in Hseed. rewrite Hseed. reflexivity. }
  rewrite Heq. auto.
Qed.

Lemma drawLeWittGrid_deterministic_witness :
  seed (seededConfig 12345 1) <> 0%Z
  /\ let config := seededConfig 12345 1 in
     let s := @parseStore rationalMath [rawEdit 1 "human"; rawOther 2 "snapshot" None] in
     let first := @drawLeWittGrid rationalMath 1000 s [0%nat; 1%nat] 800 600 config 1 true in
     let second := @drawLeWittGrid rationalMath 2000 (storeAfter first) [0%nat; 1%nat]
                                   800 600 config 1 true in
     surfaceCalls second = surfaceCalls first
     /\ returned second = returned first
     /\ storeAfter second = storeAfter first.
Proof.
  split.
  - cbn. discriminate.
  - apply (drawLeWittGrid_deterministic rationalMath 1000 2000). cbn. discriminate.
Defined.

(** * The walk over the grid *)

Section GridFacts.
Context {M : MathLib}.

Lemma drawCell_null cellX cellY cellW cellH scale collectPoints st :
  drawCell None cellX cellY cellW cellH scale collectPoints st = Thrown st.
Proof. reflexivity. Qed.

Lemma eventAt_None s prepared i :
  eventAt s prepared i = None <-> (List.length prepared <= i)%nat.
Proof.
  unfold eventAt. destruct (nth_error prepared i) as [r |] eqn:E.
  - split; [discriminate |]. intro H. apply nth_error_None in H. congruence.
  - split; auto. intros _. apply nth_error_None. exact E.
Qed.

Lemma drawCells_eq s prepared gridSize margin cellW cellH scale :
  drawCells s prepared gridSize margin cellW cellH scale =
  loopWith (seq 0 (Z.to_nat gridSize)) (0%nat, []) (fun acc row =>
    loopWith (seq 0 (Z.to_nat gridSize)) acc
             (cellTurn s prepared gridSize margin cellW cellH scale row)).
Proof. reflexivity. Qed.

(** A turn that returns has found an event at [eventIdx]. *)
Lemma cellTurn_returns s prepared gridSize margin cellW cellH scale row
      eventIdx points c st j points' st' :
  cellTurn s prepared gridSize margin cellW cellH scale row (eventIdx, points) c st
  = Returned (j, points') st' ->
  j = S eventIdx /\ (eventIdx < List.length prepared)%nat.
Proof.
  unfold cellTurn, bind.
  destruct (eventAt s prepared eventIdx) as [e |] eqn:Hev.
  - match goal with
    | |- context [drawCell ?a ?b ?c ?d ?e ?f ?g ?h] =>
        destruct (drawCell a b c d e f g h) as [pts st1 | st1]
    end; [| discriminate].
    cbn [ret]. intro H. inversion H; subst. split; [reflexivity |].
    destruct (Nat.lt_ge_cases eventIdx (List.length prepared)) as [L | G]; auto.
    apply (proj2 (eventAt_None s prepared eventIdx)) in G.
    rewrite G in Hev. discriminate.
  - rewrite drawCell_null. discriminate.
Qed.

(** A row of the grid, when it returns, has consumed one event per
    turn, and none of them was missing. *)
Lemma row_consumes s prepared gridSize margin cellW cellH scale row cols :
  forall eventIdx points st j points' st',
    loopWith cols (eventIdx, points)
             (cellTurn s prepared gridSize margin cellW cellH scale row) st
    = Returned (j, points') st' ->
    j = (eventIdx + List.length cols)%nat
    /\ (cols <> [] -> (j <= List.length prepared)%nat).
Proof.
  induction cols as [| c rest IH]; intros eventIdx points st j points' st' H.
  - inversion H; subst. cbn [List.length]. split; [lia | congruence].
  - cbn [loopWith] in H. unfold bind at 1 in H.
    destruct (cellTurn s prepared gridSize margin cellW cellH scale row
                       (eventIdx, points) c st) as [[j1 pts1] st1 |] eqn:Hturn;
      [| discriminate].
    apply cellTurn_returns in Hturn. destruct Hturn as [Hj1 Hlt]. subst j1.
    apply IH in H. destruct H as [Hj Hle].
    cbn [List.length]. split; [lia |]. intros _.
    destruct rest as [| c' rest'].
    + cbn [List.length] in Hj. lia.
    + apply Hle. discriminate.
Qed.

Lemma rows_consume s prepared gridSize margin cellW cellH scale cols rows :
  cols <> [] ->
  forall acc st j points' st',
    loopWith rows acc (fun acc row =>
      loopWith cols acc
               (cellTurn s prepared gridSize margin cellW cellH scale row)) st
    = Returned (j, points') st' ->
    j = (fst acc + List.length rows * List.length cols)%nat
    /\ (rows <> [] -> (j <= List.length prepared)%nat).
Proof.
  intro Hcols.
  induction rows as [| row rest IH]; intros acc st j points' st' H.
  - inversion H; subst. cbn. split; [lia | congruence].
  - cbn [loopWith] in H. unfold bind in H.
    destruct acc as [eventIdx points].
    destruct (loopWith cols (eventIdx, points) _ st) as [[j1 pts1] st1 |] eqn:Hrow;
      [| discriminate].
    apply row_consumes in Hrow. destruct Hrow as [Hj1 Hle1].
    apply IH in H. destruct H as [Hj Hle]. cbn [fst] in *.
    cbn [List.length]. split; [lia |]. intros _.
    destruct rest as [| row' rest'].
    + cbn [List.length] in Hj. specialize (Hle1 Hcols). lia.
    + apply Hle. discriminate.
Qed.

Lemma drawCells_returns_full s prepared gridSize margin cellW cellH scale st j pts st' :
  drawCells s prepared gridSize margin cellW cellH scale st = Returned (j, pts) st' ->
  j = (Z.to_nat gridSize * Z.to_nat gridSize)%nat
  /\ (Z.to_nat gridSize * Z.to_nat gridSize <= List.length prepared)%nat.
Proof.
  rewrite drawCells_eq. intro H.
  destruct (Z.to_nat gridSize) as [| k] eqn:Hn.
  - inversion H; subst. split; lia.
  - apply rows_consume in H; [| cbn; discriminate].
    rewrite length_seq in H. cbn [fst] in H. destruct H as [Hj Hle].
    assert (Hne : seq 0 (S k) <> []) by (cbn; discriminate).
    specialize (Hle Hne). split; lia.
Qed.
End GridFacts.

Lemma prepareEvents_nil s config : prepareEvents s [] config = (s, []).
Proof.
  unfold prepareEvents. cbn.
  destruct (maxEvents config); cbn;
    destruct (String.eqb (order config) "time");
    destruct (String.eqb (order config) "severity");
    destruct (String.eqb (order config) "type_blocks"); reflexivity.
Qed.

Lemma calculateGridSize_zero config :
  (0 <= minGridSize config)%Z -> calculateGridSize 0 config = minGridSize config.
Proof.
  intro H. unfold calculateGridSize, clampZ. rewrite N.min_0_l.
  change (Math_round_sqrt 0) with 0%Z. lia.
Qed.

Lemma drawCells_no_events {M : MathLib} s gridSize margin cellW cellH scale st :
  (1 <= gridSize)%Z ->
  drawCells s [] gridSize margin cellW cellH scale st = Thrown st.
Proof.
  intro H. unfold drawCells.
  destruct (Z.to_nat gridSize) as [| k] eqn:Hn; [lia |].
  reflexivity.
Qed.

Lemma bind_g_call {B} (c : DrawCall) (k : unit -> Draw B) st :
  bind (g_call c) k st = k tt {| calls := calls st ++ [c]; rngSeed := rngSeed st |}.
Proof. reflexivity. Qed.

Lemma bind_Thrown {A B} (c : Draw A) (k : A -> Draw B) st st' :
  c st = Thrown st' -> bind c k st = Thrown st'.
Proof. intro H. unfold bind. rewrite H. reflexivity. Qed.

(** ** The order of the cells *)

Lemma flat_map_rows_length {A} (f : nat -> list A) n m :
  (forall row, List.length (f row) = n) ->
  List.length (flat_map f (seq 0 m)) = (m * n)%nat.
Proof.
  intro Hf. induction m as [| m IH]; [reflexivity |].
  rewrite seq_S, flat_map_app, length_app, IH. cbn [flat_map].
  rewrite app_nil_r, Hf. cbn [Nat.add]. lia.
Qed.

Lemma flat_map_rows_nth {A} (f : nat -> list A) n m k :
  (forall row, List.length (f row) = n) ->
  (k < m * n)%nat ->
  nth_error (flat_map f (seq 0 m)) k = nth_error (f (k / n)%nat) (k mod n)%nat.
Proof.
  intros Hf. induction m as [| m IH]; intro Hk; [lia |].
  assert (Hn : (0 < n)%nat) by nia.
  rewrite seq_S, flat_map_app. cbn [flat_map Nat.add]. rewrite app_nil_r.
  destruct (Nat.lt_ge_cases k (m * n)) as [L | G].
  - rewrite nth_error_app1 by (rewrite (flat_map_rows_length f n m Hf); exact L).
    apply IH. exact L.
  - rewrite nth_error_app2 by (rewrite (flat_map_rows_length f n m Hf); exact G).
    rewrite (flat_map_rows_length f n m Hf).
    assert (Hdiv : (k / n = m)%nat).
    { symmetry. apply (Nat.div_unique k n m (k - m * n)); lia. }
    assert (Hmod : (k mod n = k - m * n)%nat).
    { symmetry. apply (Nat.mod_unique k n m (k - m * n)); lia. }
    rewrite Hdiv, Hmod. reflexivity.
Qed.

Lemma cellOrder_length gridSize :
  List.length (cellOrder gridSize) = (Z.to_nat gridSize * Z.to_nat gridSize)%nat.
Proof.
  unfold cellOrder. apply flat_map_rows_length.
  intro row. rewrite length_map, length_seq. reflexivity.
Qed.

(** The [k]-th cell reached is in row [k / n], at the column of turn
    [k mod n] of that row. *)
Lemma cellOrder_nth gridSize k :
  let n := Z.to_nat gridSize in
  (k < n * n)%nat ->
  nth_error (cellOrder gridSize) k
  = Some ((k / n)%nat, cellColumn gridSize (k / n) (k mod n)).
Proof.
  intros n Hk. unfold cellOrder. fold n.
  rewrite (flat_map_rows_nth _ n n k); [| | exact Hk].
  - assert (Hn : (0 < n)%nat) by nia.
    rewrite nth_error_map.
    rewrite nth_error_seq. 
    pose proof (Nat.mod_upper_bound k n ltac:(lia)) as Hm.
    destruct (Nat.ltb_spec (k mod n) n); [reflexivity | lia].
  - intro row. rewrite length_map, length_seq. reflexivity.
Qed.

Lemma cellColumn_range gridSize row colIdx :
  (colIdx < Z.to_nat gridSize)%nat ->
  (0 <= cellColumn gridSize row colIdx < gridSize)%Z.
Proof. unfold cellColumn. destruct (Nat.even row); lia. Qed.

(** Along a row the column goes up when the row is even and down when it
    is odd. *)
Lemma cellColumn_direction gridSize row c1 c2 :
  (c1 < c2)%nat ->
  (Nat.even row = true ->
   (cellColumn gridSize row c1 < cellColumn gridSize row c2)%Z)
  /\ (Nat.even row = false ->
      (cellColumn gridSize row c2 < cellColumn gridSize row c1)%Z).
Proof. unfold cellColumn. destruct (Nat.even row); split; intros; try discriminate; lia. Qed.

Lemma cellOrder_NoDup gridSize : NoDup (cellOrder gridSize).
Proof.
  apply (proj2 (NoDup_nth_error (cellOrder gridSize))).
  intros i j Hi Heq. rewrite cellOrder_length in Hi.
  set (n := Z.to_nat gridSize) in *.
  assert (Hn : (0 < n)%nat) by nia.
  rewrite (cellOrder_nth gridSize i Hi) in Heq. fold n in Heq.
  destruct (Nat.lt_ge_cases j (n * n)) as [Hj | Hj].
  - rewrite (cellOrder_nth gridSize j Hj) in Heq. fold n in Heq.
    inversion Heq as [[Hrow Hcol]]. rewrite Hrow in Hcol.
    assert (Hm : (i mod n = j mod n)%nat).
    { unfold cellColumn in Hcol. destruct (Nat.even (j / n)); lia. }
    rewrite (Nat.div_mod_eq i n), (Nat.div_mod_eq j n). rewrite Hrow, Hm. reflexivity.
  - assert (Hnone : nth_error (cellOrder gridSize) j = None).
    { apply nth_error_None. rewrite cellOrder_length. exact Hj. }
    rewrite Hnone in Heq. discriminate.
Qed.

(** ** The loops as a walk over the cell order *)

Section Walk.
Context {M : MathLib}.

Lemma loopWith_app {A S} (l1 l2 : list A) (body : S -> A -> Draw S) acc st :
  loopWith (l1 ++ l2) acc body st
  = bind (loopWith l1 acc body) (fun acc' => loopWith l2 acc' body) st.
Proof.
  revert acc st. induction l1 as [| a rest IH]; intros acc st; [reflexivity |].
  cbn [app loopWith]. unfold bind.
  destruct (body acc a st) as [acc1 st1 | st1]; [| reflexivity].
  rewrite IH. reflexivity.
Qed.

Variables (s : Store) (preparedEvents : list Ref) (gridSize : Z).
Variables (margin cellW cellH scale : Q).

Lemma row_walk row cols : forall eventIdx points st,
  loopWith cols (eventIdx, points)
           (cellTurn s preparedEvents gridSize margin cellW cellH scale row) st
  = withCounter (eventIdx + List.length cols)
      (loopWith (combine (map (fun colIdx => (row, cellColumn gridSize row colIdx)) cols)
                         (seq eventIdx (List.length cols)))
                points
                (visitCell s preparedEvents margin cellW cellH scale) st).
Proof.
  induction cols as [| c rest IH]; intros eventIdx points st.
  - cbn. rewrite Nat.add_0_r. reflexivity.
  - cbn [loopWith map List.length seq combine].
    unfold cellTurn at 1. unfold visitCell at 1. unfold bind.
    match goal with
    | |- context [drawCell ?a ?b ?c ?d ?e ?f ?g ?h] =>
        destruct (drawCell a b c d e f g h) as [pts st1 | st1]
    end; [| reflexivity].
    cbn [ret]. rewrite IH. rewrite Nat.add_succ_comm. reflexivity.
Qed.

Lemma combine_app_seq {A} (l1 l2 : list A) i :
  combine (l1 ++ l2) (seq i (List.length l1 + List.length l2))
  = combine l1 (seq i (List.length l1))
    ++ combine l2 (seq (i + List.length l1) (List.length l2)).
Proof.
  revert i. induction l1 as [| a rest IH]; intro i.
  - cbn. rewrite Nat.add_0_r. reflexivity.
  - cbn [app List.length Nat.add seq combine]. rewrite IH.
    rewrite Nat.add_succ_comm. reflexivity.
Qed.

Lemma rows_walk cols rows : forall eventIdx points st,
  let cells := flat_map (fun row =>
                 map (fun colIdx => (row, cellColumn gridSize row colIdx)) cols) rows in
  loopWith rows (eventIdx, points) (fun acc row =>
    loopWith cols acc
             (cellTurn s preparedEvents gridSize margin cellW cellH scale row)) st
  = withCounter (eventIdx + List.length cells)
      (loopWith (combine cells (seq eventIdx (List.length cells))) points
                (visitCell s preparedEvents margin cellW cellH scale) st).
Proof.
  induction rows as [| row rest IH]; intros eventIdx points st.
  - cbn. rewrite Nat.add_0_r. reflexivity.
  - cbv zeta in *. cbn [loopWith flat_map]. unfold bind at 1.
    rewrite row_walk.
    rewrite length_app, combine_app_seq, loopWith_app.
    unfold bind at 1.
    rewrite length_map.
    destruct (loopWith (combine (map _ cols) (seq eventIdx (List.length cols))) points
                       _ st) as [pts1 st1 | st1]; [| reflexivity].
    cbn [withCounter]. rewrite IH. rewrite Nat.add_assoc. reflexivity.
Qed.

(** The two loops visit the cells of [cellOrder] in order and hand the
    [k]-th of them the [k]-th prepared event. *)
Lemma drawCells_walk st :
  let n := Z.to_nat gridSize in
  drawCells s preparedEvents gridSize margin cellW cellH scale st
  = withCounter (n * n)
      (loopWith (combine (cellOrder gridSize) (seq 0 (n * n))) []
                (visitCell s preparedEvents margin cellW cellH scale) st).
Proof.
  intro n. unfold drawCells. rewrite rows_walk. fold (cellOrder gridSize).
  rewrite cellOrder_length. reflexivity.
Qed.
End Walk.

(** ** Which cells return *)

Lemma returns_ret {A} (a : A) : returns (ret a).
Proof. intro st. exists a, st. reflexivity. Qed.

Lemma returns_bind {A B} (c : Draw A) (k : A -> Draw B) :
  returns c -> (forall a, returns (k a)) -> returns (bind c k).
Proof.
  intros Hc Hk st. destruct (Hc st) as (a & st1 & H1).
  destruct (Hk a st1) as (b & st2 & H2).
  exists b, st2. unfold bind. rewrite H1. exact H2.
Qed.

Lemma returns_g_call c : returns (g_call c).
Proof. intro st. eexists _, _. reflexivity. Qed.

Lemma returns_rng_range lo hi : returns (rng_range lo hi).
Proof.
  intro st. unfold rng_range, bind, rng_next.
  destruct (mulberry32 (rngSeed st)) as [seed1 v]. eexists _, _. reflexivity.
Qed.

Lemma returns_forEach {A} (l : list A) (body : A -> Draw unit) :
  (forall a, returns (body a)) -> returns (forEach l body).
Proof.
  intro Hb. induction l as [| a rest IH]; cbn [forEach].
  - apply returns_ret.
  - apply returns_bind; [apply Hb | intros _; exact IH].
Qed.

Lemma returns_loopWith {A S} (l : list A) (body : S -> A -> Draw S) :
  (forall acc a, returns (body acc a)) -> forall acc, returns (loopWith l acc body).
Proof.
  intro Hb. induction l as [| a rest IH]; intro acc; cbn [loopWith].
  - apply returns_ret.
  - apply returns_bind; [apply Hb | intro acc'; apply IH].
Qed.

Section Totality.
Context {M : MathLib}.

Lemma returns_drawHatchLines cellX cellY cellW cellH angleDeg spacing weight alpha
    scale eraseRatio :
returns (drawHatchLines cellX cellY cellW cellH angleDeg spacing weight alpha
                        scale eraseRatio).
Proof.
unfold drawHatchLines. cbv zeta.
apply returns_bind; [apply returns_g_call |]. intros _.
apply returns_bind; [apply returns_g_call |]. intros _.
apply returns_forEach. intro i.
destruct (clipLineToRect _ _ _ _ _ _ _ _) as [[[[c0 c1] c2] c3] |];
  [| apply returns_ret].
destruct (if Qltb 0 eraseRatio then _ else _) as [rect |].
- apply returns_forEach. intros [[[p q] r] u]. apply returns_g_call.
- apply returns_g_call.
Qed.

Lemma returns_collectBoundaryPoints cellX cellY cellW cellH count :
returns (collectBoundaryPoints cellX cellY cellW cellH count).
Proof.
unfold collectBoundaryPoints. cbv zeta.
apply returns_loopWith. intros points _.
apply returns_bind; [apply returns_rng_range |]. intro angle.
destruct (getRayBoundaryIntersection _ _ _ _ _ _ _); apply returns_ret.
Qed.

Lemma returns_drawPointSymmetricLines cellX cellY cellW cellH count scale :
returns (drawPointSymmetricLines cellX cellY cellW cellH count scale).
Proof.
unfold drawPointSymmetricLines. cbv zeta.
apply returns_bind; [apply returns_collectBoundaryPoints |]. intro points.
apply returns_bind; [apply returns_g_call |]. intros _.
apply returns_bind; [apply returns_g_call |]. intros _.
apply returns_bind.
{ apply returns_forEach. intros [px py].
  destruct (clipLineToRect _ _ _ _ _ _ _ _) as [[[[c0 c1] c2] c3] |];
    [apply returns_g_call | apply returns_ret]. }
intros _.
apply returns_bind; [apply returns_g_call |]. intros _.
apply returns_bind; [apply returns_g_call |]. intros _.
apply returns_forEach. intros [px py]. apply returns_g_call.
Qed.

Lemma returns_drawPolicyViolationCell cellX cellY cellW cellH severity scale :
returns (drawPolicyViolationCell cellX cellY cellW cellH severity scale).
Proof.
unfold drawPolicyViolationCell. cbv zeta.
apply returns_bind; [apply returns_g_call |]. intros _.
apply returns_bind; [apply returns_g_call |]. intros _.
apply returns_bind; [apply returns_g_call |]. intros _.
apply returns_forEach. intro angle. apply returns_drawHatchLines.
Qed.

(** On an event that is not [null], [drawCell] returns. *)
Lemma returns_drawCell e cellX cellY cellW cellH scale collectPoints :
returns (drawCell (Some e) cellX cellY cellW cellH scale collectPoints).
Proof.
unfold drawCell. destruct (cellBorder (Some e) scale) as [borderWeight borderAlpha].
apply returns_bind; [apply returns_ret |]. intro logged.
apply returns_bind; [apply returns_ret |]. intros _.
apply returns_bind; [apply returns_g_call |]. intros _.
apply returns_bind; [apply returns_g_call |]. intros _.
apply returns_bind; [apply returns_g_call |]. intros _.
apply returns_bind; [apply returns_g_call |]. intros _.
destruct (String.eqb (event e) "policy_violation").
- apply returns_bind; [apply returns_drawPolicyViolationCell |]. intros _.
  apply returns_ret.
- cbv zeta. apply returns_bind.
  { destruct (getHatchAngle e); [apply returns_drawHatchLines | |]; apply returns_ret. }
  intros _.
  destruct (String.eqb (event e) "edit"); [| apply returns_ret].
  destruct (delta e) as [d |]; [| apply returns_ret].
  destruct (0 <? added_chars d + deleted_chars d)%Z; [| apply returns_ret].
  destruct (0 <? clampZ _ _ _)%Z; [| apply returns_ret].
  destruct collectPoints.
  + apply returns_collectBoundaryPoints.
  + apply returns_bind; [apply returns_drawPointSymmetricLines |]. intros _.
    apply returns_ret.
Qed.
End Totality.

Lemma returns_loopWith_Forall {A S} (l : list A) (body : S -> A -> Draw S) :
  Forall (fun a => forall acc, returns (body acc a)) l ->
  forall acc, returns (loopWith l acc body).
Proof.
  induction 1 as [| a rest Ha Hrest IH]; intro acc; cbn [loopWith].
  - apply returns_ret.
  - apply returns_bind; [apply Ha | intro acc'; apply IH].
Qed.

Lemma returns_visitCell {M : MathLib} s prepared margin cellW cellH scale points
      row col k :
  (k < List.length prepared)%nat ->
  returns (visitCell s prepared margin cellW cellH scale points ((row, col), k)).
Proof.
  intro Hk. unfold visitCell, eventAt.
  destruct (nth_error prepared k) as [r |] eqn:E.
  - apply returns_bind; [apply returns_drawCell |]. intro cellPoints.
    apply returns_ret.
  - apply nth_error_None in E. lia.
Qed.

(** With an event for every cell the two loops return, after [n * n]
    turns. *)
Lemma drawCells_returns {M : MathLib} s prepared gridSize margin cellW cellH scale st :
  (Z.to_nat gridSize * Z.to_nat gridSize <= List.length prepared)%nat ->
  exists points st',
    drawCells s prepared gridSize margin cellW cellH scale st
    = Returned ((Z.to_nat gridSize * Z.to_nat gridSize)%nat, points) st'.
Proof.
  intro Hle. rewrite drawCells_walk. cbv zeta.
  set (n := Z.to_nat gridSize) in *.
  assert (Hret : returns (loopWith (combine (cellOrder gridSize) (seq 0 (n * n))) []
                            (visitCell s prepared margin cellW cellH scale))).
  { apply returns_loopWith_Forall. apply Forall_forall.
    intros [[row col] k] Hin points.
    apply in_combine_r in Hin. apply in_seq in Hin.
    apply returns_visitCell. lia. }
  destruct (Hret st) as (points & st' & H). rewrite H.
  exists points, st'. reflexivity.
Qed.

(** ** The render of too few events *)

(** C1.  With a positive [minGridSize], the render of an empty event
    array computes the grid size [minGridSize] and then throws: the call
    of [drawCell] on [null] throws before it draws, whatever the cell
    (on an event that is not [null] it returns), so the render returns
    nothing and the only calls made on the surface are the two that
    precede the loops. *)
Theorem drawLeWittGrid_no_events_throws :
  forall (M : MathLib) (now : Z) (s : Store) (canvasWidth canvasHeight : Q)
         (config : Config) (scale : Q) (usePointConnectionMode : bool),
    (1 <= minGridSize config)%Z ->
    let result := drawLeWittGrid now s [] canvasWidth canvasHeight config scale
                                 usePointConnectionMode in
    calculateGridSize 0 config = minGridSize config
    /\ (forall cellX cellY cellW cellH collectPoints st,
          drawCell None cellX cellY cellW cellH scale collectPoints st = Thrown st)
    /\ (forall e cellX cellY cellW cellH collectPoints,
          returns (drawCell (Some e) cellX cellY cellW cellH scale collectPoints))
    /\ returned result = None
    /\ surfaceCalls result = [g_strokeCap_SQUARE; g_noFill].
Proof.
  intros M now s W H config scale mode Hmin result.
  assert (Hgrid : calculateGridSize 0 config = minGridSize config)
    by (apply calculateGridSize_zero; lia).
  split; [exact Hgrid |]. split; [intros; reflexivity |].
  split; [intros; apply returns_drawCell |].
  unfold result, drawLeWittGrid. rewrite prepareEvents_nil.
  unfold drawPrepared. cbn [List.length N.of_nat]. rewrite Hgrid.
  rewrite !bind_g_call.
  rewrite (bind_Thrown _ _ _ _ (drawCells_no_events _ _ _ _ _ _ _ Hmin)).
  split; reflexivity.
Qed.

Lemma drawLeWittGrid_no_events_throws_witness :
  (1 <= minGridSize LEWITT_CONFIG)%Z
  /\ let result := @drawLeWittGrid rationalMath 1700000000000 [] [] 1512 2150
                                   LEWITT_CONFIG 1 true in
     calculateGridSize 0 LEWITT_CONFIG = minGridSize LEWITT_CONFIG
     /\ (forall cellX cellY cellW cellH collectPoints st,
           @drawCell rationalMath None cellX cellY cellW cellH 1 collectPoints st
           = Thrown st)
     /\ (forall e cellX cellY cellW cellH collectPoints,
           returns (@drawCell rationalMath (Some e) cellX cellY cellW cellH 1
                              collectPoints))
     /\ returned result = None
     /\ surfaceCalls result = [g_strokeCap_SQUARE; g_noFill].
Proof.
  split.
  - cbn. lia.
  - apply (drawLeWittGrid_no_events_throws rationalMath). cbn. lia.
Defined.

(** C8.  The two loops reach all [n * n] cells, and return, exactly
    when there is a prepared event for every cell; when the prepared
    events are fewer than the cells they throw (in the first cell whose
    event is [null], by [drawCell_null]) and the remaining cells are
    never reached. *)
Theorem drawCells_throws_iff_events_run_out :
  forall (M : MathLib) (s : Store) (preparedEvents : list Ref) (gridSize : Z)
         (margin cellW cellH scale : Q) (st : RenderState),
    let cells := (Z.to_nat gridSize * Z.to_nat gridSize)%nat in
    ((List.length preparedEvents < cells)%nat ->
     exists st', drawCells s preparedEvents gridSize margin cellW cellH scale st
                 = Thrown st')
    /\ ((cells <= List.length preparedEvents)%nat ->
        exists points st',
          drawCells s preparedEvents gridSize margin cellW cellH scale st
          = Returned (cells, points) st').
Proof.
  intros M s prepared gridSize margin cellW cellH scale st cells. split.
  - intro Hlt.
    destruct (drawCells s prepared gridSize margin cellW cellH scale st)
      as [[j pts] st' | st'] eqn:H.
    + apply drawCells_returns_full in H. unfold cells in Hlt. lia.
    + exists st'. reflexivity.
  - intro Hle. apply drawCells_returns. exact Hle.
Qed.

(** * The helpers, the generator and the hatch angle *)

(** ** 32-bit words *)

Lemma ToUint32_range z : (0 <= ToUint32 z < two32)%Z.
Proof. unfold ToUint32, two32. apply Z.mod_pos_bound. lia. Qed.

Lemma ToInt32_range z : (- 2147483648 <= ToInt32 z < 2147483648)%Z.
Proof.
  unfold ToInt32, two32.
  pose proof (Z.mod_pos_bound (z + 2147483648) 4294967296 ltac:(lia)). lia.
Qed.

Lemma ToInt32_shift z k : ToInt32 (z + k * two32) = ToInt32 z.
Proof.
  unfold ToInt32. replace (z + k * two32 + 2147483648)%Z
    with (z + 2147483648 + k * two32)%Z by ring.
  rewrite Z_mod_plus_full. reflexivity.
Qed.

Lemma ToUint32_shift z k : ToUint32 (z + k * two32) = ToUint32 z.
Proof. unfold ToUint32. apply Z_mod_plus_full. Qed.

Lemma ToInt32_wraps z : exists k, ToInt32 z = (z + k * two32)%Z.
Proof.
  unfold ToInt32. exists (- ((z + 2147483648) / two32))%Z.
  pose proof (Z.div_mod (z + 2147483648) two32 ltac:(unfold two32; lia)) as H.
  lia.
Qed.

Lemma ToInt32_small z : (- 2147483648 <= z < 2147483648)%Z -> ToInt32 z = z.
Proof.
  intro H. unfold ToInt32, two32. rewrite Z.mod_small by lia. lia.
Qed.

Lemma ToInt32_idem z : ToInt32 (ToInt32 z) = ToInt32 z.
Proof. apply ToInt32_small. apply ToInt32_range. Qed.

(** ** The generator *)

Lemma unit_fraction u n :
  (0 <= u < n)%Z -> 0 <= inject_Z u / inject_Z n /\ inject_Z u / inject_Z n < 1.
Proof.
  intros [H0 H1].
  assert (Hn : 0 < inject_Z n) by (change 0 with (inject_Z 0); rewrite <- Zlt_Qlt; lia).
  split.
  - apply Qle_shift_div_l; [exact Hn |]. rewrite Qmult_0_l.
    change 0 with (inject_Z 0). rewrite <- Zle_Qle. exact H0.
  - apply Qlt_shift_div_r; [exact Hn |]. rewrite Qmult_1_l.
    rewrite <- Zlt_Qlt. exact H1.
Qed.

(** X1.  [SeededRandom.next] adds [0x6D2B79F5] to the seed and returns
    a number of the form [n / 2^32] with [0 <= n < 2^32], so a number
    in [[0, 1)]; the number depends only on the seed modulo [2^32]. *)
Theorem mulberry32_unit_interval_and_period :
  forall seed0 : Z,
    fst (mulberry32 seed0) = (seed0 + 1831565813)%Z
    /\ 0 <= snd (mulberry32 seed0) /\ snd (mulberry32 seed0) < 1
    /\ (exists n : Z, (0 <= n < 4294967296)%Z
                      /\ snd (mulberry32 seed0) = inject_Z n / 4294967296)
    /\ forall k : Z, snd (mulberry32 (seed0 + k * 4294967296)) = snd (mulberry32 seed0).
Proof.
  intro seed0. unfold mulberry32. cbn [fst snd].
  split; [reflexivity |].
  match goal with |- context [inject_Z (ToUint32 ?x) / _] => set (u := ToUint32 x) end.
  pose proof (unit_fraction u two32) as Hu.
  assert (Hr : (0 <= u < two32)%Z) by apply ToUint32_range.
  specialize (Hu Hr).
  split; [apply Hu |]. split; [apply Hu |]. split.
  - exists u. split; [exact Hr | reflexivity].
  - intro k. unfold u.
    replace (seed0 + k * 4294967296 + 1831565813)%Z
      with (seed0 + 1831565813 + k * two32)%Z by (unfold two32; ring).
    set (t := (seed0 + 1831565813)%Z).
    assert (Hx : forall n, js_ushr (t + k * two32) n = js_ushr t n).
    { intro n. unfold js_ushr. rewrite ToUint32_shift. reflexivity. }
    assert (Hxor : forall b, js_xor (t + k * two32) b = js_xor t b).
    { intro b. unfold js_xor. rewrite ToInt32_shift. reflexivity. }
    assert (Hor : forall b, js_or (t + k * two32) b = js_or t b).
    { intro b. unfold js_or. rewrite ToInt32_shift. reflexivity. }
    rewrite Hx, Hxor, Hor. reflexivity.
Qed.

Lemma mulberry32_value_range seed0 :
  0 <= snd (mulberry32 seed0) /\ snd (mulberry32 seed0) < 1.
Proof.
  unfold mulberry32. cbn [snd]. apply unit_fraction. apply ToUint32_range.
Qed.

Lemma rng_range_run lo hi st :
  rng_range lo hi st
  = Returned (lo + snd (mulberry32 (rngSeed st)) * (hi - lo))
             {| calls := calls st; rngSeed := (rngSeed st + 1831565813)%Z |}.
Proof.
  unfold rng_range, bind, rng_next, mulberry32. reflexivity.
Qed.

(** X2.  For [min <= max], [range(min, max)] advances the generator by
    one step, touches nothing else and returns a number in
    [[min, max]], below [max] when [min < max]; for integers
    [min <= max], [int(min, max)] returns an integer of [[min, max]]. *)
Theorem rng_range_int_bounds :
  forall (lo hi : Q) (st : RenderState),
    lo <= hi ->
    (exists v,
        rng_range lo hi st
        = Returned v {| calls := calls st; rngSeed := (rngSeed st + 1831565813)%Z |}
        /\ lo <= v /\ v <= hi /\ (lo < hi -> v < hi))
    /\ (forall a b : Z, lo == inject_Z a -> hi == inject_Z b ->
        exists n,
          rng_int lo hi st
          = Returned n {| calls := calls st; rngSeed := (rngSeed st + 1831565813)%Z |}
          /\ (a <= n <= b)%Z).
Proof.
  intros lo hi st Hle.
  destruct (mulberry32_value_range (rngSeed st)) as [H0 H1].
  set (u := snd (mulberry32 (rngSeed st))) in *.
  split.
  - exists (lo + u * (hi - lo)). split; [apply rng_range_run |].
    assert (Hp : 0 <= u * (hi - lo)) by (apply Qmult_le_0_compat; lra).
    assert (Hq : 0 <= (1 - u) * (hi - lo)) by (apply Qmult_le_0_compat; lra).
    split; [lra |]. split; [lra |]. intro Hlt.
    assert (Hr : 0 < (1 - u) * (hi - lo)) by (apply Qmult_lt_0_compat; lra).
    lra.
  - intros a b Ha Hb. unfold rng_int, bind. rewrite rng_range_run. fold u.
    cbn [ret]. eexists. split; [reflexivity |].
    unfold Math_floor.
    assert (Hp : 0 <= u * (hi + 1 - lo)) by (apply Qmult_le_0_compat; lra).
    assert (Hq : 0 < (1 - u) * (hi + 1 - lo)) by (apply Qmult_lt_0_compat; lra).
    assert (Hlow : inject_Z a <= lo + u * (hi + 1 - lo)) by lra.
    assert (Hup : lo + u * (hi + 1 - lo) < inject_Z (b + 1)).
    { rewrite inject_Z_plus. change (inject_Z 1) with 1. lra. }
    split.
    + rewrite <- (Qfloor_Z a). apply Qfloor_resp_le. exact Hlow.
    + pose proof (Qfloor_le (lo + u * (hi + 1 - lo))) as Hf.
      assert (Hlt : inject_Z (Qfloor (lo + u * (hi + 1 - lo))) < inject_Z (b + 1)) by lra.
      rewrite <- Zlt_Qlt in Hlt. lia.
Qed.

Lemma rng_range_int_bounds_witness :
  0 <= 6 /\
  exists n,
    rng_int 0 6 {| calls := []; rngSeed := 12345 |}
    = Returned n {| calls := []; rngSeed := (12345 + 1831565813)%Z |}
    /\ (0 <= n <= 6)%Z.
Proof.
  assert (H : 0 <= 6) by lra.
  split; [exact H |].
  destruct (rng_range_int_bounds 0 6 {| calls := []; rngSeed := 12345 |} H) as [_ Hint].
  apply (Hint 0%Z 6%Z); reflexivity.
Defined.

(** ** The string hash *)

Lemma hashStep_wraps h c :
  hashStep (ToInt32 h) c = ToInt32 (31 * h + Z.of_nat (nat_of_ascii c)).
Proof.
  unfold hashStep, js_and, js_shl. rewrite Z.land_diag, ToInt32_idem.
  rewrite Z.shiftl_mul_pow2 by lia. change (2 ^ 5)%Z with 32%Z.
  destruct (ToInt32_wraps h) as [k Hk]. rewrite Hk.
  destruct (ToInt32_wraps ((h + k * two32) * 32)) as [k2 Hk2]. rewrite Hk2.
  replace ((h + k * two32) * 32 + k2 * two32 - (h + k * two32)
           + Z.of_nat (nat_of_ascii c))%Z
    with (31 * h + Z.of_nat (nat_of_ascii c) + (31 * k + k2) * two32)%Z by ring.
  apply ToInt32_shift.
Qed.

Lemma hash_fold_wraps l : forall h,
  fold_left hashStep l (ToInt32 h) = ToInt32 (polynomialHash h l).
Proof.
  induction l as [| c rest IH]; intro h; [reflexivity |].
  cbn [fold_left polynomialHash]. rewrite hashStep_wraps. apply IH.
Qed.

Lemma hashString_wrapped str :
  hashString str = Z.abs (ToInt32 (polynomialHash 0 (list_ascii_of_string str))).
Proof.
  unfold hashString. change 0%Z with (ToInt32 0) at 1.
  rewrite hash_fold_wraps. reflexivity.
Qed.

Lemma hashString_range str : (0 <= hashString str <= 2147483648)%Z.
Proof.
  rewrite hashString_wrapped.
  pose proof (ToInt32_range (polynomialHash 0 (list_ascii_of_string str))). lia.
Qed.

(** X3.  [hashString] is the absolute value of the polynomial hash
    [s[0] * 31^(n-1) + ... + s[n-1]] wrapped to 32 bits; it lies in
    [[0, 2^31]] (the upper end included: [Math.abs(-2^31)]), and its
    remainder by 4 is an index of a four-element array. *)
Theorem hashString_polynomial :
  forall str : string,
    hashString str = Z.abs (ToInt32 (polynomialHash 0 (list_ascii_of_string str)))
    /\ (0 <= hashString str <= 2147483648)%Z
    /\ (0 <= Z.rem (hashString str) 4 < 4)%Z.
Proof.
  intro str. split; [apply hashString_wrapped |].
  pose proof (hashString_range str) as Hr.
  split; [exact Hr |].
  apply Z.rem_bound_pos; lia.
Qed.

Example hashString_samples :
  hashString "" = 0%Z /\ hashString "abc" = 96354%Z
  /\ hashString "session_start" = 200597881%Z.
Proof. repeat split; vm_compute; reflexivity. Qed.

(** ** The hatch angle *)

(** X4.  [getHatchAngle] never returns [undefined]: a policy violation
    gets the pair [[45, 135]], every other event one of the angles 0,
    45, 90, 135; a human edit gets 45 and an AI edit 135. *)
Theorem getHatchAngle_always_an_angle :
  forall e : Event,
    (event e = "policy_violation" -> getHatchAngle e = AngleArray [45; 135])
    /\ (event e <> "policy_violation" ->
        exists d, getHatchAngle e = AngleNumber d /\ In d [0; 45; 90; 135])
    /\ (event e = "edit" -> origin_mode e = Some "human" ->
        getHatchAngle e = AngleNumber 45)
    /\ (event e = "edit" -> origin_mode e = Some "ai" ->
        getHatchAngle e = AngleNumber 135).
Proof.
  intro e. split; [| split; [| split]].
  - intro H. unfold getHatchAngle. rewrite H. reflexivity.
  - intro Hne. unfold getHatchAngle.
    destruct (String.eqb (event e) "edit" && isStr (origin_mode e) "human");
      [eexists; split; [reflexivity | cbn; auto] |].
    destruct (String.eqb (event e) "edit" && isStr (origin_mode e) "ai");
      [eexists; split; [reflexivity | cbn; auto] |].
    destruct (String.eqb (event e) "snapshot");
      [eexists; split; [reflexivity | cbn; auto] |].
    destruct (String.eqb (event e) "mode_change");
      [eexists; split; [reflexivity | cbn; auto 6] |].
    destruct (String.eqb_spec (event e) "policy_violation") as [E | _];
      [contradiction |].
    cbn [angles hatching LEWITT_CONFIG default_angles List.length].
    change (Z.of_nat 4) with 4%Z.
    pose proof (hashString_range (event e)) as Hr.
    assert (Hrem : (0 <= Z.rem (hashString (event e)) 4 < 4)%Z)
      by (apply Z.rem_bound_pos; lia).
    set (i := Z.rem (hashString (event e)) 4) in *.
    assert (Hi : i = 0%Z \/ i = 1%Z \/ i = 2%Z \/ i = 3%Z) by lia.
    destruct Hi as [-> | [-> | [-> | ->]]]; cbn;
      eexists; (split; [reflexivity | cbn; auto 6]).
  - intros Hk Ho. unfold getHatchAngle. rewrite Hk, Ho. reflexivity.
  - intros Hk Ho. unfold getHatchAngle. rewrite Hk, Ho. reflexivity.
Qed.

(** ** Uniform sampling *)

Lemma sampleUniform_positions filtered maxEv :
  sampleUniform filtered maxEv
  = map (fun i => nth (samplePosition (List.length filtered) maxEv i) filtered 0%nat)
        (seq 0 (N.to_nat maxEv)).
Proof. reflexivity. Qed.

Lemma floor_nonneg x : 0 <= x -> (0 <= Qfloor x)%Z.
Proof. intro H. rewrite <- (Qfloor_Z 0). apply Qfloor_resp_le. exact H. Qed.

Lemma floor_succ_le x y : x + 1 <= y -> (Qfloor x + 1 <= Qfloor y)%Z.
Proof.
  intro H. rewrite <- (Qfloor_Z (Qfloor x + 1)). apply Qfloor_resp_le.
  rewrite inject_Z_plus. change (inject_Z 1) with 1.
  pose proof (Qfloor_le x). lra.
Qed.

Lemma floor_lt_int x (n : Z) : x < inject_Z n -> (Qfloor x < n)%Z.
Proof.
  intro H. pose proof (Qfloor_le x) as Hf.
  assert (Hlt : inject_Z (Qfloor x) < inject_Z n) by lra.
  rewrite <- Zlt_Qlt in Hlt. exact Hlt.
Qed.

Section Sampling.
Variables (len : nat) (maxEv : N).
Hypothesis maxEv_pos : (0 < maxEv)%N.

Let step : Q := inject_Z (Z.of_nat len) / inject_Z (Z.of_N maxEv).

Lemma step_times_max : step * inject_Z (Z.of_N maxEv) == inject_Z (Z.of_nat len).
Proof.
  unfold step. field. change 0 with (inject_Z 0). rewrite inject_Z_injective. lia.
Qed.

Lemma step_ge_1 : (N.to_nat maxEv <= len)%nat -> 1 <= step.
Proof.
  intro H. unfold step. apply Qle_shift_div_l.
  - change 0 with (inject_Z 0). rewrite <- Zlt_Qlt. lia.
  - rewrite Qmult_1_l. rewrite <- Zle_Qle. lia.
Qed.

Lemma step_pos : (0 < len)%nat -> 0 < step.
Proof.
  intro H. unfold step. apply Qlt_shift_div_l.
  - change 0 with (inject_Z 0). rewrite <- Zlt_Qlt. lia.
  - rewrite Qmult_0_l. change 0 with (inject_Z 0). rewrite <- Zlt_Qlt. lia.
Qed.

Lemma samplePosition_lt i :
  (0 < len)%nat -> (i < N.to_nat maxEv)%nat -> (samplePosition len maxEv i < len)%nat.
Proof.
  intros Hlen Hi. unfold samplePosition, Math_floor. fold step.
  pose proof (step_pos Hlen) as Hs. pose proof step_times_max as Hm.
  assert (Hi0 : 0 <= inject_Z (Z.of_nat i))
    by (change 0 with (inject_Z 0); rewrite <- Zle_Qle; lia).
  assert (Him : inject_Z (Z.of_nat i) + 1 <= inject_Z (Z.of_N maxEv)).
  { change 1 with (inject_Z 1). rewrite <- inject_Z_plus, <- Zle_Qle. lia. }
  assert (Hx : 0 <= inject_Z (Z.of_nat i) * step) by (apply Qmult_le_0_compat; lra).
  assert (Hy : 0 <= (inject_Z (Z.of_N maxEv) - inject_Z (Z.of_nat i) - 1) * step)
    by (apply Qmult_le_0_compat; lra).
  assert (Hlt : inject_Z (Z.of_nat i) * step < inject_Z (Z.of_nat len)) by lra.
  pose proof (floor_nonneg _ Hx) as H0.
  pose proof (floor_lt_int _ _ Hlt) as H1. lia.
Qed.

(** With at least as many entries as [maxEvents] the positions read
    grow strictly. *)
Lemma samplePosition_increasing i :
  (N.to_nat maxEv <= len)%nat ->
  (samplePosition len maxEv i < samplePosition len maxEv (S i))%nat.
Proof.
  intro Hle. unfold samplePosition, Math_floor. fold step.
  pose proof (step_ge_1 Hle) as Hs.
  assert (Hi0 : 0 <= inject_Z (Z.of_nat i))
    by (change 0 with (inject_Z 0); rewrite <- Zle_Qle; lia).
  assert (Hx : 0 <= inject_Z (Z.of_nat i) * step) by (apply Qmult_le_0_compat; lra).
  assert (HS : inject_Z (Z.of_nat (S i)) == inject_Z (Z.of_nat i) + 1).
  { rewrite Nat2Z.inj_succ. unfold Z.succ. rewrite inject_Z_plus. reflexivity. }
  assert (Hstep : inject_Z (Z.of_nat i) * step + 1
                  <= inject_Z (Z.of_nat (S i)) * step).
  { rewrite HS. lra. }
  pose proof (floor_succ_le _ _ Hstep) as Hf.
  pose proof (floor_nonneg _ Hx) as H0. lia.
Qed.
End Sampling.

Lemma samplePosition_monotone len maxEv i j :
  (0 < maxEv)%N -> (N.to_nat maxEv <= len)%nat -> (i < j)%nat ->
  (samplePosition len maxEv i < samplePosition len maxEv j)%nat.
Proof.
  intros Hm Hle Hij. induction Hij as [| j Hij IH].
  - apply samplePosition_increasing; assumption.
  - pose proof (samplePosition_increasing len maxEv Hm j Hle). lia.
Qed.

Lemma sampleUniform_nth filtered maxEv i :
  (0 < maxEv)%N -> (0 < List.length filtered)%nat -> (i < N.to_nat maxEv)%nat ->
  nth_error (sampleUniform filtered maxEv) i
  = nth_error filtered (samplePosition (List.length filtered) maxEv i).
Proof.
  intros Hm Hlen Hi. rewrite sampleUniform_positions.
  rewrite nth_error_map, nth_error_seq.
  destruct (Nat.ltb_spec i (N.to_nat maxEv)) as [_ | Hge]; [| lia].
  cbn [option_map Nat.add].
  symmetry. apply nth_error_nth'.
  apply samplePosition_lt; assumption.
Qed.

Lemma sampleUniform_length (filtered : list Ref) maxEv :
  List.length (sampleUniform filtered maxEv) = N.to_nat maxEv.
Proof. rewrite sampleUniform_positions, length_map, length_seq. reflexivity. Qed.

Lemma sampleUniform_incl filtered maxEv :
  (N.to_nat maxEv <= List.length filtered)%nat ->
  incl (sampleUniform filtered maxEv) filtered.
Proof.
  intros Hle r Hin. apply In_nth_error in Hin. destruct Hin as [i Hi].
  assert (Hlt : (i < N.to_nat maxEv)%nat).
  { rewrite <- (sampleUniform_length filtered). apply nth_error_Some. congruence. }
  rewrite sampleUniform_nth in Hi by lia.
  eapply nth_error_In. exact Hi.
Qed.

(** ** Sorting with any comparator *)

Section SortAny.
Context {A : Type} (cmp : A -> A -> Q).

Lemma sortInsert_permutation a l : Permutation (a :: l) (sortInsert cmp a l).
Proof.
  induction l as [| b rest IH]; cbn [sortInsert].
  - apply Permutation_refl.
  - destruct (Qleb (cmp a b) 0).
    + apply Permutation_refl.
    + eapply perm_trans; [apply perm_swap |]. apply perm_skip. exact IH.
Qed.

Lemma js_sort_permutation l : Permutation l (js_sort cmp l).
Proof.
  induction l as [| a rest IH]; cbn [js_sort fold_right].
  - apply perm_nil.
  - eapply perm_trans; [apply perm_skip; exact IH |]. apply sortInsert_permutation.
Qed.

(** The comparator never says of two elements that each comes after
    the other. *)
Hypothesis cmp_total : forall a b, 0 < cmp a b -> cmp b a <= 0.

Let before (a b : A) : Prop := cmp a b <= 0.

Lemma sortInsert_ordered a l : Sorted before l -> Sorted before (sortInsert cmp a l).
Proof.
  induction 1 as [| b rest Hs IH Hhd]; cbn [sortInsert].
  - repeat constructor.
  - destruct (Qleb (cmp a b) 0) eqn:E.
    + apply Qleb_true in E. constructor; [constructor; assumption |].
      constructor. exact E.
    + apply Qleb_false in E. constructor; [exact IH |].
      destruct rest as [| c rest']; cbn [sortInsert].
      * constructor. apply cmp_total. exact E.
      * destruct (Qleb (cmp a c) 0).
        -- constructor. apply cmp_total. exact E.
        -- constructor. inversion Hhd; assumption.
Qed.

Lemma js_sort_ordered l : Sorted before (js_sort cmp l).
Proof.
  induction l as [| a rest IH]; cbn [js_sort fold_right].
  - constructor.
  - apply sortInsert_ordered. exact IH.
Qed.
End SortAny.

(** ** What [prepareEvents] returns *)

Lemma filter_permutation {A} (f : A -> bool) l l' :
  Permutation l l' -> Permutation (filter f l) (filter f l').
Proof.
  induction 1 as [| x l l' H IH | x y l | l l' l'' H1 IH1 H2 IH2]; cbn [filter].
  - constructor.
  - destruct (f x); [apply perm_skip |]; exact IH.
  - destruct (f x), (f y); try apply Permutation_refl. apply perm_swap.
  - eapply perm_trans; eassumption.
Qed.

Lemma filter_ext_in_store s t l :
  sameObjects s t -> filter (isEditIn s) l = filter (isEditIn t) l.
Proof.
  intro H. apply filter_ext. intro r. unfold isEditIn.
  rewrite (sameObjects_event s t r H). reflexivity.
Qed.

Lemma preparedArray_selected s2 sorted config :
  preparedArray s2 sorted config =
  if String.eqb (order config) "time" then js_sort (byTime s2) (selected s2 sorted config)
  else if String.eqb (order config) "severity"
       then js_sort (bySeverityDesc s2) (selected s2 sorted config)
  else if String.eqb (order config) "type_blocks"
       then js_sort (byTypeBlocks s2) (selected s2 sorted config)
  else selected s2 sorted config.
Proof. reflexivity. Qed.

Lemma preparedArray_permutation s2 sorted config :
  Permutation (selected s2 sorted config) (preparedArray s2 sorted config).
Proof.
  rewrite preparedArray_selected.
  destruct (String.eqb (order config) "time"); [apply js_sort_permutation |].
  destruct (String.eqb (order config) "severity"); [apply js_sort_permutation |].
  destruct (String.eqb (order config) "type_blocks"); [apply js_sort_permutation |].
  apply Permutation_refl.
Qed.

Lemma selected_incl s2 sorted config : incl (selected s2 sorted config) sorted.
Proof.
  unfold selected. cbv zeta.
  set (edits := filter (isEditIn s2) sorted).
  assert (Hf : incl (match edits with [] => sorted | _ :: _ => edits end) sorted).
  { destruct edits as [| e es] eqn:E; [apply incl_refl |].
    rewrite <- E. unfold edits. apply incl_filter. }
  set (filtered := match edits with [] => sorted | _ :: _ => edits end) in *.
  destruct (N.ltb_spec (maxEvents config) (N.of_nat (List.length filtered))) as [L | G];
    [| exact Hf].
  destruct (String.eqb (sampling config) "uniform"); [| exact Hf].
  eapply incl_tran; [| exact Hf]. apply sampleUniform_incl. lia.
Qed.

Lemma selected_length s2 sorted config :
  sampling config = "uniform" ->
  (List.length (selected s2 sorted config) <= N.to_nat (maxEvents config))%nat.
Proof.
  intro Hu. unfold selected. cbv zeta.
  set (filtered := match filter (isEditIn s2) sorted with
                   | [] => sorted | _ :: _ => filter (isEditIn s2) sorted end).
  destruct (N.ltb_spec (maxEvents config) (N.of_nat (List.length filtered))) as [L | G].
  - rewrite Hu. cbn [String.eqb Ascii.eqb Bool.eqb].
    rewrite sampleUniform_positions, length_map, length_seq. lia.
  - lia.
Qed.

(** X7.  [prepareEvents] returns events of its input only; with
    uniform sampling it returns at most [maxEvents] of them; when the
    input has an edit it returns edits only; and when the input has at
    most [maxEvents] events it returns all the edits, or, without any
    edit, all the events, each as often as the input has it. *)
Theorem prepareEvents_selection :
  forall (s : Store) (events : list Ref) (config : Config),
    let out := snd (prepareEvents s events config) in
    let edits := filter (isEditIn s) events in
    incl out events
    /\ (sampling config = "uniform" ->
        (List.length out <= N.to_nat (maxEvents config))%nat)
    /\ (edits <> [] -> Forall (fun r => event (getE s r) = "edit") out)
    /\ ((N.of_nat (List.length events) <= maxEvents config)%N ->
        Permutation out (match edits with [] => events | _ :: _ => edits end)).
Proof.
  intros s events config out edits.
  assert (Hout : out = preparedArray (markPass s (js_sort (byTime s) events))
                                     (js_sort (byTime s) events) config).
  { unfold out. rewrite prepareEvents_eq. reflexivity. }
  set (sorted := js_sort (byTime s) events) in *.
  set (s2 := markPass s sorted) in *.
  assert (Hsame : sameObjects s2 s) by apply markPass_sameObjects.
  assert (Hperm : Permutation events sorted) by apply js_sort_permutation.
  assert (Hsel : Permutation (selected s2 sorted config) out).
  { rewrite Hout. apply preparedArray_permutation. }
  assert (Hedits : Permutation edits (filter (isEditIn s2) sorted)).
  { rewrite (filter_ext_in_store s2 s sorted Hsame). apply filter_permutation.
    exact Hperm. }
  split; [| split; [| split]].
  - intros r Hin. apply (Permutation_in _ (Permutation_sym Hsel)) in Hin.
    apply selected_incl in Hin.
    apply (Permutation_in _ (Permutation_sym Hperm)). exact Hin.
  - intro Hu. rewrite <- (Permutation_length Hsel). apply selected_length. exact Hu.
  - intro Hne. apply Forall_forall. intros r Hin.
    apply (Permutation_in _ (Permutation_sym Hsel)) in Hin.
    revert Hin. unfold selected. cbv zeta.
    destruct (filter (isEditIn s2) sorted) as [| e es] eqn:E.
    { apply Permutation_sym, Permutation_nil in Hedits. contradiction. }
    rewrite <- E.
    assert (Hall : forall x, In x (filter (isEditIn s2) sorted) ->
                     event (getE s x) = "edit").
    { intros x Hx. apply filter_In in Hx. destruct Hx as [_ Hx].
      unfold isEditIn in Hx. apply String.eqb_eq in Hx.
      rewrite <- (sameObjects_event s2 s x Hsame). exact Hx. }
    destruct (N.ltb_spec (maxEvents config)
                (N.of_nat (List.length (filter (isEditIn s2) sorted)))) as [L | G];
      [| apply Hall].
    destruct (String.eqb (sampling config) "uniform"); [| apply Hall].
    intro Hin. apply Hall. eapply sampleUniform_incl; [| exact Hin]. lia.
  - intro Hfit. eapply perm_trans; [apply Permutation_sym; exact Hsel |].
    unfold selected. cbv zeta.
    assert (Hls : List.length sorted = List.length events)
      by (symmetry; apply Permutation_length; exact Hperm).
    assert (Hle : (List.length (filter (isEditIn s2) sorted) <= List.length sorted)%nat)
      by apply filter_length_le.
    destruct (filter (isEditIn s2) sorted) as [| e es] eqn:E.
    + apply Permutation_sym, Permutation_nil in Hedits.
      rewrite Hedits.
      destruct (N.ltb_spec (maxEvents config) (N.of_nat (List.length sorted)));
        [lia | apply Permutation_sym; exact Hperm].
    + rewrite <- E in *.
      destruct (N.ltb_spec (maxEvents config)
                  (N.of_nat (List.length (filter (isEditIn s2) sorted)))); [lia |].
      destruct edits as [| e' es'] eqn:E'.
      * apply Permutation_nil in Hedits. rewrite E in Hedits. discriminate.
      * apply Permutation_sym. exact Hedits.
Qed.

(** ** The order of what [prepareEvents] returns *)

Lemma Sorted_weaken {A} (R R' : A -> A -> Prop) l :
  (forall a b, R a b -> R' a b) -> Sorted R l -> Sorted R' l.
Proof.
  intros H. induction 1 as [| a l Hs IH Hhd]; constructor; [exact IH |].
  destruct Hhd; constructor. apply H. assumption.
Qed.

Lemma StronglySorted_filter {A} (R : A -> A -> Prop) f l :
  StronglySorted R l -> StronglySorted R (filter f l).
Proof.
  induction 1 as [| a l Hs IH Hall]; cbn [filter]; [constructor |].
  destruct (f a); [| exact IH].
  constructor; [exact IH |].
  apply Forall_forall. intros x Hx. apply filter_In in Hx.
  rewrite Forall_forall in Hall. apply Hall. tauto.
Qed.

Lemma StronglySorted_nth {A} (R : A -> A -> Prop) l d :
  StronglySorted R l ->
  forall i j, (i < j)%nat -> (j < List.length l)%nat -> R (nth i l d) (nth j l d).
Proof.
  induction 1 as [| a l Hs IH Hall]; intros i j Hij Hj; [cbn in Hj; lia |].
  destruct j as [| j]; [lia |]. cbn [List.length] in Hj.
  destruct i as [| i]; cbn [nth].
  - rewrite Forall_forall in Hall. apply Hall. apply nth_In. lia.
  - apply IH; lia.
Qed.

Lemma StronglySorted_map_seq {A} (R : A -> A -> Prop) (f : nat -> A) n : forall a,
  (forall i j, (a <= i)%nat -> (i < j)%nat -> (j < a + n)%nat -> R (f i) (f j)) ->
  StronglySorted R (map f (seq a n)).
Proof.
  induction n as [| n IH]; intros a H; cbn [seq map]; constructor.
  - apply IH. intros i j Hi Hij Hj. apply H; lia.
  - apply Forall_forall. intros x Hx. apply in_map_iff in Hx.
    destruct Hx as (j & <- & Hj). apply in_seq in Hj. apply H; lia.
Qed.

Lemma sampleUniform_keeps_order (R : Ref -> Ref -> Prop) filtered maxEv :
  (N.to_nat maxEv <= List.length filtered)%nat ->
  StronglySorted R filtered -> StronglySorted R (sampleUniform filtered maxEv).
Proof.
  intros Hle Hs. destruct (N.eq_dec maxEv 0) as [E | E].
  - rewrite E. constructor.
  - assert (Hm : (0 < maxEv)%N) by lia.
    rewrite sampleUniform_positions. apply StronglySorted_map_seq.
    intros i j _ Hij Hj. cbn [Nat.add] in Hj.
    apply StronglySorted_nth; [exact Hs | |].
    + apply samplePosition_monotone; assumption.
    + apply samplePosition_lt; [exact Hm | lia | exact Hj].
Qed.

Lemma byTime_total s a b : 0 < byTime s a b -> byTime s b a <= 0.
Proof. unfold byTime. lra. Qed.

Lemma bySeverityDesc_total s a b : 0 < bySeverityDesc s a b -> bySeverityDesc s b a <= 0.
Proof. unfold bySeverityDesc. lra. Qed.

Lemma byTypeBlocks_total s a b : 0 < byTypeBlocks s a b -> byTypeBlocks s b a <= 0.
Proof.
  unfold byTypeBlocks. cbv zeta.
  set (ia := indexOf typeOrder (event (getE s a))).
  set (ib := indexOf typeOrder (event (getE s b))).
  destruct (Z.eqb_spec ia ib) as [E | N]; cbn [negb].
  - rewrite E, Z.eqb_refl. cbn [negb]. apply byTime_total.
  - destruct (Z.eqb_spec ib ia) as [E' | N']; [congruence |]. cbn [negb].
    intro H. change 0 with (inject_Z 0) in *.
    rewrite <- Zlt_Qlt in H. rewrite <- Zle_Qle. lia.
Qed.

Lemma byTypeBlocks_order s a b : byTypeBlocks s a b <= 0 -> typeBlockOrdered s a b.
Proof.
  unfold byTypeBlocks, typeBlockOrdered. cbv zeta.
  set (ia := indexOf typeOrder (event (getE s a))).
  set (ib := indexOf typeOrder (event (getE s b))).
  destruct (Z.eqb_spec ia ib) as [E | N]; cbn [negb]; intro H.
  - right. split; [exact E |]. unfold byTime in H. lra.
  - left. change 0 with (inject_Z 0) in H. rewrite <- Zle_Qle in H. lia.
Qed.

Lemma timeOrdered_trans s a b c :
  timeOrdered s a b -> timeOrdered s b c -> timeOrdered s a c.
Proof. unfold timeOrdered. lra. Qed.

(** X8.  The array [prepareEvents] returns is in the order asked for,
    read on the event objects as the pass leaves them: by time for
    [time], by falling severity for [severity], by the block of the
    event type and by time within a block for [type_blocks]; for any
    other value of [order] it stays in time order. *)
Theorem prepareEvents_order :
  forall (s : Store) (events : list Ref) (config : Config),
    let s' := fst (prepareEvents s events config) in
    let out := snd (prepareEvents s events config) in
    (order config = "time" -> Sorted (timeOrdered s') out)
    /\ (order config = "severity" -> Sorted (severityOrdered s') out)
    /\ (order config = "type_blocks" -> Sorted (typeBlockOrdered s') out)
    /\ (order config <> "time" -> order config <> "severity" ->
        order config <> "type_blocks" -> StronglySorted (timeOrdered s') out).
Proof.
  intros s events config s' out.
  assert (Hs' : s' = markPass s (js_sort (byTime s) events)) by reflexivity.
  assert (Hout : out = preparedArray s' (js_sort (byTime s) events) config).
  { unfold out. rewrite prepareEvents_eq. reflexivity. }
  rewrite preparedArray_selected in Hout.
  split; [| split; [| split]].
  - intro Ho. rewrite Ho in Hout. cbn [String.eqb Ascii.eqb Bool.eqb] in Hout.
    rewrite Hout. eapply Sorted_weaken; [| apply js_sort_ordered; apply byTime_total].
    intros a b H. unfold byTime in H. unfold timeOrdered. lra.
  - intro Ho. rewrite Ho in Hout. cbn [String.eqb Ascii.eqb Bool.eqb] in Hout.
    rewrite Hout.
    eapply Sorted_weaken; [| apply js_sort_ordered; apply bySeverityDesc_total].
    intros a b H. unfold bySeverityDesc in H. unfold severityOrdered. lra.
  - intro Ho. rewrite Ho in Hout. cbn [String.eqb Ascii.eqb Bool.eqb] in Hout.
    rewrite Hout.
    eapply Sorted_weaken; [| apply js_sort_ordered; apply byTypeBlocks_total].
    apply byTypeBlocks_order.
  - intros H1 H2 H3.
    apply String.eqb_neq in H1, H2, H3. rewrite H1, H2, H3 in Hout. rewrite Hout.
    assert (Hsame : sameObjects s' s) by (rewrite Hs'; apply markPass_sameObjects).
    assert (Hsorted : StronglySorted (timeOrdered s') (js_sort (byTime s) events)).
    { apply Sorted_StronglySorted; [intros a b c; apply timeOrdered_trans |].
      eapply Sorted_weaken; [| apply js_sort_ordered; apply byTime_total].
      intros a b H. unfold byTime in H. unfold timeOrdered, tsOrZero.
      unfold tsOrZero in H.
      rewrite (sameObjects_ts s' s a Hsame), (sameObjects_ts s' s b Hsame). lra. }
    unfold selected. cbv zeta.
    set (sorted := js_sort (byTime s) events) in *.
    assert (Hf : StronglySorted (timeOrdered s')
                   (match filter (isEditIn s') sorted with
                    | [] => sorted | _ :: _ => filter (isEditIn s') sorted end)).
    { destruct (filter (isEditIn s') sorted) eqn:E; [exact Hsorted |].
      rewrite <- E. apply StronglySorted_filter. exact Hsorted. }
    set (filtered := match filter (isEditIn s') sorted with
                     | [] => sorted | _ :: _ => filter (isEditIn s') sorted end) in *.
    destruct (N.ltb_spec (maxEvents config) (N.of_nat (List.length filtered)));
      [| exact Hf].
    destruct (String.eqb (sampling config) "uniform"); [| exact Hf].
    apply sampleUniform_keeps_order; [lia | exact Hf].
Qed.

Lemma last_In {A : Type} (l : list A) (d : A) : In (last l d) (d :: l).
Proof.
  induction l as [| a l IH]; [left; reflexivity |].
  destruct l as [| b l]; [right; left; reflexivity |].
  change (last (a :: b :: l) d) with (last (b :: l) d).
  destruct IH as [H | H]; [left; exact H | right; right; exact H].
Qed.

(** * Steps of a render and clipped segments *)

Lemma bind_Returned {A B} (c : Draw A) (k : A -> Draw B) st a st' :
  c st = Returned a st' -> bind c k st = k a st'.
Proof. intro H. unfold bind. rewrite H. reflexivity. Qed.

Lemma advance_nil st : advance st [] 0 = st.
Proof.
  destruct st as [cs sd]. unfold advance. cbn [calls rngSeed].
  rewrite app_nil_r. f_equal. lia.
Qed.

Lemma advance_advance st a1 n1 a2 n2 :
  advance (advance st a1 n1) a2 n2 = advance st (a1 ++ a2) (n1 + n2).
Proof.
  unfold advance. cbn [calls rngSeed]. rewrite app_assoc. f_equal. lia.
Qed.

Lemma inRect_Qeq rx ry rw rh x y x' y' :
  x == x' -> y == y' -> inRect rx ry rw rh x' y' -> inRect rx ry rw rh x y.
Proof. unfold inRect. intros Hx Hy (A & B & C & D). repeat split; lra. Qed.

(** The ends of a clipped segment are in the closed rectangle. *)
Lemma clipLineToRect_inside x1 y1 x2 y2 rx ry rw rh a b c d :
  clipLineToRect x1 y1 x2 y2 rx ry rw rh = Some (a, b, c, d) ->
  inRect rx ry rw rh a b /\ inRect rx ry rw rh c d.
Proof.
  unfold clipLineToRect. cbv zeta.
  destruct (clipLoop (0, 1) _) as [[t0 t1] |] eqn:Hloop; [| discriminate].
  intro H. inversion H; subst; clear H.
  assert (H01 : 0 <= 1) by lra.
  destruct (clipLoop_Some _ _ _ _ _ Hloop H01) as (A & B & C & Hin & _).
  split; apply feasible_inRect; apply Hin; lra.
Qed.

(** A segment that starts in the rectangle is never clipped away. *)
Lemma clipLineToRect_from_inside x1 y1 x2 y2 rx ry rw rh :
  inRect rx ry rw rh x1 y1 ->
  exists seg, clipLineToRect x1 y1 x2 y2 rx ry rw rh = Some seg.
Proof.
  intro Hin. unfold clipLineToRect. cbv zeta.
  destruct (clipLoop (0, 1) _) as [[t0 t1] |] eqn:Hloop; [eexists; reflexivity |].
  exfalso. assert (H01 : 0 <= 1) by lra.
  apply (clipLoop_None _ _ _ Hloop H01 0 (Qle_refl 0) H01).
  apply feasible_inRect. eapply inRect_Qeq; [| | exact Hin]; ring.
Qed.

Section StaysInCell.
Context {M : MathLib}.
Variables cellX cellY cellW cellH : Q.

Lemma centre_inRect :
  0 <= cellW -> 0 <= cellH ->
  inRect cellX cellY cellW cellH (cellX + cellW / 2) (cellY + cellH / 2).
Proof.
  intros Hw Hh. unfold inRect.
  assert (E1 : cellW / 2 == cellW * (1 # 2)) by (unfold Qdiv; reflexivity).
  assert (E2 : cellH / 2 == cellH * (1 # 2)) by (unfold Qdiv; reflexivity).
  repeat split; lra.
Qed.

End StaysInCell.

(** X13.  The erased centre of a cell is never more than 0.8 of its
    width and height, and has no size unless characters were deleted;
    the border of a cell has a weight of at least 0.5 and either the
    configured alpha 25, or, for an event that carries a positive
    [aiPromptLength], a weight of at least 2 and an alpha between 150
    and 255: whatever [Math.log1p] returns. *)
Theorem cell_border_and_erase_ranges :
  forall (M : MathLib) (ev : option Event) (scale : Q) (e : Event),
    0 <= cellEraseRatio e /\ cellEraseRatio e <= 8 # 10
    /\ ((forall d, delta e = Some d -> (deleted_chars d <= 0)%Z) -> cellEraseRatio e = 0)
    /\ 1 # 2 <= fst (cellBorder ev scale)
    /\ ((cellBorder ev scale = (Math_max (1 # 2) ((5 # 10) * scale), 25))
        \/ (2 <= fst (cellBorder ev scale)
            /\ 150 <= snd (cellBorder ev scale) /\ snd (cellBorder ev scale) <= 255
            /\ exists e' len, ev = Some e' /\ aiPromptLength e' = Some len /\ (0 < len)%Z)).
Proof.
  intros M ev scale e.
  assert (Herase : 0 <= cellEraseRatio e /\ cellEraseRatio e <= 8 # 10).
  { unfold cellEraseRatio. destruct (delta e) as [d |]; [| split; lra].
    destruct (0 <? deleted_chars d)%Z; [| split; lra].
    match goal with |- context [clamp ?v 0 1] =>
      destruct (clamp_bounds v 0 1 ltac:(lra)) as [A B];
      set (c := clamp v 0 1) in * end.
    split; lra. }
  split; [apply Herase |]. split; [apply Herase |]. split.
  { intro Hd. unfold cellEraseRatio. destruct (delta e) as [d |]; [| reflexivity].
    specialize (Hd d eq_refl).
    destruct (Z.ltb_spec 0 (deleted_chars d)); [lia | reflexivity]. }
  assert (Hplain : 1 # 2 <= Math_max (1 # 2) ((5 # 10) * scale)) by apply Q.le_max_l.
  unfold cellBorder. cbv zeta. cbn [hatching LEWITT_CONFIG cellBorderWeight cellBorderAlpha].
  destruct ev as [e' |]; [| cbn [fst snd]; split; [exact Hplain | left; reflexivity]].
  destruct (aiPromptLength e') as [len |] eqn:Hlen;
    [| cbn [fst snd]; split; [exact Hplain | left; reflexivity]].
  destruct (Z.ltb_spec 0 len) as [Hpos | _];
    [| cbn [fst snd]; split; [exact Hplain | left; reflexivity]].
  cbn [fst snd].
  match goal with |- context [clamp ?v 0 1] =>
    destruct (clamp_bounds v 0 1 ltac:(lra)) as [A B];
    set (c := clamp v 0 1) in * end.
  assert (H2 : 2 <= Math_max 2 (lerp 3 10 c * scale)) by apply Q.le_max_l.
  split; [lra |]. right. split; [exact H2 |].
  assert (Hl : 150 <= lerp 150 255 c /\ lerp 150 255 c <= 255)
    by (unfold lerp; split; lra).
  destruct (Math_round_bounds 150 255 (lerp 150 255 c)) as [R1 R2]; try apply Hl.
  split; [change 150 with (inject_Z 150); rewrite <- Zle_Qle; exact R1 |].
  split; [change 255 with (inject_Z 255); rewrite <- Zle_Qle; exact R2 |].
  exists e', len. repeat split; assumption.
Qed.

(** * Connecting the boundary points *)

Lemma existsb_key (a b : nat) (drawn : list (nat * nat)) :
  existsb (fun k => Nat.eqb (fst k) a && Nat.eqb (snd k) b) drawn = true
  <-> In (a, b) drawn.
Proof.
  rewrite existsb_exists. split.
  - intros ([x y] & Hin & Hk). cbn [fst snd] in Hk.
    apply andb_true_iff in Hk. destruct Hk as [Hx Hy].
    apply Nat.eqb_eq in Hx. apply Nat.eqb_eq in Hy. subst. exact Hin.
  - intro Hin. exists (a, b). split; [exact Hin |]. cbn [fst snd].
    rewrite !Nat.eqb_refl. reflexivity.
Qed.

Lemma edgeKey_ends e i j :
  edgeKey e = edgeKey (i, j) -> (fst e = i /\ snd e = j) \/ (fst e = j /\ snd e = i).
Proof.
  destruct e as [a b]. unfold edgeKey. cbn [fst snd]. intro H.
  inversion H. lia.
Qed.

Lemma firstn_incl {A} (n : nat) (l : list A) : incl (firstn n l) l.
Proof.
  intros x Hx. rewrite <- (firstn_skipn n l). apply in_or_app. left. exact Hx.
Qed.

Section Connect.
Context {M : MathLib}.
Variable points : list Point.

Lemma neighbourDistances_In i nb :
  In nb (neighbourDistances points i) ->
  (fst nb < List.length points)%nat /\ fst nb <> i
  /\ snd nb = pointDistance points i (fst nb).
Proof.
  unfold neighbourDistances, pointDistance.
  destruct (nth i points (0, 0)) as [cx cy].
  rewrite in_flat_map. intros (j & Hj & Hin). apply in_seq in Hj.
  destruct (Nat.eqb_spec i j) as [E | N]; [destruct Hin |].
  destruct (nth j points (0, 0)) as [px py] eqn:Hp.
  destruct Hin as [<- | []]. cbn [fst snd]. rewrite Hp.
  split; [lia |]. split; [congruence | reflexivity].
Qed.

Lemma neighbourDistances_has i j :
  (j < List.length points)%nat -> j <> i ->
  In (j, pointDistance points i j) (neighbourDistances points i).
Proof.
  intros Hj Hne. unfold neighbourDistances, pointDistance.
  destruct (nth i points (0, 0)) as [cx cy].
  destruct (nth j points (0, 0)) as [px py] eqn:Hp.
  rewrite in_flat_map. exists j. split; [apply in_seq; lia |].
  destruct (Nat.eqb_spec i j) as [E | N]; [congruence |].
  rewrite Hp. left. reflexivity.
Qed.

(** The two nearest neighbours of point [i]. *)
Lemma nearest_In i nb :
  In nb (firstn 2 (js_sort (fun a b : nat * Q => snd a - snd b)
                           (neighbourDistances points i))) ->
  (fst nb < List.length points)%nat /\ fst nb <> i.
Proof.
  intro Hin. apply firstn_incl in Hin.
  assert (H : In nb (neighbourDistances points i)).
  { eapply Permutation_in; [apply Permutation_sym, js_sort_permutation | exact Hin]. }
  apply neighbourDistances_In in H. tauto.
Qed.

(** With two points or more, the first of the nearest neighbours of
    point [i] is another point, at the least distance from it. *)
Lemma nearest_first i :
  (2 <= List.length points)%nat ->
  exists nb more,
    firstn 2 (js_sort (fun a b : nat * Q => snd a - snd b)
                      (neighbourDistances points i)) = nb :: more
    /\ forall k, (k < List.length points)%nat -> k <> i ->
         pointDistance points i (fst nb) <= pointDistance points i k.
Proof.
  intro Hn.
  set (cmp := fun a b : nat * Q => snd a - snd b).
  assert (Hj : exists j, (j < List.length points)%nat /\ j <> i).
  { destruct i; [exists 1%nat | exists 0%nat]; split; lia. }
  destruct Hj as (j & Hj & Hne).
  pose proof (neighbourDistances_has i j Hj Hne) as Hd.
  pose proof (js_sort_permutation cmp (neighbourDistances points i)) as Hperm.
  assert (Hsorted : Sorted (fun a b => cmp a b <= 0)
                           (js_sort cmp (neighbourDistances points i))).
  { apply js_sort_ordered. intros x y. unfold cmp. lra. }
  apply Sorted_StronglySorted in Hsorted;
    [| intros x y z; unfold cmp; lra].
  apply (Permutation_in _ Hperm) in Hd.
  destruct (js_sort cmp (neighbourDistances points i)) as [| nb rest] eqn:Hs;
    [destruct Hd |].
  exists nb, (firstn 1 rest). split; [reflexivity |].
  intros k Hk Hki.
  pose proof (neighbourDistances_has i k Hk Hki) as Hin.
  apply (Permutation_in _ Hperm) in Hin.
  assert (Hnb : In nb (neighbourDistances points i)).
  { eapply Permutation_in; [apply Permutation_sym; exact Hperm | left; reflexivity]. }
  apply neighbourDistances_In in Hnb. destruct Hnb as (_ & _ & Hdist).
  rewrite <- Hdist.
  destruct Hin as [E | Hin].
  - rewrite E. cbn [snd]. lra.
  - inversion Hsorted as [| ? ? _ Hall]; subst. rewrite Forall_forall in Hall.
    specialize (Hall _ Hin). unfold cmp in Hall. cbn [snd] in Hall. lra.
Qed.

(** The loop over the nearest neighbours of point [i], from the edges
    [edges] drawn so far. *)
Lemma nearest_loop (i : nat) (cx cy : Q) :
  nth i points (0, 0) = (cx, cy) ->
  forall (nearest : list (nat * Q)) (edges : list (nat * nat)) st,
  exists new,
    loopWith nearest (rev (map edgeKey edges)) (fun drawn neighbor =>
        let minIdx := Nat.min i (fst neighbor) in
        let maxIdx := Nat.max i (fst neighbor) in
        if existsb (fun k => Nat.eqb (fst k) minIdx && Nat.eqb (snd k) maxIdx) drawn
        then ret drawn
        else
          let '(nx, ny) := nth (fst neighbor) points (0, 0) in
          g_call (g_line cx cy nx ny) ;;
          ret ((minIdx, maxIdx) :: drawn)) st
    = Returned (rev (map edgeKey (edges ++ new)))
               (advance st (map (edgeLine points) new) 0)
    /\ (forall e, In e new -> fst e = i /\ In (snd e) (map fst nearest))
    /\ (NoDup (map edgeKey edges) -> NoDup (map edgeKey (edges ++ new)))
    /\ (List.length new <= List.length nearest)%nat
    /\ (forall nb, In nb nearest ->
          In (edgeKey (i, fst nb)) (map edgeKey (edges ++ new))).
Proof.
  intro Hi. induction nearest as [| nb rest IH]; intros edges st; cbn [loopWith].
  - exists []. rewrite app_nil_r. cbn [map]. rewrite advance_nil.
    split; [reflexivity |]. split; [intros e []|]. split; [auto |].
    split; [cbn; lia | intros nb []].
  - cbv zeta.
    destruct (existsb _ (rev (map edgeKey edges))) eqn:Hseen.
    + apply existsb_key in Hseen. apply in_rev in Hseen.
      destruct (IH edges st) as (new & Hrun & Hfrom & Hnd & Hlen & Hcov).
      exists new. rewrite (bind_Returned _ _ st (rev (map edgeKey edges)) st)
        by reflexivity.
      split; [exact Hrun |]. split.
      { intros e He. destruct (Hfrom e He) as [A B]. split; [exact A | right; exact B]. }
      split; [exact Hnd |]. split; [cbn [List.length]; lia |].
      intros nb' [<- | Hin]; [| apply Hcov; exact Hin].
      rewrite map_app. apply in_or_app. left. exact Hseen.
    + assert (Hnew : ~ In (edgeKey (i, fst nb)) (map edgeKey edges)).
      { intro Hin. apply in_rev in Hin.
        change (edgeKey (i, fst nb)) with (Nat.min i (fst nb), Nat.max i (fst nb)) in Hin.
        apply (proj2 (existsb_key _ _ _)) in Hin. congruence. }
      destruct (nth (fst nb) points (0, 0)) as [nx ny] eqn:Hnb.
      set (st1 := {| calls := calls st ++ [g_line cx cy nx ny]; rngSeed := rngSeed st |}).
      destruct (IH (edges ++ [(i, fst nb)]) st1) as (new & Hrun & Hfrom & Hnd & Hlen & Hcov).
      exists ((i, fst nb) :: new).
      rewrite (bind_Returned _ _ st (rev (map edgeKey (edges ++ [(i, fst nb)]))) st1).
      2: { rewrite bind_g_call. unfold ret. fold st1. f_equal.
           rewrite map_app, rev_app_distr. reflexivity. }
      cbv beta. cbv zeta in Hrun. rewrite Hrun. rewrite <- app_assoc. cbn [app].
      split.
      { f_equal. unfold advance, st1. cbn [calls rngSeed map].
        rewrite <- app_assoc. cbn [app]. unfold edgeLine at 2. cbn [fst snd].
        rewrite Hi, Hnb. reflexivity. }
      split.
      { intros e [<- | He]; cbn [fst snd].
        - split; [reflexivity | left; reflexivity].
        - destruct (Hfrom e He) as [A B]. split; [exact A | right; exact B]. }
      split.
      { intro Hno. rewrite <- app_assoc in Hnd. cbn [app] in Hnd. apply Hnd.
        rewrite map_app. cbn [map].
        apply NoDup_app; [exact Hno | repeat constructor; intros [] |].
        intros x Hx [<- | []]. exact (Hnew Hx). }
      split; [cbn [List.length]; lia |].
      rewrite <- app_assoc in Hcov. cbn [app] in Hcov.
      intros nb' [<- | Hin]; [| apply Hcov; exact Hin].
      rewrite map_app. apply in_or_app. right. left. reflexivity.
Qed.

(** The loop over the points. *)
Lemma points_loop :
  forall (idxs : list nat) (edges : list (nat * nat)) st,
  (forall i, In i idxs -> (i < List.length points)%nat) ->
  exists new,
    loopWith idxs (rev (map edgeKey edges)) (fun drawn i =>
      let '(cx, cy) := nth i points (0, 0) in
      let distances := js_sort (fun a b => snd a - snd b) (neighbourDistances points i) in
      let nearest := firstn 2 distances in
      loopWith nearest drawn (fun drawn neighbor =>
        let minIdx := Nat.min i (fst neighbor) in
        let maxIdx := Nat.max i (fst neighbor) in
        if existsb (fun k => Nat.eqb (fst k) minIdx && Nat.eqb (snd k) maxIdx) drawn
        then ret drawn
        else
          let '(nx, ny) := nth (fst neighbor) points (0, 0) in
          g_call (g_line cx cy nx ny) ;;
          ret ((minIdx, maxIdx) :: drawn))) st
    = Returned (rev (map edgeKey (edges ++ new)))
               (advance st (map (edgeLine points) new) 0)
    /\ (forall e, In e new ->
          In (fst e) idxs /\ (snd e < List.length points)%nat /\ snd e <> fst e)
    /\ (NoDup (map edgeKey edges) -> NoDup (map edgeKey (edges ++ new)))
    /\ (List.length new <= 2 * List.length idxs)%nat
    /\ ((2 <= List.length points)%nat ->
        forall i, In i idxs ->
        exists j, In (edgeKey (i, j)) (map edgeKey (edges ++ new))
                  /\ forall k, (k < List.length points)%nat -> k <> i ->
                       pointDistance points i j <= pointDistance points i k).
Proof.
  induction idxs as [| i rest IH]; intros edges st Hidx; cbn [loopWith].
  - exists []. rewrite app_nil_r. cbn [map]. rewrite advance_nil.
    split; [reflexivity |]. split; [intros e [] |]. split; [auto |].
    split; [cbn; lia | intros _ i []].
  - destruct (nth i points (0, 0)) as [cx cy] eqn:Hi. cbv zeta.
    set (nearest := firstn 2 (js_sort (fun a b : nat * Q => snd a - snd b)
                                      (neighbourDistances points i))).
    destruct (nearest_loop i cx cy Hi nearest edges st)
      as (new1 & Hrun1 & Hfrom1 & Hnd1 & Hlen1 & Hcov1).
    cbv zeta in Hrun1.
    rewrite (bind_Returned _ _ _ _ _ Hrun1).
    destruct (IH (edges ++ new1) (advance st (map (edgeLine points) new1) 0))
      as (new2 & Hrun2 & Hfrom2 & Hnd2 & Hlen2 & Hcov2).
    { intros k Hk. apply Hidx. right. exact Hk. }
    cbv zeta in Hrun2. rewrite Hrun2.
    exists (new1 ++ new2). rewrite advance_advance, <- map_app, app_assoc.
    split; [reflexivity |]. split.
    { intros e He. apply in_app_or in He. destruct He as [He | He].
      - destruct (Hfrom1 e He) as [A B]. apply in_map_iff in B.
        destruct B as (nb & Hnb & Hin). apply nearest_In in Hin.
        rewrite Hnb in Hin. rewrite A. split; [left; reflexivity | exact Hin].
      - destruct (Hfrom2 e He) as (A & B & C). split; [right; exact A | split; assumption]. }
    split; [intro Hno; apply Hnd2, Hnd1; exact Hno |].
    split.
    { rewrite length_app. cbn [List.length].
      assert (List.length nearest <= 2)%nat by (unfold nearest; apply firstn_le_length).
      lia. }
    intros Hn k [<- | Hk]; [| apply Hcov2; assumption].
    destruct (nearest_first i Hn) as (nb & more & Hnear & Hmin).
    fold nearest in Hnear.
    exists (fst nb). split; [| exact Hmin].
    rewrite map_app. apply in_or_app. left.
    apply Hcov1. rewrite Hnear. left. reflexivity.
Qed.
End Connect.

(** X14.  With fewer than two points [connectNearestNeighbor] makes no
    call.  With two or more it sets the stroke and draws lines only,
    each from one of the points to another one; no pair of points is
    joined twice, in either direction; there are at most two lines per
    point; and every point is joined to a point at the least distance
    from it, as [Math.sqrt] computes the distances. *)
Theorem connectNearestNeighbor_edges :
  forall (M : MathLib) (points : list Point) (weight a scale : Q) (st : RenderState),
    let n := List.length points in
    ((n < 2)%nat -> connectNearestNeighbor points weight a scale st = Returned tt st)
    /\ ((2 <= n)%nat ->
        exists edges,
          connectNearestNeighbor points weight a scale st
          = Returned tt
              (advance st ([g_stroke 0 a;
                            g_strokeWeight (Math_max (1 # 2) (weight * scale))]
                           ++ map (edgeLine points) edges) 0)
          /\ Forall (fun e => (fst e < n)%nat /\ (snd e < n)%nat /\ fst e <> snd e) edges
          /\ NoDup (map edgeKey edges)
          /\ (List.length edges <= 2 * n)%nat
          /\ forall i, (i < n)%nat ->
             exists j, (In (i, j) edges \/ In (j, i) edges)
                       /\ forall k, (k < n)%nat -> k <> i ->
                            pointDistance points i j <= pointDistance points i k).
Proof.
  intros M points weight a scale st n. split.
  - intro Hlt. unfold connectNearestNeighbor.
    destruct (Nat.ltb_spec (List.length points) 2) as [_ | Hge]; [reflexivity |].
    unfold n in Hlt. lia.
  - intro Hge. unfold connectNearestNeighbor.
    destruct (Nat.ltb_spec (List.length points) 2) as [Hlt | _];
      [unfold n in Hge; lia |].
    rewrite !bind_g_call.
    set (st2 := {| calls := _; rngSeed := _ |}).
    destruct (points_loop points (seq 0 (List.length points)) [] st2)
      as (edges & Hrun & Hfrom & Hnd & Hlen & Hcov).
    { intros i Hi. apply in_seq in Hi. lia. }
    cbn [map rev app] in Hrun. cbv zeta in Hrun.
    exists edges. rewrite (bind_Returned _ _ _ _ _ Hrun). unfold ret.
    split.
    { f_equal. unfold advance, st2. cbn [calls rngSeed].
      rewrite <- !app_assoc. reflexivity. }
    split.
    { apply Forall_forall. intros e He. destruct (Hfrom e He) as (A & B & C).
      apply in_seq in A. fold n in B. unfold n. repeat split; lia. }
    split; [apply Hnd; constructor |].
    split; [rewrite length_seq in Hlen; exact Hlen |].
    intros i Hi.
    destruct (Hcov Hge i) as (j & Hj & Hmin); [apply in_seq; unfold n in Hi; lia |].
    cbn [app] in Hj. apply in_map_iff in Hj. destruct Hj as (e & Hk & He).
    exists j. split; [| exact Hmin].
    destruct e as [u v].
    destruct (edgeKey_ends (u, v) i j Hk) as [[A B] | [A B]];
      cbn [fst snd] in A, B; subst u v; [left | right]; exact He.
Qed.

(** * How the grid fits the events *)

Lemma Math_round_sqrt_fit (k : N) :
  let r := Math_round_sqrt k in
  (0 <= r /\ Z.of_N k <= r * r + r /\ (0 < r -> r * r - r < Z.of_N k))%Z.
Proof.
  cbv zeta. destruct (Math_round_sqrt_bounds k) as (H0 & Hup & Hlo).
  set (r := Math_round_sqrt k) in *.
  split; [exact H0 |]. split; [nia |]. intro Hr.
  destruct Hlo as [E | Hlo]; [lia | nia].
Qed.

Lemma Math_round_sqrt_monotone (j k : N) :
  (j <= k)%N -> (Math_round_sqrt j <= Math_round_sqrt k)%Z.
Proof.
  intro Hle.
  destruct (Math_round_sqrt_fit j) as (J0 & J1 & J2).
  destruct (Math_round_sqrt_fit k) as (K0 & K1 & K2).
  set (a := Math_round_sqrt j) in *. set (b := Math_round_sqrt k) in *.
  destruct (Z.le_gt_cases a b) as [H | H]; [exact H |].
  exfalso. specialize (J2 ltac:(lia)). nia.
Qed.

(** X16.  The grid size grows with the number of events.  When the
    rounded square root [r] of the number [k] of events counted (at
    most [maxEvents]) is not clamped, the grid of size [n = r] has
    fewer than [n] cells more than [k] and at most [n] cells fewer;
    when it is clamped up to [minGridSize], at least [n] cells have no
    event; when it is clamped down to [maxGridSize], more than [n]
    events have no cell. *)
Theorem calculateGridSize_fits_events :
  forall (eventCount eventCount' : N) (config : Config),
    let k := N.min eventCount (maxEvents config) in
    let r := Math_round_sqrt k in
    let n := calculateGridSize eventCount config in
    ((eventCount <= eventCount')%N ->
     (n <= calculateGridSize eventCount' config)%Z)
    /\ ((minGridSize config <= r <= maxGridSize config)%Z ->
        (n = r /\ Z.of_N k <= n * n + n /\ (0 < n -> n * n - n < Z.of_N k))%Z)
    /\ ((r < minGridSize config <= maxGridSize config)%Z ->
        (n = minGridSize config /\ Z.of_N k <= n * n - n)%Z)
    /\ ((0 <= minGridSize config <= maxGridSize config)%Z ->
        (maxGridSize config < r)%Z ->
        (n = maxGridSize config /\ n * n + n < Z.of_N k)%Z).
Proof.
  intros eventCount eventCount' config k r n.
  destruct (Math_round_sqrt_fit k) as (R0 & R1 & R2). fold r in R0, R1, R2.
  split; [| split; [| split]].
  - intro Hle. unfold n, calculateGridSize, clampZ.
    pose proof (Math_round_sqrt_monotone
                  (N.min eventCount (maxEvents config))
                  (N.min eventCount' (maxEvents config)) ltac:(lia)) as Hm.
    lia.
  - intro Hr. assert (Hn : n = r) by (unfold n, calculateGridSize, clampZ; fold k r; lia).
    rewrite Hn. split; [reflexivity |]. split; assumption.
  - intro Hr.
    assert (Hn : n = minGridSize config)
      by (unfold n, calculateGridSize, clampZ; fold k r; lia).
    rewrite Hn. split; [reflexivity |]. nia.
  - intros Hm Hr.
    assert (Hn : n = maxGridSize config)
      by (unfold n, calculateGridSize, clampZ; fold k r; lia).
    rewrite Hn. split; [reflexivity |].
    specialize (R2 ltac:(lia)). nia.
Qed.

(** * The motif marks *)

(** A segment through a point of the rectangle is never clipped away. *)
Lemma clipLineToRect_through x1 y1 x2 y2 rx ry rw rh t :
  0 <= t -> t <= 1 ->
  inRect rx ry rw rh (x1 + t * (x2 - x1)) (y1 + t * (y2 - y1)) ->
  exists seg, clipLineToRect x1 y1 x2 y2 rx ry rw rh = Some seg.
Proof.
  intros T0 T1 Hin. unfold clipLineToRect. cbv zeta.
  destruct (clipLoop (0, 1) _) as [[t0 t1] |] eqn:Hloop; [eexists; reflexivity |].
  exfalso. assert (H01 : 0 <= 1) by lra.
  apply (clipLoop_None _ _ _ Hloop H01 t T0 T1).
  apply feasible_inRect. exact Hin.
Qed.

Section MotifFacts.
Context {M : MathLib}.
Variables cellX cellY cellW cellH : Q.

Lemma centred_mark_found (dx dy : Q) :
  0 <= cellW -> 0 <= cellH ->
  exists seg,
    clipLineToRect (cellX + cellW / 2 - dx) (cellY + cellH / 2 - dy)
                   (cellX + cellW / 2 + dx) (cellY + cellH / 2 + dy)
                   cellX cellY cellW cellH = Some seg.
Proof.
  intros Hw Hh. apply (clipLineToRect_through _ _ _ _ _ _ _ _ (1 # 2)); try lra.
  eapply inRect_Qeq; [| | apply (centre_inRect cellX cellY cellW cellH Hw Hh)]; ring.
Qed.

Lemma centred_mark_run (pen : list DrawCall) (dx dy : Q) st :
  exists lines,
    match clipLineToRect (cellX + cellW / 2 - dx) (cellY + cellH / 2 - dy)
                         (cellX + cellW / 2 + dx) (cellY + cellH / 2 + dy)
                         cellX cellY cellW cellH with
    | Some (c0, c1, c2, c3) => g_call (g_line c0 c1 c2 c3)
    | None => ret tt
    end (advance st pen 0)
    = Returned tt (advance st (pen ++ lines) 0)
    /\ Forall (isLineIn cellX cellY cellW cellH) lines
    /\ (List.length lines <= 1)%nat
    /\ (0 <= cellW -> 0 <= cellH -> List.length lines = 1%nat).
Proof.
  destruct (clipLineToRect _ _ _ _ _ _ _ _) as [[[[c0 c1] c2] c3] |] eqn:Hclip.
  - exists [g_line c0 c1 c2 c3]. split.
    + unfold g_call, advance. cbn [calls rngSeed]. rewrite <- app_assoc. reflexivity.
    + apply clipLineToRect_inside in Hclip.
      split; [repeat constructor; apply Hclip |]. split; [cbn; lia | reflexivity].
  - exists []. rewrite app_nil_r. split; [reflexivity |]. split; [constructor |].
    split; [cbn; lia |]. intros Hw Hh.
    destruct (centred_mark_found dx dy Hw Hh) as [seg Hs]. congruence.
Qed.

(** The loop of [drawRadialLines]: two numbers from the generator and
    at most one line per turn. *)
Lemma radial_loop (turns : list nat) : forall st,
  exists lines,
    forEach turns (fun _ =>
      angle <- rng_range 0 (Math_PI * 2) ;;
      lengthRatio <- rng_range (radialLinesMinLength (motifs LEWITT_CONFIG))
                               (radialLinesMaxLength (motifs LEWITT_CONFIG)) ;;
      match clipLineToRect (cellX + cellW / 2) (cellY + cellH / 2)
              (cellX + cellW / 2 + Math_cos angle * (Math_min cellW cellH * lengthRatio))
              (cellY + cellH / 2 + Math_sin angle * (Math_min cellW cellH * lengthRatio))
              cellX cellY cellW cellH with
      | Some (c0, c1, c2, c3) => g_call (g_line c0 c1 c2 c3)
      | None => ret tt
      end) st
    = Returned tt (advance st lines (2 * List.length turns))
    /\ Forall (isLineIn cellX cellY cellW cellH) lines
    /\ (List.length lines <= List.length turns)%nat
    /\ (0 <= cellW -> 0 <= cellH -> List.length lines = List.length turns).
Proof.
  induction turns as [| i rest IH]; intro st; cbn [forEach].
  - exists []. rewrite advance_nil. split; [reflexivity |]. split; [constructor |].
    split; [cbn; lia | reflexivity].
  - set (angle := 0 + snd (mulberry32 (rngSeed st)) * (Math_PI * 2 - 0)).
    set (st1 := {| calls := calls st; rngSeed := (rngSeed st + 1831565813)%Z |}).
    set (lengthRatio :=
           radialLinesMinLength (motifs LEWITT_CONFIG)
           + snd (mulberry32 (rngSeed st1))
             * (radialLinesMaxLength (motifs LEWITT_CONFIG)
                - radialLinesMinLength (motifs LEWITT_CONFIG))).
    set (st2 := {| calls := calls st1; rngSeed := (rngSeed st1 + 1831565813)%Z |}).
    assert (Hst : forall added k, advance st2 added k = advance st added (2 + k)).
    { intros added k. unfold advance, st2, st1. cbn [calls rngSeed]. f_equal. lia. }
    destruct (clipLineToRect (cellX + cellW / 2) (cellY + cellH / 2)
                (cellX + cellW / 2 + Math_cos angle * (Math_min cellW cellH * lengthRatio))
                (cellY + cellH / 2 + Math_sin angle * (Math_min cellW cellH * lengthRatio))
                cellX cellY cellW cellH) as [[[[c0 c1] c2] c3] |] eqn:Hclip.
    + set (st3 := {| calls := calls st2 ++ [g_line c0 c1 c2 c3]; rngSeed := rngSeed st2 |}).
      destruct (IH st3) as (lines & Hrun & Hall & Hle & Heq).
      exists (g_line c0 c1 c2 c3 :: lines).
      rewrite (bind_Returned _ _ st tt st3).
      2: { rewrite (bind_Returned _ _ st angle st1) by apply rng_range_run.
           rewrite (bind_Returned _ _ st1 lengthRatio st2) by apply rng_range_run.
           fold angle. rewrite Hclip. reflexivity. }
      cbv beta. rewrite Hrun. split.
      { f_equal. unfold advance, st3, st2, st1. cbn [calls rngSeed List.length].
        rewrite <- app_assoc. f_equal. lia. }
      apply clipLineToRect_inside in Hclip.
      split; [constructor; [exact Hclip | exact Hall] |].
      cbn [List.length]. split; [lia |]. intros Hw Hh. rewrite Heq; auto.
    + destruct (IH st2) as (lines & Hrun & Hall & Hle & Heq).
      exists lines.
      rewrite (bind_Returned _ _ st tt st2).
      2: { rewrite (bind_Returned _ _ st angle st1) by apply rng_range_run.
           rewrite (bind_Returned _ _ st1 lengthRatio st2) by apply rng_range_run.
           fold angle. rewrite Hclip. reflexivity. }
      cbv beta. rewrite Hrun, Hst. split; [f_equal; f_equal; cbn [List.length]; lia |].
      split; [exact Hall |]. cbn [List.length]. split; [lia |].
      intros Hw Hh. exfalso.
      destruct (clipLineToRect_from_inside (cellX + cellW / 2) (cellY + cellH / 2)
                  (cellX + cellW / 2 + Math_cos angle * (Math_min cellW cellH * lengthRatio))
                  (cellY + cellH / 2 + Math_sin angle * (Math_min cellW cellH * lengthRatio))
                  cellX cellY cellW cellH (centre_inRect cellX cellY cellW cellH Hw Hh))
        as [seg Hs].
      congruence.
Qed.
End MotifFacts.

(** X17.  The motif marks stay in the cell.  [drawRadialLines] sets the
    stroke, takes two numbers from the generator per turn and draws at
    most one line per turn; [drawUndoMark] and [drawPasteMark] set the
    stroke and draw at most one line; every such line has both ends in
    the closed cell, and none is missing when the width and the height
    of the cell are not negative.  [drawAiPromptMark] draws the
    horizontal line through the centre from the left to the right side
    of the cell. *)
Theorem motif_marks_stay_in_cell :
  forall (M : MathLib) (cellX cellY cellW cellH scale : Q) (st : RenderState),
    (forall count : Z, exists lines,
        drawRadialLines cellX cellY cellW cellH count scale st
        = Returned tt
            (advance st ([g_stroke 0 120;
                          g_strokeWeight (Math_max (1 # 2) ((12 # 10) * scale))] ++ lines)
                     (2 * Z.to_nat count))
        /\ Forall (isLineIn cellX cellY cellW cellH) lines
        /\ (List.length lines <= Z.to_nat count)%nat
        /\ (0 <= cellW -> 0 <= cellH -> List.length lines = Z.to_nat count))
    /\ (forall hatchAngle : Q, exists lines,
        drawUndoMark cellX cellY cellW cellH hatchAngle scale st
        = Returned tt
            (advance st ([g_stroke 0 80;
                          g_strokeWeight (Math_max (1 # 2) ((15 # 10) * scale))] ++ lines) 0)
        /\ Forall (isLineIn cellX cellY cellW cellH) lines
        /\ (List.length lines <= 1)%nat
        /\ (0 <= cellW -> 0 <= cellH -> List.length lines = 1%nat))
    /\ (forall hatchAngle weight : Q, exists lines,
        drawPasteMark cellX cellY cellW cellH hatchAngle weight scale st
        = Returned tt
            (advance st ([g_stroke 0 180;
                          g_strokeWeight (Math_max 1 (weight * (25 # 10) * scale))]
                         ++ lines) 0)
        /\ Forall (isLineIn cellX cellY cellW cellH) lines
        /\ (List.length lines <= 1)%nat
        /\ (0 <= cellW -> 0 <= cellH -> List.length lines = 1%nat))
    /\ (drawAiPromptMark cellX cellY cellW cellH scale st
        = Returned tt
            (advance st [g_stroke 0 200; g_strokeWeight (Math_max 1 (2 * scale));
                         g_line cellX (cellY + cellH / 2) (cellX + cellW)
                                (cellY + cellH / 2)] 0)
        /\ (0 <= cellW -> 0 <= cellH ->
            isLineIn cellX cellY cellW cellH
                     (g_line cellX (cellY + cellH / 2) (cellX + cellW)
                             (cellY + cellH / 2)))).
Proof.
  intros M cellX cellY cellW cellH scale st.
  assert (Hpen : forall c1 c2,
            {| calls := calls {| calls := calls st ++ [c1]; rngSeed := rngSeed st |} ++ [c2];
               rngSeed := rngSeed {| calls := calls st ++ [c1]; rngSeed := rngSeed st |} |}
            = advance st [c1; c2] 0).
  { intros c1 c2. unfold advance. cbn [calls rngSeed]. rewrite <- app_assoc.
    f_equal. lia. }
  split; [| split; [| split]].
  - intro count. unfold drawRadialLines. cbv zeta. rewrite !bind_g_call, Hpen.
    destruct (radial_loop cellX cellY cellW cellH (seq 0 (Z.to_nat count))
                          (advance st [g_stroke 0 120;
                             g_strokeWeight (Math_max (1 # 2) ((12 # 10) * scale))] 0))
      as (lines & Hrun & H).
    exists lines. rewrite length_seq in *. split; [| exact H].
    rewrite Hrun, advance_advance. reflexivity.
  - intro hatchAngle. unfold drawUndoMark. cbv zeta. rewrite !bind_g_call, Hpen.
    cbn [undoLineAlpha motifs LEWITT_CONFIG].
    apply (centred_mark_run cellX cellY cellW cellH).
  - intros hatchAngle weight. unfold drawPasteMark. cbv zeta.
    rewrite !bind_g_call, Hpen. cbn [pasteLineWeightMultiplier motifs LEWITT_CONFIG].
    apply (centred_mark_run cellX cellY cellW cellH).
  - split.
    + unfold drawAiPromptMark. cbv zeta. rewrite !bind_g_call. unfold g_call, advance.
      cbn [calls rngSeed]. rewrite <- !app_assoc. cbn [app].
      do 2 f_equal. lia.
    + intros Hw Hh. cbn [isLineIn]. unfold inRect.
      assert (E2 : cellH / 2 == cellH * (1 # 2)) by (unfold Qdiv; reflexivity).
      repeat split; lra.
Qed.

(** * The merge tool: duplicates *)

Lemma mapHas_In {V} key (m : list (string * V)) :
  mapHas key m = true <-> In key (map fst m).
Proof.
  unfold mapHas. rewrite existsb_exists. split.
  - intros ([k v] & Hin & Hk). apply String.eqb_eq in Hk. cbn [fst] in Hk. subst.
    apply in_map_iff. exists (key, v). split; [reflexivity | exact Hin].
  - intro Hin. apply in_map_iff in Hin. destruct Hin as ([k v] & Hk & Hin).
    cbn [fst] in Hk. subst. exists (key, v). split; [exact Hin |].
    apply String.eqb_refl.
Qed.

Lemma mapSet_new {V} key (v : V) m :
  ~ In key (map fst m) -> mapSet key v m = m ++ [(key, v)].
Proof.
  induction m as [| [k v0] rest IH]; intro Hnot; cbn [mapSet app]; [reflexivity |].
  destruct (String.eqb_spec k key) as [E | N].
  - exfalso. apply Hnot. left. exact E.
  - rewrite IH; [reflexivity |]. intro Hin. apply Hnot. right. exact Hin.
Qed.

Lemma mapSet_keys {V} key (v : V) m :
  In key (map fst m) -> map fst (mapSet key v m) = map fst m.
Proof.
  induction m as [| [k v0] rest IH]; intro Hin; cbn [mapSet map fst]; [destruct Hin |].
  destruct (String.eqb_spec k key) as [E | N]; cbn [map fst]; [reflexivity |].
  f_equal. apply IH. destruct Hin as [E | Hin]; [contradiction | exact Hin].
Qed.

Lemma mapSet_In {V} key (v : V) m k w :
  NoDup (map fst m) ->
  In (k, w) (mapSet key v m) <->
  (k = key /\ w = v) \/ (k <> key /\ In (k, w) m).
Proof.
  induction m as [| [k0 v0] rest IH]; intro Hnd; cbn [mapSet].
  - cbn [In]. split.
    + intros [E | []]. inversion E; subst. left. split; reflexivity.
    + intros [[-> ->] | [_ []]]. left. reflexivity.
  - inversion Hnd as [| ? ? Hnot Hnd']; subst.
    destruct (String.eqb_spec k0 key) as [E | N]; cbn [In].
    + subst k0. split.
      * intros [E | Hin].
        -- inversion E; subst. left. split; reflexivity.
        -- right. split; [| right; exact Hin].
           intro Ek. subst k. apply Hnot. apply in_map_iff.
           exists (key, w). split; [reflexivity | exact Hin].
      * intros [[-> ->] | [Hne [E | Hin]]].
        -- left. reflexivity.
        -- inversion E; subst. contradiction.
        -- right. exact Hin.
    + rewrite (IH Hnd'). split.
      * intros [E | [H | [Hne Hin]]].
        -- inversion E; subst. right. split; [exact N | left; reflexivity].
        -- left. exact H.
        -- right. split; [exact Hne | right; exact Hin].
      * intros [H | [Hne [E | Hin]]].
        -- right. left. exact H.
        -- left. exact E.
        -- right. right. split; assumption.
Qed.

Lemma last_fresh_snoc {A} (fresh : A -> bool) (same : list A) (e : A) :
  match same ++ [e] with
  | [] => None
  | first :: others => Some (last (filter fresh (first :: others)) first)
  end
  = Some (if fresh e then e
          else match same with
               | [] => e
               | first :: others => last (filter fresh (first :: others)) first
               end).
Proof.
  destruct same as [| first others].
  - cbn [app filter]. destruct (fresh e); reflexivity.
  - change ((first :: others) ++ [e]) with (first :: (others ++ [e])). cbv iota.
    f_equal. change (first :: (others ++ [e])) with ((first :: others) ++ [e]).
    rewrite filter_app. set (kept := filter fresh (first :: others)).
    cbn [filter]. destruct (fresh e); [apply last_last | rewrite app_nil_r; reflexivity].
Qed.

Lemma keyWinner_snoc key (p : list LogEntry) (e : LogEntry) :
  keyWinner key (p ++ [e])
  = if String.eqb (entryKey e) key
    then Some (if negb (truthyStr (entry_merged_at e)) then e
               else match keyWinner key p with Some w => w | None => e end)
    else keyWinner key p.
Proof.
  unfold keyWinner. rewrite filter_app.
  assert (E : filter (fun x => String.eqb (entryKey x) key) [e]
              = if String.eqb (entryKey e) key then [e] else []) by reflexivity.
  rewrite E.
  destruct (String.eqb (entryKey e) key); [| rewrite app_nil_r; reflexivity].
  rewrite (last_fresh_snoc (fun x => negb (truthyStr (entry_merged_at x)))).
  destruct (filter (fun x => String.eqb (entryKey x) key) p); reflexivity.
Qed.

Lemma keyWinner_None key (p : list LogEntry) :
  keyWinner key p = None <-> ~ In key (map entryKey p).
Proof.
  unfold keyWinner.
  destruct (filter (fun x => String.eqb (entryKey x) key) p) as [| f o] eqn:Hf.
  - split; [| reflexivity]. intros _ Hin. apply in_map_iff in Hin.
    destruct Hin as (x & Hx & Hxin).
    assert (H : In x (filter (fun x => String.eqb (entryKey x) key) p)).
    { apply filter_In. split; [exact Hxin |]. rewrite Hx. apply String.eqb_refl. }
    rewrite Hf in H. destruct H.
  - split; [discriminate |]. intro Hnot. exfalso. apply Hnot.
    assert (H : In f (filter (fun x => String.eqb (entryKey x) key) p))
      by (rewrite Hf; left; reflexivity).
    apply filter_In in H. destruct H as [Hfp Hk]. apply String.eqb_eq in Hk.
    apply in_map_iff. exists f. split; assumption.
Qed.

(** What the map holds after the loop has run over [entries]. *)
Lemma dedup_invariant (entries : list LogEntry) :
  let seen := fold_left dedupTurn entries [] in
  NoDup (map fst seen)
  /\ (forall key, In key (map fst seen) <-> In key (map entryKey entries))
  /\ (forall key v, In (key, v) seen <-> keyWinner key entries = Some v).
Proof.
  induction entries as [| e p IH] using rev_ind; cbv zeta.
  - cbn. split; [constructor |]. split; [tauto |].
    intros key v. split; [intros [] | discriminate].
  - rewrite fold_left_app. cbn [fold_left].
    cbv zeta in IH. destruct IH as (Hnd & Hkeys & Hwin).
    set (seen := fold_left dedupTurn p []) in *.
    assert (Hkeys' : forall key,
              In key (map entryKey (p ++ [e]))
              <-> In key (map entryKey p) \/ key = entryKey e).
    { intro key. rewrite map_app, in_app_iff. cbn [map In]. intuition congruence. }
    unfold dedupTurn. cbv zeta.
    destruct (mapHas (entryKey e) seen) eqn:Hhas; cbn [negb orb].
    + (* the key is present *)
      assert (Hin : In (entryKey e) (map fst seen)) by (apply mapHas_In; exact Hhas).
      assert (Hsome : exists w, keyWinner (entryKey e) p = Some w).
      { destruct (keyWinner (entryKey e) p) as [w |] eqn:Hw; [exists w; reflexivity |].
        apply keyWinner_None in Hw. exfalso. apply Hw, Hkeys, Hin. }
      destruct Hsome as [w Hw].
      destruct (truthyStr (entry_merged_at e)) eqn:Hmerged; cbn [negb].
      * (* an entry that was merged before: the map stays *)
        split; [exact Hnd |]. split.
        { intro key. rewrite Hkeys', Hkeys. split; [tauto |].
          intros [H | ->]; [exact H |]. apply Hkeys. exact Hin. }
        intros key v. rewrite Hwin, keyWinner_snoc, Hmerged. cbn [negb].
        destruct (String.eqb_spec (entryKey e) key) as [<- | Hne]; [| reflexivity].
        rewrite Hw. reflexivity.
      * (* a new entry: it takes the place *)
        split; [rewrite mapSet_keys; assumption |]. split.
        { intro key. rewrite mapSet_keys by exact Hin. rewrite Hkeys', Hkeys.
          split; [tauto |]. intros [H | ->]; [exact H |]. apply Hkeys. exact Hin. }
        intros key v. rewrite (mapSet_In _ _ _ _ _ Hnd), Hwin, keyWinner_snoc, Hmerged.
        cbn [negb].
        destruct (String.eqb_spec (entryKey e) key) as [<- | Hne].
        -- split.
           ++ intros [[_ ->] | [Hne _]]; [reflexivity | congruence].
           ++ intro H. inversion H. left. split; reflexivity.
        -- split; [intros [[E _] | [_ H]]; [congruence | exact H] |].
           intro H. right. split; [congruence | exact H].
    + (* the key is new *)
      assert (Hnot : ~ In (entryKey e) (map fst seen)).
      { intro Hin. apply mapHas_In in Hin. congruence. }
      rewrite (mapSet_new _ _ _ Hnot).
      assert (Hnone : keyWinner (entryKey e) p = None).
      { apply keyWinner_None. intro Hin. apply Hnot, Hkeys, Hin. }
      split.
      { rewrite map_app. cbn [map fst].
        apply NoDup_app; [exact Hnd | repeat constructor; intros [] |].
        intros x Hx [<- | []]. exact (Hnot Hx). }
      split.
      { intro key. rewrite map_app, in_app_iff. cbn [map fst In].
        rewrite Hkeys', Hkeys. intuition congruence. }
      intros key v. rewrite in_app_iff. cbn [In]. rewrite Hwin, keyWinner_snoc.
      destruct (String.eqb_spec (entryKey e) key) as [<- | Hne].
      * rewrite Hnone.
        assert (Hv : (if negb (truthyStr (entry_merged_at e)) then e else e) = e)
          by (destruct (negb _); reflexivity).
        rewrite Hv. split.
        -- intros [H | [H | []]]; [discriminate | inversion H; reflexivity].
        -- intro H. inversion H. right. left. reflexivity.
      * split; [| intro H; left; exact H].
        intros [H | [H | []]]; [exact H |]. inversion H. congruence.
Qed.

Lemma keyWinner_key key (p : list LogEntry) v :
  keyWinner key p = Some v -> In v p /\ entryKey v = key.
Proof.
  unfold keyWinner.
  destruct (filter (fun x => String.eqb (entryKey x) key) p) as [| first others] eqn:Hf;
    [discriminate |].
  set (kept := filter (fun e => negb (truthyStr (entry_merged_at e))) (first :: others)).
  intro H.
  assert (Hv : last kept first = v) by congruence.
  assert (Hin : In v (first :: others)).
  { pose proof (last_In kept first) as Hl.
    rewrite Hv in Hl. destruct Hl as [E | Hl].
    - rewrite <- E. left. reflexivity.
    - apply filter_In in Hl. exact (proj1 Hl). }
  rewrite <- Hf in Hin. apply filter_In in Hin. destruct Hin as [Hp Hk].
  apply String.eqb_eq in Hk. split; assumption.
Qed.

Lemma dedup_keys (entries : list LogEntry) :
  map entryKey (deduplicateEntries entries) = map fst (fold_left dedupTurn entries []).
Proof.
  unfold deduplicateEntries. rewrite map_map. apply map_ext_in.
  intros [k v] Hin. cbn [fst snd].
  apply (proj2 (proj2 (dedup_invariant entries))) in Hin.
  apply keyWinner_key in Hin. exact (proj2 Hin).
Qed.

Lemma dedup_In (entries : list LogEntry) e' :
  In e' (deduplicateEntries entries) <-> keyWinner (entryKey e') entries = Some e'.
Proof.
  destruct (dedup_invariant entries) as (_ & _ & Hwin). cbv zeta in Hwin.
  unfold deduplicateEntries. rewrite in_map_iff. split.
  - intros ([k v] & Hv & Hin). cbn [snd] in Hv. subst v.
    apply Hwin in Hin. destruct (keyWinner_key _ _ _ Hin) as [_ Hk].
    rewrite Hk. exact Hin.
  - intro H. exists (entryKey e', e'). split; [reflexivity |]. apply Hwin. exact H.
Qed.

Lemma dedup_distinct (entries : list LogEntry) :
  NoDup (map entryKey entries) ->
  fold_left dedupTurn entries [] = map (fun e => (entryKey e, e)) entries.
Proof.
  induction entries as [| e p IH] using rev_ind; intro Hnd; [reflexivity |].
  rewrite map_app in Hnd.
  pose proof (NoDup_app_remove_r _ _ Hnd) as Hp.
  rewrite fold_left_app, (IH Hp). cbn [fold_left]. unfold dedupTurn. cbv zeta.
  assert (Hnot : ~ In (entryKey e) (map fst (map (fun e0 => (entryKey e0, e0)) p))).
  { rewrite map_map. cbn [fst]. intro Hin.
    cbn [map] in Hnd. apply NoDup_remove_2 in Hnd. apply Hnd.
    rewrite app_nil_r. exact Hin. }
  assert (Hhas : mapHas (entryKey e) (map (fun e0 => (entryKey e0, e0)) p) = false).
  { destruct (mapHas _ _) eqn:H; [| reflexivity].
    apply mapHas_In in H. contradiction. }
  rewrite Hhas. cbn [negb orb]. rewrite (mapSet_new _ _ _ Hnot), map_app.
  reflexivity.
Qed.

(** X18.  [deduplicateEntries] returns one entry per key
    [ts_session_event] of the input, each an entry of the input: for a
    key, the last entry that has no [merged_at], and the first entry
    with the key when all have one.  No key of the input is lost, the
    result is not longer than the input, an input without repeated
    keys is returned as it is, and a second pass changes nothing. *)
Theorem deduplicateEntries_keeps_one_per_key :
  forall entries : list LogEntry,
    let out := deduplicateEntries entries in
    NoDup (map entryKey out)
    /\ (forall e, In e out <-> keyWinner (entryKey e) entries = Some e)
    /\ incl out entries
    /\ (forall e, In e entries -> exists e', In e' out /\ entryKey e' = entryKey e)
    /\ (List.length out <= List.length entries)%nat
    /\ (NoDup (map entryKey entries) -> out = entries)
    /\ deduplicateEntries out = out.
Proof.
  intros entries out.
  destruct (dedup_invariant entries) as (Hnd & Hkeys & Hwin). cbv zeta in *.
  assert (Hout : NoDup (map entryKey out)).
  { unfold out. rewrite dedup_keys. exact Hnd. }
  assert (Hincl : incl out entries).
  { intros e He. apply dedup_In in He. apply keyWinner_key in He. exact (proj1 He). }
  assert (Hsame : forall l, NoDup (map entryKey l) -> deduplicateEntries l = l).
  { intros l Hl. unfold deduplicateEntries. rewrite (dedup_distinct l Hl).
    rewrite map_map. cbn [snd]. apply map_id. }
  split; [exact Hout |]. split; [intro e; apply dedup_In |].
  split; [exact Hincl |]. split.
  { intros e He.
    assert (Hk : In (entryKey e) (map entryKey out)).
    { unfold out. rewrite dedup_keys. apply Hkeys. apply in_map. exact He. }
    apply in_map_iff in Hk. destruct Hk as (e' & Hk & Hin).
    exists e'. split; assumption. }
  split.
  { rewrite <- (length_map entryKey out), <- (length_map entryKey entries).
    apply NoDup_incl_length; [exact Hout |].
    intros k Hk. apply in_map_iff in Hk. destruct Hk as (e & <- & He).
    apply in_map. apply Hincl. exact He. }
  split; [apply Hsame | apply Hsame; exact Hout].
Qed.

Example deduplicateEntries_sample :
  let fresh := {| entry_ts := 1700000000123; entry_session_id := Some "s1";
                  entry_event := Some "edit"; entry_elapsed_ms := 40;
                  entry_original_elapsed_ms := None; entry_merged_at := None;
                  entry_other := [] |} in
  let merged := {| entry_ts := 1700000000123; entry_session_id := Some "s1";
                   entry_event := Some "edit"; entry_elapsed_ms := 940;
                   entry_original_elapsed_ms := None;
                   entry_merged_at := Some "2024-01-01T00:00:00.000Z";
                   entry_other := [] |} in
  entryKey fresh = "1700000000123_s1_edit"
  /\ deduplicateEntries [merged; fresh] = [fresh]
  /\ deduplicateEntries [fresh; merged] = [fresh]
  /\ deduplicateEntries [merged; merged] = [merged].
Proof. cbv zeta. repeat split; vm_compute; reflexivity. Qed.

(** * The merge tool: elapsed times *)

Lemma sameId_eq a b : sameId a b = true <-> a = b.
Proof.
  destruct a as [x |], b as [y |]; cbn [sameId]; split; intro H;
    try discriminate; try reflexivity.
  - apply String.eqb_eq in H. congruence.
  - inversion H. apply String.eqb_refl.
Qed.

(** ** Grouping *)

Lemma groupPush_perm entry m :
  Permutation (flat_map snd (groupPush entry m)) (entry :: flat_map snd m).
Proof.
  induction m as [| [k es] rest IH]; cbn [groupPush flat_map snd app].
  - apply Permutation_refl.
  - destruct (sameId k (entry_session_id entry)); cbn [flat_map snd].
    + rewrite <- app_assoc. cbn [app].
      apply Permutation_sym, Permutation_middle.
    + eapply perm_trans; [apply Permutation_app_head; exact IH |].
      apply Permutation_sym, Permutation_middle.
Qed.

Lemma groups_perm (entries : list LogEntry) : forall m,
  Permutation (flat_map snd (fold_left (fun m entry => groupPush entry m) entries m))
              (flat_map snd m ++ entries).
Proof.
  induction entries as [| e rest IH]; intro m; cbn [fold_left].
  - rewrite app_nil_r. apply Permutation_refl.
  - eapply perm_trans; [apply IH |].
    eapply perm_trans; [apply Permutation_app_tail; apply groupPush_perm |].
    cbn [app]. apply Permutation_middle.
Qed.

Lemma groupPush_keys entry m k :
  In k (map fst (groupPush entry m)) -> In k (map fst m) \/ k = entry_session_id entry.
Proof.
  induction m as [| [k0 es] rest IH]; cbn [groupPush map fst].
  - intros [<- | []]. right. reflexivity.
  - destruct (sameId k0 (entry_session_id entry)); cbn [map fst In].
    + intro H. left. exact H.
    + intros [<- | H]; [left; left; reflexivity |].
      destruct (IH H) as [A | B]; [left; right; exact A | right; exact B].
Qed.

Lemma groupPush_ok entry m : groupsOk m -> groupsOk (groupPush entry m).
Proof.
  unfold groupsOk. induction m as [| [k es] rest IH]; intros [Hnd Hall]; cbn [groupPush].
  - split; [repeat constructor; intros [] |].
    repeat constructor; cbn [fst snd]; discriminate.
  - inversion Hnd as [| ? ? Hnot Hnd']; subst.
    inversion Hall as [| ? ? [Hne Hids] Hall']; subst. cbn [fst snd] in *.
    destruct (sameId k (entry_session_id entry)) eqn:Hid.
    + apply sameId_eq in Hid. split; [exact Hnd |].
      constructor; [| exact Hall']. cbn [fst snd]. split.
      * intro E. apply app_eq_nil in E. destruct E as [_ E]. discriminate.
      * apply Forall_app. split; [exact Hids |]. repeat constructor. congruence.
    + destruct (IH (conj Hnd' Hall')) as [Hnd2 Hall2].
      split; [| constructor; [split; assumption | exact Hall2]].
      cbn [map fst]. constructor; [| exact Hnd2].
      intro Hin. apply groupPush_keys in Hin. destruct Hin as [A | B];
        [contradiction |].
      assert (Ht : sameId k (entry_session_id entry) = true)
        by (apply sameId_eq; exact B).
      congruence.
Qed.

Lemma groups_ok (entries : list LogEntry) : forall m,
  groupsOk m -> groupsOk (fold_left (fun m entry => groupPush entry m) entries m).
Proof.
  induction entries as [| e rest IH]; intros m Hm; cbn [fold_left]; [exact Hm |].
  apply IH. apply groupPush_ok. exact Hm.
Qed.

(** ** Stamping *)

Lemma stampEntries_spec clock start sts : forall es pushed m,
  let stamped := fst (stampEntries clock pushed start sts m es) in
  List.length stamped = List.length es
  /\ (m <= snd (stampEntries clock pushed start sts m es))%Z
  /\ forall j e, nth_error stamped j = Some e ->
       exists e0, nth_error es j = Some e0
                  /\ entryCore e = entryCore e0
                  /\ entry_merged_at e = Some (clock (pushed + j)%nat)
                  /\ entry_original_elapsed_ms e = Some (getOriginalElapsedMs e0 sts)
                  /\ entry_elapsed_ms e = (start + getOriginalElapsedMs e0 sts)%Z.
Proof.
  induction es as [| e0 rest IH]; intros pushed m; cbn [stampEntries]; cbv zeta.
  - cbn [fst snd]. split; [reflexivity |]. split; [lia |].
    intros j e H. destruct j; discriminate.
  - specialize (IH (S pushed) (Z.max m (entry_elapsed_ms e0))). cbv zeta in IH.
    destruct (stampEntries clock (S pushed) start sts
                           (Z.max m (entry_elapsed_ms e0)) rest) as [more maxE].
    cbn [fst snd] in *. destruct IH as (Hlen & Hmax & Hnth).
    split; [cbn [List.length]; lia |]. split; [lia |].
    intros j e H. destruct j as [| j]; cbn [nth_error] in *.
    + inversion H; subst. exists e0. rewrite Nat.add_0_r.
      repeat split; reflexivity.
    + destruct (Hnth j e H) as (e1 & A & B & C & D & E).
      exists e1. replace (pushed + S j)%nat with (S pushed + j)%nat by lia.
      repeat split; assumption.
Qed.

Lemma stamped_offset clock start sts es pushed m e :
  In e (fst (stampEntries clock pushed start sts m es)) ->
  sessionOffset e = start
  /\ exists e0, In e0 es /\ entryCore e = entryCore e0.
Proof.
  intro Hin. apply In_nth_error in Hin. destruct Hin as [j Hj].
  destruct (stampEntries_spec clock start sts es pushed m) as (_ & _ & Hnth).
  destruct (Hnth j e Hj) as (e0 & A & B & _ & D & E).
  split.
  - unfold sessionOffset. rewrite D, E. lia.
  - exists e0. split; [eapply nth_error_In; exact A | exact B].
Qed.

Lemma entryCore_session e e0 :
  entryCore e = entryCore e0 -> entry_session_id e = entry_session_id e0.
Proof. unfold entryCore. intro H. inversion H. reflexivity. Qed.

Lemma stampSessions_spec clock : forall sessions pushed cum,
  let out := stampSessions clock pushed cum sessions in
  map entryCore out = map entryCore (flat_map sessionEntries sessions)
  /\ (forall j e, nth_error out j = Some e ->
        entry_merged_at e = Some (clock (pushed + j)%nat)
        /\ (cum <= sessionOffset e)%Z
        /\ exists s e0, In s sessions /\ In e0 (sessionEntries s)
                        /\ entryCore e = entryCore e0
                        /\ entry_original_elapsed_ms e
                           = Some (getOriginalElapsedMs e0 (firstTs (sessionEntries s))))
  /\ (sessionsOk sessions ->
      forall e e', In e out -> In e' out ->
                   entry_session_id e = entry_session_id e' ->
                   sessionOffset e = sessionOffset e')
  /\ (forall s rest, sessions = s :: rest -> sessionEntries s <> [] ->
      exists e more, out = e :: more /\ sessionOffset e = cum).
Proof.
  induction sessions as [| s rest IH]; intros pushed cum; cbn [stampSessions]; cbv zeta.
  - cbn. split; [reflexivity |]. split; [intros j e H; destruct j; discriminate |].
    split; [intros _ e e' []|]. intros s rest H. discriminate.
  - pose proof (stampEntries_spec clock cum (firstTs (sessionEntries s))
                                  (sessionEntries s) pushed 0) as Hs.
    cbv zeta in Hs.
    pose proof (fun e => stamped_offset clock cum (firstTs (sessionEntries s))
                                        (sessionEntries s) pushed 0 e) as Hoff.
    destruct (stampEntries clock pushed cum (firstTs (sessionEntries s)) 0
                           (sessionEntries s)) as [stamped maxE].
    cbn [fst snd] in Hs, Hoff. destruct Hs as (Hlen & Hmax & Hnth).
    specialize (IH (pushed + List.length stamped)%nat (cum + maxE)%Z). cbv zeta in IH.
    set (restOut := stampSessions clock (pushed + List.length stamped) (cum + maxE) rest)
      in *.
    destruct IH as (Icore & Inth & Isame & _).
    assert (Hcore : map entryCore stamped = map entryCore (sessionEntries s)).
    { apply nth_error_ext. intro j. rewrite !nth_error_map.
      destruct (nth_error stamped j) as [e |] eqn:Hj.
      - destruct (Hnth j e Hj) as (e0 & A & B & _). rewrite A. cbn. congruence.
      - apply nth_error_None in Hj. rewrite Hlen in Hj.
        apply nth_error_None in Hj. rewrite Hj. reflexivity. }
    split; [| split; [| split]].
    + cbn [flat_map]. rewrite !map_app, Hcore, Icore. reflexivity.
    + intros j e Hj.
      destruct (Nat.lt_ge_cases j (List.length stamped)) as [Hlt | Hge].
      * rewrite nth_error_app1 in Hj by exact Hlt.
        destruct (Hnth j e Hj) as (e0 & A & B & C & D & E).
        split; [exact C |]. split.
        { unfold sessionOffset. rewrite D, E. lia. }
        exists s, e0. split; [left; reflexivity |].
        split; [eapply nth_error_In; exact A |]. split; assumption.
      * rewrite nth_error_app2 in Hj by exact Hge.
        destruct (Inth _ e Hj) as (A & B & (s' & e0 & C & D)).
        split.
        { rewrite A. do 2 f_equal. lia. }
        split; [lia |]. exists s', e0. split; [right; exact C | exact D].
    + intros [Hnd Hall] e e' He He' Hid.
      inversion Hnd as [| ? ? Hnot Hnd']; subst.
      inversion Hall as [| ? ? [Hne Hids] Hall']; subst.
      assert (Hrest : forall x, In x restOut -> In (entry_session_id x) (map sessionId rest)).
      { intros x Hx. apply In_nth_error in Hx. destruct Hx as [j Hj].
        destruct (Inth j x Hj) as (_ & _ & (s' & e0 & A & B & C & _)).
        rewrite (entryCore_session _ _ C).
        rewrite Forall_forall in Hall'. destruct (Hall' s' A) as [_ Hi].
        rewrite Forall_forall in Hi. rewrite (Hi e0 B). apply in_map. exact A. }
      assert (Hhead : forall x, In x stamped -> entry_session_id x = sessionId s).
      { intros x Hx. destruct (Hoff x Hx) as (_ & e0 & A & B).
        rewrite (entryCore_session _ _ B).
        rewrite Forall_forall in Hids. apply Hids. exact A. }
      apply in_app_or in He. apply in_app_or in He'.
      destruct He as [He | He], He' as [He' | He'].
      * rewrite (proj1 (Hoff e He)), (proj1 (Hoff e' He')). reflexivity.
      * exfalso. apply Hnot. rewrite <- (Hhead e He), Hid. apply Hrest. exact He'.
      * exfalso. apply Hnot. rewrite <- (Hhead e' He'), <- Hid. apply Hrest. exact He.
      * apply Isame; try assumption. split; assumption.
    + intros s0 rest0 Heq Hne. inversion Heq; subst s0 rest0.
      destruct stamped as [| e more].
      * cbn [List.length] in Hlen. destruct (sessionEntries s); [contradiction | discriminate].
      * exists e, (more ++ restOut). split; [reflexivity |].
        apply (Hoff e). left. reflexivity.
Qed.

Lemma flat_map_perm {A B} (f g : A -> list B) (l : list A) :
  (forall x, In x l -> Permutation (f x) (g x)) ->
  Permutation (flat_map f l) (flat_map g l).
Proof.
  induction l as [| a rest IH]; intro H; cbn [flat_map]; [constructor |].
  apply Permutation_app; [apply H; left; reflexivity |].
  apply IH. intros x Hx. apply H. right. exact Hx.
Qed.

(** The first entry of a session sorted by [ts] is one of its
    entries, and none has a smaller [ts]. *)
Lemma firstTs_least (es : list LogEntry) :
  es <> [] ->
  exists first, In first es
                /\ firstTs (js_sort byTs es) = entry_ts first
                /\ forall e, In e es -> (entry_ts first <= entry_ts e)%Z.
Proof.
  intro Hne.
  pose proof (js_sort_permutation byTs es) as Hperm.
  pose proof (js_sort_sorted (fun e => inject_Z (entry_ts e)) es) as Hs.
  apply Sorted_StronglySorted in Hs; [| intros a b c; cbv beta; lra].
  unfold byTs in *.
  destruct (js_sort (fun a b => inject_Z (entry_ts a) - inject_Z (entry_ts b)) es)
    as [| first rest] eqn:Hsort.
  - apply Permutation_sym, Permutation_nil in Hperm. contradiction.
  - exists first. split.
    + eapply Permutation_in; [apply Permutation_sym; exact Hperm | left; reflexivity].
    + split; [reflexivity |]. intros e He.
      apply (Permutation_in _ Hperm) in He.
      apply StronglySorted_inv in Hs. destruct Hs as [_ Hall].
      rewrite Forall_forall in Hall.
      destruct He as [<- | He]; [lia |].
      specialize (Hall e He). cbv beta in Hall. rewrite <- Zle_Qle in Hall. exact Hall.
Qed.

Lemma group_unique (m : list (option string * list LogEntry)) k es es' :
  NoDup (map fst m) -> In (k, es) m -> In (k, es') m -> es = es'.
Proof.
  induction m as [| [k0 es0] rest IH]; intros Hnd H1 H2; [destruct H1 |].
  inversion Hnd as [| ? ? Hnot Hnd']; subst. cbn [fst] in Hnot.
  destruct H1 as [E1 | H1], H2 as [E2 | H2].
  - congruence.
  - inversion E1; subst. exfalso. apply Hnot. apply in_map_iff.
    exists (k, es'). split; [reflexivity | exact H2].
  - inversion E2; subst. exfalso. apply Hnot. apply in_map_iff.
    exists (k, es). split; [reflexivity | exact H1].
  - apply IH; assumption.
Qed.

(** X19.  [recalculateElapsedMs] returns the entries it is given, each
    once, with new [elapsed_ms], [original_elapsed_ms] and [merged_at]
    and nothing else changed.  The new [elapsed_ms] of an entry is its
    [original_elapsed_ms] plus an offset that is the same for all the
    entries of a session and is never negative; the first entry
    returned has the offset 0.  The [original_elapsed_ms] written is
    the one the entry had, and else the time from the earliest [ts] of
    its session to its own [ts]; [merged_at] is the time of the
    push. *)
Theorem recalculateElapsedMs_relabels :
  forall (clock : nat -> string) (entries : list LogEntry),
    let out := recalculateElapsedMs clock entries in
    Permutation (map entryCore out) (map entryCore entries)
    /\ (forall e e', In e out -> In e' out ->
                     entry_session_id e = entry_session_id e' ->
                     sessionOffset e = sessionOffset e')
    /\ (entries <> [] -> exists e more, out = e :: more /\ sessionOffset e = 0%Z)
    /\ (forall j e, nth_error out j = Some e -> entries <> [] ->
          entry_merged_at e = Some (clock j)
          /\ (0 <= sessionOffset e)%Z
          /\ exists e0 first,
               In e0 entries /\ In first entries
               /\ entryCore e = entryCore e0
               /\ entry_session_id first = entry_session_id e0
               /\ (forall e2, In e2 entries ->
                              entry_session_id e2 = entry_session_id e0 ->
                              (entry_ts first <= entry_ts e2)%Z)
               /\ entry_original_elapsed_ms e
                  = Some (getOriginalElapsedMs e0 (entry_ts first))).
Proof.
  intros clock entries.
  assert (Hcase : entries = [] \/ entries <> [])
    by (destruct entries; [left; reflexivity | right; discriminate]).
  destruct Hcase as [-> | Hne]; intro out.
  { cbn. split; [constructor |]. split; [intros e e' [] |].
    split; [intro H; contradiction |]. intros j e H. destruct j; discriminate. }
  set (groups := fold_left (fun m entry => groupPush entry m) entries []).
  set (mk := fun kv : option string * list LogEntry =>
               {| sessionId := fst kv; sessionEntries := snd kv;
                  startTs := firstTs (snd kv) |}).
  set (sortedMap := map (fun kv : option string * list LogEntry =>
                           (fst kv, js_sort byTs (snd kv))) groups).
  set (byStart := fun a b : Session => inject_Z (startTs a) - inject_Z (startTs b)).
  set (sessions := js_sort byStart (map mk sortedMap)).
  assert (Hout : out = stampSessions clock 0 0 sessions).
  { unfold out, recalculateElapsedMs. destruct entries; [contradiction | reflexivity]. }
  assert (Hg_ok : groupsOk groups).
  { apply groups_ok. split; constructor. }
  assert (Hg_perm : Permutation (flat_map snd groups) entries).
  { exact (groups_perm entries []). }
  destruct Hg_ok as [Hg_nd Hg_all]. rewrite Forall_forall in Hg_all.
  assert (Hs_perm : Permutation (map mk sortedMap) sessions)
    by apply js_sort_permutation.
  assert (Hs_from : forall s, In s sessions ->
            exists k es, In (k, es) groups /\ sessionId s = k
                         /\ sessionEntries s = js_sort byTs es).
  { intros s Hs. apply (Permutation_in _ (Permutation_sym Hs_perm)) in Hs.
    apply in_map_iff in Hs. destruct Hs as ([k es'] & <- & Hin).
    unfold sortedMap in Hin. apply in_map_iff in Hin.
    destruct Hin as ([k0 es] & E & Hin). cbn [fst snd] in E. inversion E; subst.
    exists k, es. cbn [mk sessionId sessionEntries fst snd]. auto. }
  assert (Hs_ok : sessionsOk sessions).
  { split.
    - apply (Permutation_NoDup (l := map fst groups)); [| exact Hg_nd].
      eapply perm_trans; [| apply Permutation_map; exact Hs_perm].
      unfold sortedMap. rewrite !map_map. cbn [mk sessionId fst].
      apply Permutation_refl.
    - apply Forall_forall. intros s Hs.
      destruct (Hs_from s Hs) as (k & es & Hin & Hk & He).
      destruct (Hg_all _ Hin) as [Hne' Hids]. cbn [fst snd] in Hne', Hids.
      pose proof (js_sort_permutation byTs es) as Hp.
      rewrite He, Hk. split.
      + intro E. rewrite E in Hp. apply Permutation_sym, Permutation_nil in Hp.
        contradiction.
      + rewrite Forall_forall in *. intros e Hein. apply Hids.
        eapply Permutation_in; [apply Permutation_sym; exact Hp | exact Hein]. }
  assert (Hflat : Permutation (flat_map sessionEntries sessions) entries).
  { eapply perm_trans;
      [apply (Permutation_flat_map sessionEntries); apply Permutation_sym; exact Hs_perm |].
    eapply perm_trans; [| exact Hg_perm].
    unfold sortedMap. rewrite !flat_map_concat_map, !map_map.
    rewrite <- !flat_map_concat_map. cbn [mk sessionEntries snd].
    apply flat_map_perm. intros x _. apply Permutation_sym, js_sort_permutation. }
  destruct (stampSessions_spec clock sessions 0 0) as (Hcore & Hnth & Hsame & Hfirst).
  cbv zeta in Hcore, Hnth, Hsame, Hfirst. rewrite <- Hout in *.
  split; [| split; [| split]].
  - rewrite Hcore. apply Permutation_map. exact Hflat.
  - apply Hsame. exact Hs_ok.
  - intros _. destruct sessions as [| s rest] eqn:Hsess.
    + exfalso. cbn [flat_map] in Hflat. apply Permutation_nil in Hflat. contradiction.
    + apply (Hfirst s rest eq_refl).
      destruct Hs_ok as [_ Hall]. inversion Hall as [| ? ? [Hn _] _]. exact Hn.
  - intros j e Hj _.
    destruct (Hnth j e Hj) as (Hat & Hoff & (s & e0 & Hs & He0 & Hc & Horig)).
    split; [exact Hat |]. split; [exact Hoff |].
    destruct (Hs_from s Hs) as (k & es & Hin & Hk & Hes).
    destruct (Hg_all _ Hin) as [Hne' Hids]. cbn [fst snd] in Hne', Hids.
    rewrite Forall_forall in Hids.
    destruct (firstTs_least es Hne') as (first & Hfin & Hfts & Hleast).
    assert (Hgroup : forall x, In x es -> In x entries).
    { intros x Hx. apply (Permutation_in _ Hg_perm). apply in_flat_map.
      exists (k, es). split; [exact Hin | exact Hx]. }
    assert (He0es : In e0 es).
    { rewrite Hes in He0.
      eapply Permutation_in; [apply Permutation_sym, js_sort_permutation | exact He0]. }
    exists e0, first. split; [apply Hgroup; exact He0es |].
    split; [apply Hgroup; exact Hfin |]. split; [exact Hc |].
    split; [rewrite (Hids _ Hfin), (Hids _ He0es); reflexivity |]. split.
    + intros e2 He2 Hid2.
      apply (Permutation_in _ (Permutation_sym Hg_perm)) in He2.
      apply in_flat_map in He2. destruct He2 as ([k' es'] & Hin' & He2).
      cbn [snd] in He2. destruct (Hg_all _ Hin') as [_ Hids'].
      cbn [fst snd] in Hids'. rewrite Forall_forall in Hids'.
      assert (Hkk : k' = k).
      { rewrite <- (Hids' _ He2), Hid2. apply Hids. exact He0es. }
      subst k'. rewrite (group_unique groups k es' es Hg_nd Hin' Hin) in He2.
      apply Hleast. exact He2.
    + rewrite Horig, Hes, Hfts. reflexivity.
Qed.

(** * The numbers of the summary *)

Lemma fold_summary_edits (proj : Summary -> CharStats) (get : Delta -> Z) :
  (forall acc e,
      proj (fst (summaryTurn acc e))
      = match editDelta e with
        | Some d => countEdit get (proj (fst acc)) d
        | None => proj (fst acc)
        end) ->
  forall es acc,
    proj (fst (fold_left summaryTurn es acc))
    = fold_left (countEdit get) (editDeltas es) (proj (fst acc)).
Proof.
  intros Hproj es. induction es as [| e rest IH]; intro acc; [reflexivity |].
  cbn [fold_left editDeltas flat_map]. rewrite IH, Hproj.
  fold (editDeltas rest). destruct (editDelta e); reflexivity.
Qed.

Lemma fold_summary_editCount es : forall acc,
  snd (fold_left summaryTurn es acc) = (snd acc + Z.of_nat (List.length (editDeltas es)))%Z.
Proof.
  induction es as [| e rest IH]; intro acc; cbn [fold_left editDeltas flat_map].
  - cbn [List.length]. lia.
  - rewrite IH. fold (editDeltas rest). cbn [summaryTurn snd].
    destruct (editDelta e); cbn [app List.length]; lia.
Qed.

Lemma fold_summary_span es : forall acc,
  time_span (fst (fold_left summaryTurn es acc))
  = fold_left widen (truthyStamps es) (time_span (fst acc)).
Proof.
  induction es as [| e rest IH]; intro acc; [reflexivity |].
  cbn [fold_left truthyStamps flat_map]. rewrite IH. fold (truthyStamps rest).
  cbn [summaryTurn fst time_span]. destruct (truthyTs e); reflexivity.
Qed.

Lemma fold_summary_policy es : forall acc,
  policy_violation_count (fst (fold_left summaryTurn es acc))
  = (policy_violation_count (fst acc)
     + Z.of_nat (List.length (filter (fun e => String.eqb (event e) "policy_violation") es)))%Z.
Proof.
  induction es as [| e rest IH]; intro acc; cbn [fold_left filter].
  - cbn [List.length]. lia.
  - rewrite IH. cbn [summaryTurn fst policy_violation_count].
    destruct (String.eqb (event e) "policy_violation"); cbn [List.length]; lia.
Qed.

Lemma fold_summary_fixed es : forall acc,
  total_events (fst (fold_left summaryTurn es acc)) = total_events (fst acc)
  /\ summary_session_id (fst (fold_left summaryTurn es acc)) = summary_session_id (fst acc).
Proof.
  induction es as [| e rest IH]; intro acc; cbn [fold_left]; [split; reflexivity |].
  destruct (IH (summaryTurn acc e)) as [-> ->]. split; reflexivity.
Qed.

(** The loop on one entry of [edits], seen from the numbers added so far. *)
Lemma fold_countEdit (get : Delta -> Z) ds : forall c seen,
  chars_total c = fold_right Z.add 0%Z seen ->
  (0 <= chars_max c)%Z ->
  Forall (fun n => (n <= chars_max c)%Z) seen ->
  (chars_max c = 0%Z \/ In (chars_max c) seen) ->
  let c' := fold_left (countEdit get) ds c in
  chars_total c' = fold_right Z.add 0%Z (seen ++ map get ds)
  /\ (0 <= chars_max c')%Z
  /\ Forall (fun n => (n <= chars_max c')%Z) (seen ++ map get ds)
  /\ (chars_max c' = 0%Z \/ In (chars_max c') (seen ++ map get ds))
  /\ chars_mean c' = chars_mean c.
Proof.
  induction ds as [| d rest IH]; intros c seen Ht H0 Hall Hin; cbn zeta.
  - cbn [fold_left map]. rewrite app_nil_r. repeat split; assumption.
  - cbn [fold_left map].
    replace (seen ++ get d :: map get rest) with ((seen ++ [get d]) ++ map get rest)
      by (rewrite <- app_assoc; reflexivity).
    destruct (IH (countEdit get c d) (seen ++ [get d])) as (A & B & C & D & E).
    + cbn [countEdit chars_total]. rewrite Ht.
      clear. induction seen as [| n more IHs]; cbn [app fold_right]; lia.
    + cbn [countEdit chars_max]. lia.
    + cbn [countEdit chars_max]. apply Forall_app. split.
      * eapply Forall_impl; [| exact Hall]. cbv beta. intros n Hn. lia.
      * constructor; [lia | constructor].
    + cbn [countEdit chars_max].
      destruct (Z.max_spec (chars_max c) (get d)) as [[_ ->] | [_ ->]].
      * right. apply in_or_app. right. left. reflexivity.
      * destruct Hin as [Hz | Hi]; [left; exact Hz |].
        right. apply in_or_app. left. exact Hi.
    + repeat split; assumption.
Qed.

Lemma sum_le_length_max (ns : list Z) (m : Z) :
  Forall (fun n => (n <= m)%Z) ns ->
  (fold_right Z.add 0%Z ns <= Z.of_nat (List.length ns) * m)%Z.
Proof.
  induction 1 as [| n rest Hn _ IH]; cbn [fold_right List.length]; [lia |].
  rewrite Nat2Z.inj_succ. lia.
Qed.

Lemma sum_nonneg (ns : list Z) :
  Forall (fun n => (0 <= n)%Z) ns -> (0 <= fold_right Z.add 0%Z ns)%Z.
Proof. induction 1 as [| n rest Hn _ IH]; cbn [fold_right]; lia. Qed.

Lemma withMean_statsOf (get : Delta -> Z) (ds : list Delta) :
  statsOf (map get ds)
          (withMean (Z.of_nat (List.length ds))
             (fold_left (countEdit get) ds
                {| chars_total := 0; chars_mean := 0; chars_max := 0 |})).
Proof.
  destruct (fold_countEdit get ds {| chars_total := 0; chars_mean := 0; chars_max := 0 |} [])
    as (A & B & C & D & E);
    [reflexivity | cbn; lia | constructor | left; reflexivity |].
  cbn [app] in A, C, D. cbn [chars_mean] in E.
  set (c := fold_left (countEdit get) ds _) in *.
  unfold statsOf, withMean. cbn [chars_total chars_mean chars_max].
  split; [exact A |]. split; [exact B |]. split; [exact C |]. split; [exact D |].
  destruct ds as [| d0 more] eqn:Hds.
  - cbn [List.length Z.of_nat]. change (0 >? 0)%Z with false. cbv iota.
    rewrite E. split; [exact B |]. split; [lia | reflexivity].
  - rewrite <- Hds in *. 
    assert (Hn : (0 < Z.of_nat (List.length ds))%Z) by (rewrite Hds; cbn [List.length]; lia).
    assert (Hgt : (Z.of_nat (List.length ds) >? 0)%Z = true) by lia.
    rewrite Hgt.
    assert (HnQ : 0 < inject_Z (Z.of_nat (List.length ds))).
    { change 0 with (inject_Z 0). rewrite <- Zlt_Qlt. exact Hn. }
    pose proof (sum_le_length_max _ _ C) as Hsum.
    rewrite List.length_map, <- A in Hsum.
    assert (Hup : inject_Z (chars_total c) / inject_Z (Z.of_nat (List.length ds))
                  <= inject_Z (chars_max c)).
    { apply Qle_shift_div_r; [exact HnQ |].
      rewrite <- inject_Z_mult, <- Zle_Qle. lia. }
    split.
    + unfold Math_round.
      assert (Hlt : inject_Z (chars_total c) / inject_Z (Z.of_nat (List.length ds)) + (1 # 2)
                    < inject_Z (chars_max c + 1)).
      { rewrite inject_Z_plus. change (inject_Z 1) with 1. lra. }
      pose proof (Qfloor_le (inject_Z (chars_total c) / inject_Z (Z.of_nat (List.length ds))
                             + (1 # 2))) as Hf.
      assert (Hz : inject_Z (Qfloor (inject_Z (chars_total c)
                                     / inject_Z (Z.of_nat (List.length ds)) + (1 # 2)))
                   < inject_Z (chars_max c + 1)) by lra.
      rewrite <- Zlt_Qlt in Hz. lia.
    + split; [| intro Hnil; rewrite Hds in Hnil; discriminate].
      intro Hpos. pose proof (sum_nonneg _ Hpos) as Hs. rewrite <- A in Hs.
      assert (Hlow : 0 <= inject_Z (chars_total c) / inject_Z (Z.of_nat (List.length ds))).
      { apply Qle_shift_div_l; [exact HnQ |]. rewrite Qmult_0_l.
        change 0 with (inject_Z 0). rewrite <- Zle_Qle. exact Hs. }
      unfold Math_round. rewrite <- (Qfloor_Z 0). apply Qfloor_resp_le.
      change (inject_Z 0) with 0. lra.
Qed.

Lemma widen_spanSoFar seen span t :
  spanSoFar seen span -> spanSoFar (seen ++ [t]) (widen span t).
Proof.
  unfold spanSoFar, widen. cbn [min_ts max_ts].
  destruct (min_ts span) as [lo |], (max_ts span) as [hi |]; try contradiction.
  - intros (Hlo & Hhi & Hall).
    assert (Hle : (lo <= hi)%Z).
    { rewrite Forall_forall in Hall. apply (Hall lo Hlo). }
    destruct (t <? lo)%Z eqn:E1, (t >? hi)%Z eqn:E2; try lia.
    + split; [apply in_or_app; right; left; reflexivity |].
      split; [apply in_or_app; left; exact Hhi |].
      apply Forall_app. split; [| constructor; [lia | constructor]].
      eapply Forall_impl; [| exact Hall]. cbv beta. intros u Hu. lia.
    + split; [apply in_or_app; left; exact Hlo |].
      split; [apply in_or_app; right; left; reflexivity |].
      apply Forall_app. split; [| constructor; [lia | constructor]].
      eapply Forall_impl; [| exact Hall]. cbv beta. intros u Hu. lia.
    + split; [apply in_or_app; left; exact Hlo |].
      split; [apply in_or_app; left; exact Hhi |].
      apply Forall_app. split; [exact Hall | constructor; [lia | constructor]].
  - intros ->. cbn [app]. split; [left; reflexivity |].
    split; [left; reflexivity |]. constructor; [lia | constructor].
Qed.

Lemma fold_widen_spanSoFar stamps : forall seen span,
  spanSoFar seen span ->
  spanSoFar (seen ++ stamps) (fold_left widen stamps span)
  /\ duration_ms (fold_left widen stamps span) = duration_ms span.
Proof.
  induction stamps as [| t rest IH]; intros seen span H; cbn [fold_left].
  - rewrite app_nil_r. split; [exact H | reflexivity].
  - replace (seen ++ t :: rest) with ((seen ++ [t]) ++ rest)
      by (rewrite <- app_assoc; reflexivity).
    destruct (IH _ _ (widen_spanSoFar seen span t H)) as [A B].
    split; [exact A | rewrite B; reflexivity].
Qed.

Lemma truthyStamps_nonzero events : Forall (fun t => t <> 0%Z) (truthyStamps events).
Proof.
  induction events as [| e rest IH]; cbn [truthyStamps flat_map]; [constructor |].
  fold (truthyStamps rest). unfold truthyTs.
  destruct (ts e) as [t |]; [| exact IH].
  destruct (t =? 0)%Z eqn:E; [exact IH |].
  cbn [app]. constructor; [lia | exact IH].
Qed.

(** X22.  The numbers of the summary.  [total_events] is the number of
    events and [policy_violation.count] the number of events named
    policy_violation.  Each of the two [edits] entries holds the sum of
    its number over the edits that carry a delta, a [max] that is 0 or
    the greatest of these numbers, whichever is larger, and a [mean]
    that is at most [max] and is not negative when no number is.
    [time_span] holds the least and the greatest of the timestamps
    that are present and not 0, with [duration_ms] their difference;
    without such a timestamp both stay null and the duration 0. *)
Theorem generateSummary_numbers :
  forall (events : list Event) (sessionId : string),
    let summary := generateSummary events sessionId in
    total_events summary = Z.of_nat (List.length events)
    /\ policy_violation_count summary
       = Z.of_nat (List.length (filter (fun e => String.eqb (event e) "policy_violation")
                                  events))
    /\ statsOf (map added_chars (editDeltas events)) (edits_added_chars summary)
    /\ statsOf (map deleted_chars (editDeltas events)) (edits_deleted_chars summary)
    /\ spanOf (truthyStamps events) (time_span summary)
    /\ (0 <= duration_ms (time_span summary))%Z.
Proof.
  intros events sessionId summary. subst summary. unfold generateSummary. cbv zeta.
  set (start := ({| summary_session_id := sessionId;
                    edits_added_chars := _; edits_deleted_chars := _;
                    policy_violation_count := 0; time_span := _;
                    total_events := Z.of_nat (List.length events) |}, 0%Z)).
  cbn [total_events policy_violation_count edits_added_chars edits_deleted_chars
       time_span].
  split; [exact (proj1 (fold_summary_fixed events start)) |].
  split; [rewrite fold_summary_policy; reflexivity |].
  rewrite fold_summary_editCount. cbn [snd start]. rewrite Z.add_0_l.
  split.
  { rewrite (fold_summary_edits edits_added_chars added_chars) by reflexivity.
    apply withMean_statsOf. }
  split.
  { rewrite (fold_summary_edits edits_deleted_chars deleted_chars) by reflexivity.
    apply withMean_statsOf. }
  rewrite fold_summary_span. cbn [fst start time_span].
  destruct (fold_widen_spanSoFar (truthyStamps events) []
              {| min_ts := None; max_ts := None; duration_ms := 0 |} eq_refl)
    as [Hspan Hdur].
  cbn [app duration_ms] in Hspan, Hdur.
  pose proof (truthyStamps_nonzero events) as Hnz. rewrite Forall_forall in Hnz.
  set (span := fold_left widen (truthyStamps events) _) in *.
  unfold spanSoFar in Hspan. unfold spanOf, withDuration. cbn [min_ts max_ts duration_ms].
  destruct (min_ts span) as [lo |], (max_ts span) as [hi |]; try contradiction.
  - destruct Hspan as (Hlo & Hhi & Hall).
    assert (E1 : (lo =? 0)%Z = false) by (apply Z.eqb_neq; exact (Hnz _ Hlo)).
    assert (E2 : (hi =? 0)%Z = false) by (apply Z.eqb_neq; exact (Hnz _ Hhi)).
    rewrite E1, E2. cbn [negb andb].
    rewrite Forall_forall in Hall. pose proof (Hall lo Hlo) as Hle.
    split; [| lia].
    split; [exact Hlo |]. split; [exact Hhi |].
    split; [rewrite Forall_forall; exact Hall | reflexivity].
  - split; [split; [exact Hspan | exact Hdur] | lia].
Qed.

(** * Comparisons of binary64 numbers *)

Lemma SFcompare_key (x y : SpecFloat.spec_float) :
  match floatKey x, floatKey y with
  | Some a, Some b =>
      (SpecFloat.SFcompare x y = Some Lt /\ keyLt a b)
      \/ (SpecFloat.SFcompare x y = Some Eq /\ a = b)
      \/ (SpecFloat.SFcompare x y = Some Gt /\ keyLt b a)
  | _, _ => SpecFloat.SFcompare x y = None
  end.
Proof.
  destruct x as [sx | sx | | sx mx ex], y as [sy | sy | | sy my ey];
    try destruct sx; try destruct sy; cbn; auto; try (left; split; [reflexivity | lia]);
    try (right; right; split; [reflexivity | lia]).
  - destruct (Z.compare_spec ex ey) as [E | E | E].
    + subst ey. change (Pos.compare_cont Eq mx my) with (Pos.compare mx my).
      destruct (Pos.compare_spec mx my) as [M | M | M]; cbn.
      * right. left. subst. auto.
      * right. right. split; [reflexivity | lia].
      * left. split; [reflexivity | lia].
    + right. right. split; [reflexivity | lia].
    + left. split; [reflexivity | lia].
  - destruct (Z.compare_spec ex ey) as [E | E | E].
    + subst ey. change (Pos.compare_cont Eq mx my) with (Pos.compare mx my).
      destruct (Pos.compare_spec mx my) as [M | M | M]; cbn.
      * right. left. subst. auto.
      * left. split; [reflexivity | lia].
      * right. right. split; [reflexivity | lia].
    + left. split; [reflexivity | lia].
    + right. right. split; [reflexivity | lia].
Qed.

Lemma keyLt_irrefl a : ~ keyLt a a.
Proof. destruct a as [[a1 a2] a3]. cbn. lia. Qed.

Lemma keyLt_asym a b : keyLt a b -> ~ keyLt b a.
Proof. destruct a as [[a1 a2] a3], b as [[b1 b2] b3]. cbn. lia. Qed.

Lemma keyLt_trans a b c : keyLt a b -> keyLt b c -> keyLt a c.
Proof. destruct a as [[a1 a2] a3], b as [[b1 b2] b3], c as [[c1 c2] c3]. cbn. lia. Qed.

Lemma ltb_numLt x y : PrimFloat.ltb x y = true <-> numLt x y.
Proof.
  rewrite FloatAxioms.ltb_spec. unfold SpecFloat.SFltb, numLt.
  pose proof (SFcompare_key (FloatOps.Prim2SF x) (FloatOps.Prim2SF y)) as H.
  destruct (floatKey (FloatOps.Prim2SF x)) as [a |], (floatKey (FloatOps.Prim2SF y)) as [b |].
  - destruct H as [[-> K] | [[-> K] | [-> K]]]; split; intro G; try discriminate.
    + exists a, b. auto.
    + reflexivity.
    + destruct G as (a' & b' & Ea & Eb & L). inversion Ea; inversion Eb; subst.
      exfalso. exact (keyLt_irrefl _ L).
    + destruct G as (a' & b' & Ea & Eb & L). inversion Ea; inversion Eb; subst.
      exfalso. exact (keyLt_asym _ _ L K).
  - rewrite H. split; [discriminate | intros (a' & b' & _ & Eb & _); discriminate].
  - rewrite H. split; [discriminate | intros (a' & b' & Ea & _ & _); discriminate].
  - rewrite H. split; [discriminate | intros (a' & b' & Ea & _ & _); discriminate].
Qed.

Lemma leb_numLe x y : PrimFloat.leb x y = true <-> numLe x y.
Proof.
  rewrite FloatAxioms.leb_spec. unfold SpecFloat.SFleb, numLe.
  pose proof (SFcompare_key (FloatOps.Prim2SF x) (FloatOps.Prim2SF y)) as H.
  destruct (floatKey (FloatOps.Prim2SF x)) as [a |], (floatKey (FloatOps.Prim2SF y)) as [b |].
  - destruct H as [[-> K] | [[-> K] | [-> K]]]; split; intro G; try discriminate;
      try reflexivity.
    + exists a, b. auto.
    + exists a, b. auto.
    + destruct G as (a' & b' & Ea & Eb & [L | L]); inversion Ea; inversion Eb; subst.
      * exfalso. exact (keyLt_asym _ _ L K).
      * exfalso. exact (keyLt_irrefl _ K).
  - rewrite H. split; [discriminate | intros (a' & b' & _ & Eb & _); discriminate].
  - rewrite H. split; [discriminate | intros (a' & b' & Ea & _ & _); discriminate].
  - rewrite H. split; [discriminate | intros (a' & b' & Ea & _ & _); discriminate].
Qed.

(** A comparison that fails between two numbers holds the other way. *)
Lemma ltb_false_numLe x y :
  PrimFloat.ltb x y = false -> isNumber x -> isNumber y -> numLe y x.
Proof.
  rewrite FloatAxioms.ltb_spec. unfold SpecFloat.SFltb, numLe, isNumber.
  pose proof (SFcompare_key (FloatOps.Prim2SF x) (FloatOps.Prim2SF y)) as H.
  destruct (floatKey (FloatOps.Prim2SF x)) as [a |], (floatKey (FloatOps.Prim2SF y)) as [b |];
    intros G Nx Ny; try congruence.
  exists b, a. split; [reflexivity |]. split; [reflexivity |].
  destruct H as [[E K] | [[E K] | [E K]]]; rewrite E in G; try discriminate; auto.
Qed.

Lemma numLt_isNumber x y : numLt x y -> isNumber x /\ isNumber y.
Proof. intros (a & b & Ea & Eb & _). unfold isNumber. rewrite Ea, Eb. split; discriminate. Qed.

Lemma numLe_isNumber x y : numLe x y -> isNumber x /\ isNumber y.
Proof. intros (a & b & Ea & Eb & _). unfold isNumber. rewrite Ea, Eb. split; discriminate. Qed.

Lemma numLt_numLe x y : numLt x y -> numLe x y.
Proof. intros (a & b & Ea & Eb & L). exists a, b. auto. Qed.



Lemma eqb_keys x y :
  PrimFloat.eqb x y = true ->
  exists a, floatKey (FloatOps.Prim2SF x) = Some a /\ floatKey (FloatOps.Prim2SF y) = Some a.
Proof.
  rewrite FloatAxioms.eqb_spec. unfold SpecFloat.SFeqb.
  pose proof (SFcompare_key (FloatOps.Prim2SF x) (FloatOps.Prim2SF y)) as H.
  destruct (floatKey (FloatOps.Prim2SF x)) as [a |], (floatKey (FloatOps.Prim2SF y)) as [b |];
    try (rewrite H; discriminate).
  destruct H as [[-> K] | [[-> K] | [-> K]]]; intro G; try discriminate.
  exists a. subst. auto.
Qed.

Lemma numLe_antisym_eqb x y : numLe x y -> numLe y x -> PrimFloat.eqb x y = true.
Proof.
  intros (a & b & Ea & Eb & L) (b' & a' & Eb' & Ea' & L').
  rewrite Ea in Ea'. rewrite Eb in Eb'. inversion Ea'; inversion Eb'; subst a' b'.
  rewrite FloatAxioms.eqb_spec. unfold SpecFloat.SFeqb.
  pose proof (SFcompare_key (FloatOps.Prim2SF x) (FloatOps.Prim2SF y)) as H.
  rewrite Ea, Eb in H.
  destruct H as [[E K] | [[E K] | [E K]]]; rewrite E; try reflexivity; exfalso.
  - destruct L' as [L' | L']; [exact (keyLt_asym _ _ K L') | subst; exact (keyLt_irrefl _ K)].
  - destruct L as [L | L]; [exact (keyLt_asym _ _ K L) | subst; exact (keyLt_irrefl _ K)].
Qed.

(** * Signs of binary64 results *)
Section Signs64.
Import PrimFloat.
#[local] Set Warnings "-inexact-float".
Local Open Scope float_scope.








(** A number that is neither NaN nor infinite is a zero or finite. *)
Lemma finite_cases x :
  is_finite x = true ->
  (exists s, FloatOps.Prim2SF x = SpecFloat.S754_zero s)
  \/ exists s m e, FloatOps.Prim2SF x = SpecFloat.S754_finite s m e.
Proof.
  unfold is_finite. intro H. apply negb_true_iff, orb_false_iff in H.
  destruct H as [Hn Hi]. unfold FloatOps.Prim2SF. rewrite Hn, Hi.
  destruct (is_zero x); [left; eauto |].
  destruct (FloatOps.Z.frexp x) as [r ex].
  destruct (SpecFloat.shr_fexp _ _ _ _ _) as [shr e'].
  destruct (SpecFloat.shr_m shr); [left | right | left]; eauto.
Qed.

End Signs64.

(** * Clipping in binary64 *)
Section Clip64.
Import PrimFloat.
#[local] Set Warnings "-inexact-float".






End Clip64.

(** * The hole in binary64 *)
Section Hole64.
Import PrimFloat.
#[local] Set Warnings "-inexact-float".

End Hole64.

(** * Severity in binary64 *)
Section Severity64.
Import PrimFloat.
#[local] Set Warnings "-inexact-float".
Local Open Scope float_scope.

Lemma ltb_asym a b : (a <? b) = true -> (b <? a) = false.
Proof.
  intro H. destruct (b <? a) eqn:E; [| reflexivity].
  apply ltb_numLt in H. apply ltb_numLt in E.
  destruct H as (x & y & Ex & Ey & L), E as (y' & x' & Ey' & Ex' & L').
  rewrite Ex in Ex'. rewrite Ey in Ey'. inversion Ex'; inversion Ey'; subst.
  exfalso. exact (keyLt_asym _ _ L L').
Qed.

Lemma ltb_trans a b c : (a <? b) = true -> (b <? c) = true -> (a <? c) = true.
Proof.
  intros H G. apply ltb_numLt in H. apply ltb_numLt in G. apply ltb_numLt.
  destruct H as (x & y & Ex & Ey & L), G as (y' & z & Ey' & Ez & L').
  rewrite Ey in Ey'. inversion Ey'; subst y'.
  exists x, z. split; [exact Ex |]. split; [exact Ez |]. exact (keyLt_trans _ _ _ L L').
Qed.

Lemma eqb_isNumber a b : (a =? b) = true -> isNumber a /\ isNumber b.
Proof.
  intro H. destruct (eqb_keys _ _ H) as (k & Ea & Eb). unfold isNumber.
  rewrite Ea, Eb. split; discriminate.
Qed.

Lemma ltb_isNumber a b : (a <? b) = true -> isNumber a /\ isNumber b.
Proof. intro H. apply ltb_numLt in H. exact (numLt_isNumber _ _ H). Qed.

(** Two numbers are comparable. *)
Lemma trichotomy a b :
  isNumber a -> isNumber b ->
  (a <? b) = true \/ (b <? a) = true \/ (a =? b) = true.
Proof.
  intros Na Nb.
  destruct (a <? b) eqn:E1; [left; reflexivity |].
  destruct (b <? a) eqn:E2; [right; left; reflexivity |].
  right. right. apply numLe_antisym_eqb.
  - exact (ltb_false_numLe _ _ E2 Nb Na).
  - exact (ltb_false_numLe _ _ E1 Na Nb).
Qed.

Lemma isNumber_dec a : isNumber a \/ ~ isNumber a.
Proof.
  unfold isNumber. destruct (floatKey (FloatOps.Prim2SF a)); [left; discriminate | right; auto].
Qed.

Lemma eqb_zero v : (0 =? v) = true -> v = 0 \/ v = (-0).
Proof.
  intro H. destruct (eqb_keys _ _ H) as (k & E0 & Ev).
  change (FloatOps.Prim2SF 0) with (SpecFloat.S754_zero false) in E0. cbn in E0.
  inversion E0; subst k. rewrite <- (FloatAxioms.SF2Prim_Prim2SF v).
  destruct (FloatOps.Prim2SF v) as [s | s | | s m e]; try discriminate;
    try (destruct s; discriminate).
  destruct s; [right | left]; reflexivity.
Qed.

Lemma eqb_one v : (1 =? v) = true -> v = 1.
Proof.
  intro H. destruct (eqb_keys _ _ H) as (k & E1 & Ev).
  apply FloatAxioms.Prim2SF_inj.
  change (FloatOps.Prim2SF 1) with (SpecFloat.S754_finite false 4503599627370496 (-52)) in *.
  cbn in E1. inversion E1; subst k.
  destruct (FloatOps.Prim2SF v) as [s | s | | s m e]; try discriminate;
    try (destruct s; discriminate).
  destruct s; cbn in Ev; inversion Ev. reflexivity.
Qed.

(** The clamp of the code and the clamp by cases give the same
    severity: they differ only on [-0] (the code returns [+0]), which
    the floor of 0.1 hides. *)
Lemma clamp_floor v :
  Binary64.Math_max 0.1 (Binary64.clamp v 0 1)
  = Binary64.Math_max 0.1 (clampToRange v 0 1).
Proof.
  unfold Binary64.clamp, clampToRange.
  destruct (isNumber_dec v) as [Nv | Nv].
  - assert (N1 : isNumber 1) by (unfold isNumber; vm_compute; discriminate).
    assert (N0 : isNumber 0) by (unfold isNumber; vm_compute; discriminate).
    assert (L01 : (0 <? 1) = true) by reflexivity.
    destruct (trichotomy 1 v N1 Nv) as [H | [H | H]].
    + (* 1 < v *)
      assert (H0 : (v <? 0) = false).
      { apply ltb_asym. exact (ltb_trans 0 1 v L01 H). }
      unfold Binary64.Math_min. rewrite H, H0. reflexivity.
    + (* v < 1 *)
      pose proof (ltb_asym _ _ H) as H1.
      unfold Binary64.Math_min. rewrite H1, H.
      destruct (trichotomy 0 v N0 Nv) as [G | [G | G]].
      * pose proof (ltb_asym _ _ G) as G1.
        unfold Binary64.Math_max at 2. rewrite G, G1. reflexivity.
      * pose proof (ltb_asym _ _ G) as G1.
        unfold Binary64.Math_max at 2. rewrite G, G1. reflexivity.
      * destruct (eqb_zero _ G) as [-> | ->]; reflexivity.
    + rewrite (eqb_one _ H). reflexivity.
  - assert (C : forall a, (a <? v) = false /\ (v <? a) = false /\ (a =? v) = false).
    { intro a. repeat split.
      - destruct (a <? v) eqn:E; [| reflexivity].
        exfalso. apply Nv. exact (proj2 (ltb_isNumber _ _ E)).
      - destruct (v <? a) eqn:E; [| reflexivity].
        exfalso. apply Nv. exact (proj1 (ltb_isNumber _ _ E)).
      - destruct (a =? v) eqn:E; [| reflexivity].
        exfalso. apply Nv. exact (proj2 (eqb_isNumber _ _ E)). }
    destruct (C 1) as (A1 & A2 & A3). destruct (C 0) as (B1 & B2 & B3).
    destruct (C 0.1) as (D1 & D2 & D3).
    unfold Binary64.Math_min. rewrite A1, A2, A3, B2.
    unfold Binary64.Math_max at 3. rewrite D1, D2, D3. reflexivity.
Qed.

(** A value that is not a number is the NaN. *)
Lemma notNumber_nan v : ~ isNumber v -> v = nan.
Proof.
  intro Nv. apply FloatAxioms.Prim2SF_inj.
  change (FloatOps.Prim2SF nan) with SpecFloat.S754_nan.
  unfold isNumber in Nv.
  destruct (FloatOps.Prim2SF v) as [s | s | | s m e]; try reflexivity;
    exfalso; apply Nv; try destruct s; discriminate.
Qed.

(** A number equal to [0.1] is [0.1]. *)
Lemma eqb_tenth v : (0.1 =? v) = true -> v = 0.1.
Proof.
  intro H. destruct (eqb_keys _ _ H) as (k & E1 & Ev).
  apply FloatAxioms.Prim2SF_inj.
  change (FloatOps.Prim2SF 0.1) with (SpecFloat.S754_finite false 7205759403792794 (-56)) in *.
  cbn in E1. inversion E1; subst k.
  destruct (FloatOps.Prim2SF v) as [s | s | | s m e]; try discriminate;
    try (destruct s; discriminate).
  cbn in Ev. destruct s; inversion Ev; subst. reflexivity.
Qed.

(** [Math.max] at the floor 0.1 is the maximum by cases. *)
Lemma Math_max_floor c : Binary64.Math_max 0.1 c = maxOf 0.1 c.
Proof.
  unfold Binary64.Math_max, maxOf.
  destruct (0.1 <? c) eqn:A.
  - rewrite (ltb_asym _ _ A). reflexivity.
  - destruct (c <? 0.1) eqn:B; [reflexivity |].
    destruct (0.1 =? c) eqn:E.
    + rewrite (eqb_tenth _ E). reflexivity.
    + destruct (isNumber_dec c) as [Nc | Nc].
      * assert (Nf : isNumber 0.1) by (unfold isNumber; vm_compute; discriminate).
        destruct (trichotomy 0.1 c Nf Nc) as [T | [T | T]]; congruence.
      * symmetry. exact (notNumber_nan _ Nc).
Qed.

(** The severity of an edit as the code computes it and as the
    specification states it. *)
Lemma severity_floor v :
  Binary64.Math_max 0.1 (Binary64.clamp v 0 1) = maxOf 0.1 (clampToRange v 0 1).
Proof. rewrite clamp_floor. apply Math_max_floor. Qed.

(** [0 / L] is a zero when [L] is a number other than zero. *)
Lemma zero_div L :
  is_nan L = false -> (L =? 0) = false -> 0 / L = 0 \/ 0 / L = (-0).
Proof.
  intros Hn Hz.
  rewrite <- (FloatAxioms.SF2Prim_Prim2SF (0 / L)), FloatAxioms.div_spec.
  unfold is_nan in Hn. rewrite FloatAxioms.eqb_spec in Hn, Hz.
  change (FloatOps.Prim2SF 0) with (SpecFloat.S754_zero false) in *.
  destruct (FloatOps.Prim2SF L) as [s | s | | s m e]; cbn in Hn, Hz; try discriminate.
  - destruct s; [right | left]; reflexivity.
  - destruct s; [right | left]; reflexivity.
Qed.

(** C3.  The severity computed for an event is the value of the first
    rule of the specification's list that applies, where the rule for
    an edit without a flag reads the sum of [added_chars] and
    [deleted_chars]: [max(0.1, clamp(sqrt(log1p(chars) / log1p(30000)),
    0, 1))], whatever [log1p] the host supplies.  A policy violation
    gives exactly 1; an edit with no flag set and no added or deleted
    character gives exactly 0.1 (for a host with [log1p(0) = 0] and
    [log1p(30000)] a number other than 0); an edit whose first flag
    set is the paste flag gives 0.85 whatever its delta. *)
Theorem calculateSeverity_rules :
  forall (log1p : float -> float) (e : Event),
    Binary64.calculateSeverity log1p e = severitySpec log1p e
    /\ (event e = "policy_violation"%string -> Binary64.calculateSeverity log1p e = 1)
    /\ (event e = "edit"%string ->
        flagSet is_undo_like e = false -> flagSet is_redo_like e = false ->
        flagSet is_paste_like e = false ->
        charsAdded e = 0%Z -> charsDeleted e = 0%Z ->
        log1p 0 = 0 -> is_nan (log1p 30000) = false -> (log1p 30000 =? 0) = false ->
        Binary64.calculateSeverity log1p e = 0.1)
    /\ (event e = "edit"%string ->
        flagSet is_undo_like e = false -> flagSet is_redo_like e = false ->
        flagSet is_paste_like e = true ->
        Binary64.calculateSeverity log1p e = 0.85).
Proof.
  intros log1p e. split; [| split; [| split]].
  - unfold Binary64.calculateSeverity, severitySpec, severityRules, firstMatch, isKind,
      editMagnitude, charsAdded, charsDeleted.
    destruct (String.eqb (event e) "policy_violation"); [reflexivity |].
    destruct (String.eqb (event e) "edit"); cbn [andb].
    + destruct (flagSet is_undo_like e); [reflexivity |].
      destruct (flagSet is_redo_like e); [reflexivity |].
      destruct (flagSet is_paste_like e); [reflexivity |].
      cbv zeta. unfold Binary64.changedChars, charsAdded, charsDeleted.
      destruct (delta e) as [d |]; apply severity_floor.
    + reflexivity.
  - intro Hk. unfold Binary64.calculateSeverity. rewrite Hk. reflexivity.
  - intros Hk Hu Hr Hp Ha Hd H0 Hn Hz. unfold Binary64.calculateSeverity.
    rewrite Hk, Hu, Hr, Hp. cbn [String.eqb Ascii.eqb Bool.eqb]. cbv zeta.
    assert (Hc : Binary64.changedChars e = 0).
    { unfold Binary64.changedChars. unfold charsAdded, charsDeleted in Ha, Hd.
      destruct (delta e) as [d |]; [rewrite Ha, Hd |]; reflexivity. }
    rewrite Hc, H0.
    destruct (zero_div _ Hn Hz) as [-> | ->]; reflexivity.
  - intros Hk Hu Hr Hp. unfold Binary64.calculateSeverity. rewrite Hk, Hu, Hr, Hp.
    reflexivity.
Qed.

Lemma calculateSeverity_rules_witness :
  (let e := normalizeEvent (rawFlaggedEdit None 0 0) in
   Binary64.calculateSeverity (fun x => x) e = 0.1)
  /\ (let e := normalizeEvent
                 (rawFlaggedEdit
                    (Some {| raw_is_paste_like := Some true;
                             raw_is_undo_like := None;
                             raw_is_redo_like := None |}) 7 3) in
      Binary64.calculateSeverity (fun x => x) e = 0.85)
  /\ Binary64.calculateSeverity (fun x => x)
       (normalizeEvent (rawOther 1 "policy_violation" None)) = 1.
Proof.
  split; [| split].
  - apply (calculateSeverity_rules (fun x => x)); reflexivity.
  - apply (calculateSeverity_rules (fun x => x)); reflexivity.
  - apply (calculateSeverity_rules (fun x => x)); reflexivity.
Defined.
End Severity64.

(** * The range of the severity *)
Section SeverityRange.
Import PrimFloat.
#[local] Set Warnings "-inexact-float".
Local Open Scope float_scope.

(** ** Results that are numbers *)

Lemma shr_1_nonneg mrs :
  (0 <= SpecFloat.shr_m mrs)%Z -> (0 <= SpecFloat.shr_m (SpecFloat.shr_1 mrs))%Z.
Proof.
  destruct mrs as [m r s]. cbn [SpecFloat.shr_m]. unfold SpecFloat.shr_1.
  destruct m as [| p | p]; [cbn; lia | | lia].
  intros _. destruct p; cbn; lia.
Qed.

Lemma iter_shr_1_nonneg n : forall mrs,
  (0 <= SpecFloat.shr_m mrs)%Z ->
  (0 <= SpecFloat.shr_m (SpecFloat.iter_pos SpecFloat.shr_1 n mrs))%Z.
Proof.
  induction n as [n IH | n IH |]; intros mrs H; cbn [SpecFloat.iter_pos].
  - apply IH, IH, shr_1_nonneg, H.
  - apply IH, IH, H.
  - apply shr_1_nonneg, H.
Qed.

Lemma shr_fexp_nonneg m e l :
  (0 <= m)%Z ->
  (0 <= SpecFloat.shr_m (fst (SpecFloat.shr_fexp FloatOps.prec FloatOps.emax m e l)))%Z.
Proof.
  intro H. unfold SpecFloat.shr_fexp, SpecFloat.shr.
  assert (H0 : (0 <= SpecFloat.shr_m (SpecFloat.shr_record_of_loc m l))%Z).
  { destruct l as [| []]; exact H. }
  destruct (_ - e)%Z as [| p | p]; cbn [fst]; [exact H0 | | exact H0].
  apply iter_shr_1_nonneg. exact H0.
Qed.

Lemma round_nearest_even_nonneg m l :
  (0 <= m)%Z -> (0 <= SpecFloat.round_nearest_even m l)%Z.
Proof.
  intro H. unfold SpecFloat.round_nearest_even.
  destruct l as [| []]; try lia. destruct (Z.even m); lia.
Qed.

(** The rounding step of a mantissa that is not negative returns a
    number with the sign it is given. *)
Lemma binary_round_aux_number (sx : bool) (m e : Z) (l : SpecFloat.location) :
  (0 <= m)%Z ->
  let r := SpecFloat.binary_round_aux FloatOps.prec FloatOps.emax sx m e l in
  r = SpecFloat.S754_zero sx \/ r = SpecFloat.S754_infinity sx
  \/ exists m' e', r = SpecFloat.S754_finite sx m' e'.
Proof.
  intro Hm. cbv zeta. unfold SpecFloat.binary_round_aux.
  pose proof (shr_fexp_nonneg m e l Hm) as H1.
  destruct (SpecFloat.shr_fexp _ _ m e l) as [mrs' e']. cbn [fst] in H1.
  pose proof (shr_fexp_nonneg _ e' SpecFloat.loc_Exact
                (round_nearest_even_nonneg _ (SpecFloat.loc_of_shr_record mrs') H1)) as H2.
  destruct (SpecFloat.shr_fexp _ _ _ e' SpecFloat.loc_Exact) as [mrs'' e'']. cbn [fst] in H2.
  destruct (SpecFloat.shr_m mrs'') as [| p | p]; [auto | | lia].
  destruct (Z.leb e'' _); [right; right; eauto | auto].
Qed.

Lemma isNumber_is_nan x : isNumber x <-> is_nan x = false.
Proof.
  unfold isNumber, is_nan. rewrite FloatAxioms.eqb_spec.
  destruct (FloatOps.Prim2SF x) as [s | s | | s m e]; cbn.
  - split; [reflexivity | discriminate].
  - destruct s; (split; [reflexivity | discriminate]).
  - split; [intro H; exfalso; apply H; reflexivity | discriminate].
  - unfold SpecFloat.SFeqb. cbn.
    destruct s; rewrite Z.compare_refl, Pos.compare_cont_refl;
      (split; [reflexivity | discriminate]).
Qed.

Lemma notNegative_cases x :
  is_nan x = false -> (x <? 0) = false ->
  (exists s, FloatOps.Prim2SF x = SpecFloat.S754_zero s)
  \/ FloatOps.Prim2SF x = SpecFloat.S754_infinity false
  \/ exists m e, FloatOps.Prim2SF x = SpecFloat.S754_finite false m e.
Proof.
  unfold is_nan. rewrite FloatAxioms.eqb_spec, FloatAxioms.ltb_spec.
  change (FloatOps.Prim2SF 0) with (SpecFloat.S754_zero false).
  destruct (FloatOps.Prim2SF x) as [s | s | | s m e]; cbn; intros Hn Hl.
  - left; eauto.
  - destruct s; [discriminate | auto].
  - discriminate.
  - destruct s; [discriminate | right; right; eauto].
Qed.

Lemma positive_finite_cases x :
  is_finite x = true -> (0 <? x) = true ->
  exists m e, FloatOps.Prim2SF x = SpecFloat.S754_finite false m e.
Proof.
  intros Hf Hp. rewrite FloatAxioms.ltb_spec in Hp.
  change (FloatOps.Prim2SF 0) with (SpecFloat.S754_zero false) in Hp.
  destruct (finite_cases x Hf) as [[s E] | (s & m & e & E)]; rewrite E in Hp |- *.
  - destruct s; discriminate.
  - destruct s; [discriminate | eauto].
Qed.

Lemma SFdiv_core_nonneg mx ex my ey :
  (0 <= fst (fst (SpecFloat.SFdiv_core_binary FloatOps.prec FloatOps.emax
                     (Zpos mx) ex (Zpos my) ey)))%Z.
Proof.
  unfold SpecFloat.SFdiv_core_binary.
  set (s := (_ - _)%Z). 
  set (m' := match s with Zpos _ => Z.shiftl (Zpos mx) s | Z0 => Zpos mx | Zneg _ => 0%Z end).
  assert (Hm : (0 <= m')%Z).
  { subst m'. destruct s; [lia | apply Z.shiftl_nonneg; lia | lia]. }
  pose proof (Z.div_pos m' (Zpos my) Hm ltac:(lia)) as H.
  unfold Z.div in H. destruct (Z.div_eucl m' (Zpos my)) as [q r]. exact H.
Qed.

Lemma SFsqrt_core_nonneg mx ex :
  (0 <= fst (fst (SpecFloat.SFsqrt_core_binary FloatOps.prec FloatOps.emax (Zpos mx) ex)))%Z.
Proof.
  unfold SpecFloat.SFsqrt_core_binary.
  set (s := (_ - _)%Z).
  set (m' := match s with Zpos _ => Z.shiftl (Zpos mx) s | Z0 => Zpos mx | Zneg _ => 0%Z end).
  assert (Hm : (0 <= m')%Z).
  { subst m'. destruct s; [lia | apply Z.shiftl_nonneg; lia | lia]. }
  pose proof (Z.sqrtrem_spec m' Hm) as H.
  destruct (Z.sqrtrem m') as [q r]. cbn [fst]. lia.
Qed.

(** A number that is not negative, divided by a finite positive number,
    is a number that is not negative. *)
Lemma div_number q L :
  is_nan q = false -> (q <? 0) = false ->
  is_finite L = true -> (0 <? L) = true ->
  is_nan (q / L) = false /\ (q / L <? 0) = false.
Proof.
  intros Hq Hq0 HL HL0.
  destruct (positive_finite_cases L HL HL0) as (mL & eL & EL).
  unfold is_nan.
  rewrite FloatAxioms.eqb_spec, FloatAxioms.ltb_spec, FloatAxioms.div_spec.
  change (FloatOps.Prim2SF 0) with (SpecFloat.S754_zero false).
  unfold FloatAxioms.SF64div. rewrite EL.
  destruct (notNegative_cases q Hq Hq0) as [[s E] | [E | (m & e & E)]]; rewrite E.
  - cbn. split; reflexivity.
  - cbn. split; reflexivity.
  - unfold SpecFloat.SFdiv.
    pose proof (SFdiv_core_nonneg m e mL eL) as Hm.
    destruct (SpecFloat.SFdiv_core_binary _ _ _ _ _ _) as [[mz ez] lz]. cbn [fst] in Hm.
    cbn [xorb].
    destruct (binary_round_aux_number false mz ez lz Hm) as [R | [R | (m' & e' & R)]];
      rewrite R; cbn; try (split; reflexivity).
    unfold SpecFloat.SFeqb. cbn. rewrite Z.compare_refl, Pos.compare_cont_refl.
    split; reflexivity.
Qed.

(** The square root of a number that is not negative is a number. *)
Lemma sqrt_number r :
  is_nan r = false -> (r <? 0) = false -> is_nan (sqrt r) = false.
Proof.
  intros Hn H0.
  destruct (notNegative_cases r Hn H0) as [[s E] | [E | (m & e & E)]];
    unfold is_nan; rewrite FloatAxioms.eqb_spec, FloatAxioms.sqrt_spec;
    unfold FloatAxioms.SF64sqrt; rewrite E.
  - reflexivity.
  - reflexivity.
  - unfold SpecFloat.SFsqrt.
    pose proof (SFsqrt_core_nonneg m e) as Hm.
    destruct (SpecFloat.SFsqrt_core_binary _ _ _ _) as [[mz ez] lz]. cbn [fst] in Hm.
    destruct (binary_round_aux_number false mz ez lz Hm) as [R | [R | (m' & e' & R)]];
      rewrite R; cbn; try reflexivity.
    unfold SpecFloat.SFeqb. cbn. rewrite Z.compare_refl, Pos.compare_cont_refl.
    reflexivity.
Qed.

(** ** The floor and the ceiling *)

(** Nothing compares with a value that is not a number. *)
Lemma notNumber_compare v a :
  ~ isNumber v -> (a <? v) = false /\ (v <? a) = false /\ (a =? v) = false.
Proof.
  intro Nv. repeat split.
  - destruct (a <? v) eqn:E; [| reflexivity].
    exfalso. apply Nv. exact (proj2 (ltb_isNumber _ _ E)).
  - destruct (v <? a) eqn:E; [| reflexivity].
    exfalso. apply Nv. exact (proj1 (ltb_isNumber _ _ E)).
  - destruct (a =? v) eqn:E; [| reflexivity].
    exfalso. apply Nv. exact (proj2 (eqb_isNumber _ _ E)).
Qed.

Lemma floor_range v :
  let s := Binary64.Math_max 0.1 (Binary64.clamp v 0 1) in
  (isNumber v -> (0.1 <=? s) = true /\ (s <=? 1) = true)
  /\ (~ isNumber v -> is_nan s = true).
Proof.
  cbv zeta. rewrite clamp_floor. unfold clampToRange. split.
  - intro Nv.
    assert (N1 : isNumber 1) by (unfold isNumber; vm_compute; discriminate).
    assert (N0 : isNumber 0) by (unfold isNumber; vm_compute; discriminate).
    assert (Nf : isNumber 0.1) by (unfold isNumber; vm_compute; discriminate).
    destruct (v <? 0) eqn:A; [split; reflexivity |].
    destruct (1 <? v) eqn:B; [split; reflexivity |].
    pose proof (ltb_false_numLe 1 v B N1 Nv) as H1.
    unfold Binary64.Math_max.
    destruct (0.1 <? v) eqn:C.
    + split; [apply leb_numLe, numLt_numLe, ltb_numLt, C | apply leb_numLe, H1].
    + destruct (v <? 0.1) eqn:D; [split; reflexivity |].
      destruct (0.1 =? v) eqn:E.
      * replace (get_sign 0.1) with false by reflexivity. split; reflexivity.
      * destruct (trichotomy 0.1 v Nf Nv) as [T | [T | T]]; congruence.
  - intro Nv.
    destruct (notNumber_compare v 0 Nv) as (A1 & A2 & A3).
    destruct (notNumber_compare v 1 Nv) as (B1 & B2 & B3).
    destruct (notNumber_compare v 0.1 Nv) as (C1 & C2 & C3).
    rewrite A2, B1. unfold Binary64.Math_max. rewrite C1, C2, C3. reflexivity.
Qed.

(** Every operation hands a NaN on. *)
Lemma div_nan_left a b : is_nan a = true -> is_nan (a / b) = true.
Proof.
  unfold is_nan. rewrite !FloatAxioms.eqb_spec, FloatAxioms.div_spec.
  unfold FloatAxioms.SF64div.
  destruct (FloatOps.Prim2SF a) as [[] | [] | | [] m e]; cbn;
    try discriminate; try reflexivity;
    unfold SpecFloat.SFeqb; cbn;
    rewrite Z.compare_refl, Pos.compare_cont_refl; discriminate.
Qed.

Lemma sqrt_nan a : is_nan a = true -> is_nan (sqrt a) = true.
Proof.
  unfold is_nan. rewrite !FloatAxioms.eqb_spec, FloatAxioms.sqrt_spec.
  unfold FloatAxioms.SF64sqrt.
  destruct (FloatOps.Prim2SF a) as [[] | [] | | [] m e]; cbn;
    try discriminate; try reflexivity;
    unfold SpecFloat.SFeqb; cbn;
    rewrite Z.compare_refl, Pos.compare_cont_refl; discriminate.
Qed.

(** Minus infinity divided by a positive number has no square root. *)
Lemma sqrt_neg_infinity_div L :
  (0 <? L) = true -> is_nan (sqrt (neg_infinity / L)) = true.
Proof.
  intro HL. unfold is_nan.
  rewrite FloatAxioms.eqb_spec, FloatAxioms.sqrt_spec, FloatAxioms.div_spec.
  rewrite FloatAxioms.ltb_spec in HL.
  change (FloatOps.Prim2SF 0) with (SpecFloat.S754_zero false) in HL.
  change (FloatOps.Prim2SF neg_infinity) with (SpecFloat.S754_infinity true).
  unfold FloatAxioms.SF64sqrt, FloatAxioms.SF64div.
  destruct (FloatOps.Prim2SF L) as [s | s | | s m e]; cbn in HL |- *;
    try discriminate; try destruct s; try discriminate; reflexivity.
Qed.

(** A number equal to [-1] is [-1]. *)
Lemma eqb_minus_one v : (v =? -1) = true -> v = (-1).
Proof.
  intro H. destruct (eqb_keys _ _ H) as (k & Ev & E1).
  apply FloatAxioms.Prim2SF_inj.
  change (FloatOps.Prim2SF (-1)) with (SpecFloat.S754_finite true 4503599627370496 (-52)) in *.
  cbn in E1. inversion E1; subst k.
  destruct (FloatOps.Prim2SF v) as [s | s | | s m e]; try discriminate;
    try (destruct s; discriminate).
  cbn in Ev. destruct s; inversion Ev; subst.
  replace e with (-52)%Z by lia. reflexivity.
Qed.

(** ** The severity of an event *)

(** The severity is one of the constants or the floored and clamped
    magnitude of an edit. *)
Lemma calculateSeverity_cases (log1p : float -> float) (e : Event) :
  let s := Binary64.calculateSeverity log1p e in
  ((0.1 <=? s) = true /\ (s <=? 1) = true)
  \/ s = Binary64.Math_max 0.1
           (Binary64.clamp
              (sqrt (log1p (Binary64.changedChars e) / log1p 30000)) 0 1).
Proof.
  cbv zeta. unfold Binary64.calculateSeverity.
  destruct (String.eqb (event e) "policy_violation"); [left; split; reflexivity |].
  destruct (String.eqb (event e) "edit").
  - destruct (flagSet is_undo_like e); [left; split; reflexivity |].
    destruct (flagSet is_redo_like e); [left; split; reflexivity |].
    destruct (flagSet is_paste_like e); [left; split; reflexivity |].
    right. reflexivity.
  - destruct (String.eqb (event e) "snapshot"); [left; split; reflexivity |].
    destruct (String.eqb (event e) "session_start"); [left; split; reflexivity |].
    destruct (String.eqb (event e) "session_pause"); [left; split; reflexivity |].
    destruct (String.eqb (event e) "session_resume"); [left; split; reflexivity |].
    destruct (String.eqb (event e) "mode_change"); left; split; reflexivity.
Qed.

(** X5.  Whatever [log1p] the host supplies, the severity of an event
    is NaN or a number from 0.1 to 1.  It is a number from 0.1 to 1
    when the sum of the character counts is a number that is not
    negative, for a host whose [log1p] maps numbers that are not
    negative to such numbers and has [log1p(30000)] finite and
    positive.  It is NaN for an edit without a flag whose character
    counts sum to [-1] or less, for a host whose [log1p] is NaN below
    [-1] and minus infinity at [-1], as ECMAScript has it. *)
Theorem calculateSeverity_number_or_NaN :
  forall (log1p : float -> float) (e : Event),
    let s := Binary64.calculateSeverity log1p e in
    (is_nan s = true \/ ((0.1 <=? s) = true /\ (s <=? 1) = true))
    /\ ((forall x, is_nan x = false -> (x <? 0) = false ->
                   is_nan (log1p x) = false /\ (log1p x <? 0) = false) ->
        is_finite (log1p 30000) = true -> (0 <? log1p 30000) = true ->
        is_nan (Binary64.changedChars e) = false ->
        (Binary64.changedChars e <? 0) = false ->
        (0.1 <=? s) = true /\ (s <=? 1) = true)
    /\ ((forall x, (x <? -1) = true -> is_nan (log1p x) = true) ->
        log1p (-1) = neg_infinity ->
        (0 <? log1p 30000) = true ->
        event e = "edit"%string ->
        flagSet is_undo_like e = false -> flagSet is_redo_like e = false ->
        flagSet is_paste_like e = false ->
        (Binary64.changedChars e <=? -1) = true ->
        is_nan s = true).
Proof.
  intros log1p e. cbv zeta. split; [| split].
  - destruct (calculateSeverity_cases log1p e) as [H | H]; [right; exact H |].
    rewrite H.
    destruct (isNumber_dec (sqrt (log1p (Binary64.changedChars e) / log1p 30000)))
      as [N | N].
    + right. exact (proj1 (floor_range _) N).
    + left. exact (proj2 (floor_range _) N).
  - intros Hlaw HLf HLp Hn H0.
    destruct (calculateSeverity_cases log1p e) as [H | H]; [exact H |].
    rewrite H. apply (proj1 (floor_range _)).
    apply isNumber_is_nan.
    destruct (Hlaw _ Hn H0) as [Qn Q0].
    destruct (div_number _ _ Qn Q0 HLf HLp) as [Rn R0].
    exact (sqrt_number _ Rn R0).
  - intros Hlaw Hm1 HLp Hk Hu Hr Hp Hc.
    unfold Binary64.calculateSeverity. rewrite Hk, Hu, Hr, Hp.
    cbn [String.eqb Ascii.eqb Bool.eqb]. cbv zeta.
    apply (proj2 (floor_range _)). rewrite isNumber_is_nan.
    assert (G : is_nan (sqrt (log1p (Binary64.changedChars e) / log1p 30000)) = true).
    { destruct (Binary64.changedChars e <? -1) eqn:L.
      - apply sqrt_nan, div_nan_left, Hlaw, L.
      - assert (E : (Binary64.changedChars e =? -1) = true).
        { apply leb_numLe in Hc. destruct (numLe_isNumber _ _ Hc) as [Nc N1].
          apply numLe_antisym_eqb; [exact Hc |].
          exact (ltb_false_numLe _ _ L Nc N1). }
        rewrite (eqb_minus_one _ E), Hm1. apply sqrt_neg_infinity_div, HLp. }
    rewrite G. discriminate.
Qed.

Lemma calculateSeverity_number_or_NaN_witness :
  (let e := normalizeEvent (rawFlaggedEdit None 7 3) in
   let s := Binary64.calculateSeverity (fun x => x) e in
   (0.1 <=? s) = true /\ (s <=? 1) = true)
  /\ (let host := fun x => if x <? -1 then nan
                           else if x =? -1 then neg_infinity else x in
      let e := normalizeEvent (rawFlaggedEdit None (-5) 0) in
      is_nan (Binary64.calculateSeverity host e) = true).
Proof.
  split.
  - apply (calculateSeverity_number_or_NaN (fun x => x)); try reflexivity.
    intros x Hn H0. split; assumption.
  - apply (calculateSeverity_number_or_NaN
             (fun x => if x <? -1 then nan
                       else if x =? -1 then neg_infinity else x));
      try reflexivity.
    intros x Hx. rewrite Hx. reflexivity.
Defined.
End SeverityRange.

(** * Sampling, the tolerance and the hatch loop in binary64 *)
Section Rounded.
Import PrimFloat.
#[local] Set Warnings "-inexact-float".
Local Open Scope float_scope.

(** X6.  Uniform sampling reads the entry at [Math.floor(i * step)]
    where [step = filtered.length / config.maxEvents] is rounded to
    binary64 before it is multiplied.  The sample has [maxEvents]
    entries.  With the 530 events of the shipped configuration and 742
    entries, the positions start at 0, stay below 742 and increase
    strictly, so the sample is a sub-sequence; position 45 is entry 62,
    where the exact quotient [45 * 742 / 530 = 63] has entry 63, and
    the positions differ from the exact ones at 16 places. *)
Theorem sampleUniform_binary64 :
  (forall (filtered : list Ref) (maxEv : N),
      List.length (Binary64.sampleUniform filtered maxEv) = N.to_nat maxEv)
  /\ Binary64.sampleIndex 742 530 0 = Some 0%Z
  /\ forallb (fun i : nat =>
                match Binary64.sampleIndex 742 530 i, Binary64.sampleIndex 742 530 (S i) with
                | Some a, Some b => (0 <=? a)%Z && (a <? b)%Z && (b <? 742)%Z
                | _, _ => false
                end) (seq 0 529) = true
  /\ nth_error (Binary64.sampleUniform (seq 0 742) 530) 45 = Some (Some 62%nat)
  /\ nth_error (sampleUniform (seq 0 742) 530) 45 = Some 63%nat
  /\ List.length
       (filter (fun i : nat =>
                  negb (match Binary64.sampleIndex 742 530 i with
                        | Some k => (k =? Z.of_nat i * 742 / 530)%Z
                        | None => false
                        end)) (seq 0 530)) = 16%nat.
Proof.
  split; [| split; [| split; [| split; [| split]]]].
  - intros filtered maxEv. unfold Binary64.sampleUniform.
    rewrite length_map, length_seq. reflexivity.
  - vm_compute. reflexivity.
  - vm_compute. reflexivity.
  - vm_compute. reflexivity.
  - vm_compute. reflexivity.
  - vm_compute. reflexivity.
Qed.

(** X9.  The test [Math.abs(t - last.t) > 0.0001] is made on rounded
    parameters.  On the segment from (0, 0) to (10000, 0) with the hole
    [12, 13] x [-1, 1] the two crossings have the parameters 0.0012 and
    0.0013, exactly 0.0001 apart: computed without rounding they count
    as one and a single line is drawn, up to the hole; in binary64 the
    difference is above [0.0001], both are kept, and the line after the
    hole is drawn as well. *)
Theorem drawLineWithRectHole_tolerance :
  let hole := {| rect_x := 12; rect_y := -1; rect_w := 1; rect_h := 2 |} in
  let hole64 := {| Binary64.rect_x := 12; Binary64.rect_y := -1;
                   Binary64.rect_w := 1; Binary64.rect_h := 2 |}%float in
  map reduced (drawLineWithRectHole 0 0 10000 0 hole) = [(0, 0, 12, 0)]%Q
  /\ map Binary64.hit_t (Binary64.holeUnique 0 0 10000 0 hole64) = [0.0012; 0.0013]
  /\ (0.0001 <? abs (0.0013 - 0.0012)) = true
  /\ Binary64.drawLineWithRectHole 0 0 10000 0 hole64
     = [(0, 0, 12, 0); (13, 0, 10000, 0)].
Proof.
  cbv zeta. split; [| split; [| split]]; vm_compute; reflexivity.
Qed.

(** [Math.ceil] and [numLines] on some values. *)
Lemma numLines_examples :
  Binary64.Math_ceil 2.5 = 3 /\ Binary64.Math_ceil (-2.5) = (-2)
  /\ Binary64.Math_ceil (-0.5) = (-0) /\ Binary64.Math_ceil 7 = 7
  /\ Binary64.Math_ceil 0.1 = 1 /\ Binary64.Math_ceil neg_infinity = neg_infinity
  /\ Binary64.numLines 3 4 2 1 = 5.
Proof. repeat split; vm_compute; reflexivity. Qed.



End Rounded.
